(** * Root-finding engines: bisection, Newton and secant

    A shallow embedding of [Bisect_Method.py], [Newton_Method.py] and
    [Secant_Method.py] (for each method the plain function, the
    [_with_plot] function the driver calls, and the [_animation] function),
    with the properties of their iteration loops; then the numeric part of
    their callers: the rate estimate and the three blocks of [main.py], and
    the unpacking and the [update] closures of the [animate_] functions of
    [Animation_Manager.py].

    The Python functions are polymorphic in the numbers they receive (the
    driver passes [int] seeds and gets [float] or [numpy.float64] iterates),
    so the engines are written once, in a section, over an abstract number
    type [R] and the handful of operations the source applies to it.  Two
    instances are given afterwards: exact rationals ([Q]) and IEEE binary64
    ([PrimFloat]).  A property proved in the section therefore holds whatever
    the rounding, overflow or NaN behaviour of the arithmetic is.

    The evaluators [f] and [fprime] are functions [R -> R]: pure and total,
    as the engines' contract assumes.  Each [for] loop runs over a [range],
    so a loop is a structural recursion on the number of indices left and
    every engine is a total function.  Console output ([print]) is not
    modelled: it never feeds back into the computation. *)

From Stdlib Require Import ZArith QArith Qabs Bool Lia Lqa Floats.
From stdpp Require Import base list.

Set Default Proof Using "Type".

(** ** Values returned to the caller *)

(** What a call hands back.  The two f-strings are kept structured (the
    numbers they interpolate) instead of being rendered to characters. *)
Inductive value (R : Type) : Type :=
  | PyNone                                   (* bare [return] or falling off the end *)
  | SameSign                                 (* the str "Same Sign" *)
  | RootFoundAt (c fc : R)                   (* f"Root found at ({c},{fc})" *)
  | ZeroAt (x fx : R)                        (* f"Zero at ({x}, {fx})" *)
  | Seqs (x_vals fx_vals : list R)           (* the tuple (x_vals, fx_vals) *)
  | SeqsWith (x_vals fx_vals : list R) (detail : list (list R)).
      (* the tuple (x_vals, fx_vals, detail) of the animation variants;
         [detail] is a list of tuples of numbers *)
Arguments PyNone {R}.
Arguments SameSign {R}.
Arguments RootFoundAt {R} c fc.
Arguments ZeroAt {R} x fx.
Arguments Seqs {R} x_vals fx_vals.
Arguments SeqsWith {R} x_vals fx_vals detail.

(** A call either returns a value or lets an exception propagate (no
    engine has a [try]): the [ZeroDivisionError] of a [/], or the
    [IndexError] of a subscript. *)
Inductive result (R : Type) : Type :=
  | Return (v : value R)
  | ZeroDivisionError
  | IndexError.
Arguments Return {R} v.
Arguments ZeroDivisionError {R}.
Arguments IndexError {R}.

(** [l[-(k+1)]]: subscripting from the end; [None] stands for [IndexError]. *)
Definition from_end {R} (k : nat) (l : list R) : option R := rev l !! k.

(** ** Ghost record of a run

    None of this is visible to the Python caller; it records how the loop
    was left and what it did, so that statements about "every iteration" can
    be written down. *)
Inductive exit : Type :=
  | Converged       (* a tolerance test succeeded: [break] / [return f"..."] *)
  | Exhausted       (* the [for] ran out of indices *)
  | SlopeGuard      (* [abs(fp) < epsilon] or [abs(fx1 - fx0) < epsilon] *)
  | NoSignChange    (* [sign(fa) == sign(fb)] before the loop *)
  | Raised.         (* an exception left the call *)

Record ghost (R : Type) : Type := Ghost {
  exit_by : exit;               (* how the run ended *)
  passes : nat;                 (* loop bodies entered *)
  steps : list R;               (* [e] (bisection) or [d] of each pass that computed one *)
  divs : list (R * R);          (* (numerator, denominator) of every [/] evaluated *)
  brackets : list (R * R)       (* bisection: [(a, b)] when the midpoint is taken *)
}.
Arguments Ghost {R}.
Arguments exit_by {R}.
Arguments passes {R}.
Arguments steps {R}.
Arguments divs {R}.
Arguments brackets {R}.

Definition ghost0 {R} : ghost R := Ghost Exhausted 0 [] [] [].
Definition enter_pass {R} (g : ghost R) : ghost R :=
  Ghost (exit_by g) (S (passes g)) (steps g) (divs g) (brackets g).
Definition log_step {R} (d : R) (g : ghost R) : ghost R :=
  Ghost (exit_by g) (passes g) (steps g ++ [d]) (divs g) (brackets g).
Definition log_div {R} (n d : R) (g : ghost R) : ghost R :=
  Ghost (exit_by g) (passes g) (steps g) (divs g ++ [(n, d)]) (brackets g).
Definition log_bracket {R} (a b : R) (g : ghost R) : ghost R :=
  Ghost (exit_by g) (passes g) (steps g) (divs g) (brackets g ++ [(a, b)]).
Definition leave {R} (x : exit) (g : ghost R) : ghost R :=
  Ghost x (passes g) (steps g) (divs g) (brackets g).

(** [for i in range(start, stop)]: the number of indices visited. *)
Definition range_len (start stop : Z) : nat := Z.to_nat (stop - start).

(** ** The engines *)
Section Engines.
Context {R : Type}.

(** The numeric operations the source uses. [zero] is the literal [0] of
    [sign]; [half] is [e / 2], kept apart from the general [/] because its
    divisor is the literal [2] and so cannot raise; [div] is [/], [None]
    standing for [ZeroDivisionError]. *)
Variable zero : R.
Variables add sub mul : R -> R -> R.
Variable half : R -> R.
Variable div : R -> R -> option R.
Variable abs : R -> R.
Variable ltb : R -> R -> bool.

(** [sign] of [Bisect_Method.py]. *)
Definition sign (a : R) : Z :=
  if ltb a zero then (-1)%Z else 1%Z.

(** *** Bisection *)
Section Bisection.
Variables (err1 epsilon : R) (f : R -> R).

(** Loop of [bisect_method]; [n] is the number of indices left. *)
Fixpoint bisect_loop (n : nat) (a b fa fb e : R) (g : ghost R)
  : result R * ghost R :=
  match n with
  | O => (Return PyNone, leave Exhausted g)
  | S n =>
      let g := enter_pass g in
      let g := log_bracket a b g in
      let e := half e in
      let c := add a e in
      let fc := f c in
      let g := log_step e g in
      if ltb (abs e) err1 || ltb (abs fc) epsilon then
        (Return (RootFoundAt c fc), leave Converged g)
      else if negb (sign fc =? sign (f a))%Z then
        bisect_loop n a c fa fc e g
      else
        bisect_loop n c b c fb e g
  end.

Definition bisect_method_run (a b : R) (M : Z) : result R * ghost R :=
  let fa := f a in
  let fb := f b in
  let e := sub b a in
  if (sign fa =? sign fb)%Z then (Return SameSign, leave NoSignChange ghost0)
  else bisect_loop (range_len 1 M) a b fa fb e ghost0.

(** Loop of [bisect_method_with_plot]. *)
Fixpoint bisect_plot_loop (n : nat) (a b fa fb e : R)
    (x_vals fx_vals : list R) (g : ghost R) : result R * ghost R :=
  match n with
  | O => (Return (Seqs x_vals fx_vals), leave Exhausted g)
  | S n =>
      let g := enter_pass g in
      let g := log_bracket a b g in
      let e := half e in
      let c := add a e in
      let fc := f c in
      let x_vals := x_vals ++ [c] in
      let fx_vals := fx_vals ++ [fc] in
      let g := log_step e g in
      if ltb (abs e) err1 || ltb (abs fc) epsilon then
        (Return (Seqs x_vals fx_vals), leave Converged g)
      else if negb (sign fc =? sign (f a))%Z then
        bisect_plot_loop n a c fa fc e x_vals fx_vals g
      else
        bisect_plot_loop n c b fc fb e x_vals fx_vals g
  end.

Definition bisect_plot_run (a b : R) (M : Z) : result R * ghost R :=
  let fa := f a in
  let fb := f b in
  let e := sub b a in
  let x_vals := [] in
  let fx_vals := [] in
  if (sign fa =? sign fb)%Z then (Return SameSign, leave NoSignChange ghost0)
  else bisect_plot_loop (range_len 1 (M + 1)) a b fa fb e x_vals fx_vals ghost0.

(** Loop of [bisect_animation], which has one tolerance for both tests and
    also returns the brackets. *)
Fixpoint bisect_anim_loop (n : nat) (a b fa fb e : R)
    (x_vals fx_vals : list R) (intervals : list (list R)) (g : ghost R)
  : result R * ghost R :=
  match n with
  | O => (Return (SeqsWith x_vals fx_vals intervals), leave Exhausted g)
  | S n =>
      let g := enter_pass g in
      let g := log_bracket a b g in
      let e := half e in
      let c := add a e in
      let fc := f c in
      let x_vals := x_vals ++ [c] in
      let fx_vals := fx_vals ++ [fc] in
      let intervals := intervals ++ [[a; b]] in
      let g := log_step e g in
      if ltb (abs e) epsilon || ltb (abs fc) epsilon then
        (Return (SeqsWith x_vals fx_vals intervals), leave Converged g)
      else if negb (sign fc =? sign (f a))%Z then
        bisect_anim_loop n a c fa fc e x_vals fx_vals intervals g
      else
        bisect_anim_loop n c b fc fb e x_vals fx_vals intervals g
  end.

Definition bisect_anim_run (a b : R) (M : Z) : result R * ghost R :=
  let fa := f a in
  let fb := f b in
  let e := sub b a in
  let x_vals := [] in
  let fx_vals := [] in
  let intervals := [] in
  if (sign fa =? sign fb)%Z then (Return SameSign, leave NoSignChange ghost0)
  else bisect_anim_loop (range_len 1 (M + 1)) a b fa fb e
         x_vals fx_vals intervals ghost0.
End Bisection.

(** *** Newton *)
Section Newton.
Variables (f fprime : R -> R) (err1 err2 epsilon : R).

(** Loop of [newton_method]. *)
Fixpoint newton_loop (n : nat) (x fx : R) (g : ghost R)
  : result R * ghost R :=
  match n with
  | O => (Return PyNone, leave Exhausted g)
  | S n =>
      let g := enter_pass g in
      let fp := fprime x in
      if ltb (abs fp) epsilon then (Return PyNone, leave SlopeGuard g)
      else
        let g := log_div fx fp g in
        match div fx fp with
        | None => (ZeroDivisionError, leave Raised g)
        | Some d =>
            let g := log_step d g in
            let x := sub x d in
            let fx := f x in
            if ltb (abs d) err1 || ltb (abs fx) err2 then
              (Return (ZeroAt x fx), leave Converged g)
            else newton_loop n x fx g
        end
  end.

Definition newton_method_run (x : R) (nmax : Z) : result R * ghost R :=
  let fx := f x in
  newton_loop (range_len 1 nmax) x fx ghost0.

(** Loop of [newton_method_with_plot]. *)
Fixpoint newton_plot_loop (n : nat) (x fx : R) (x_vals fx_vals : list R)
    (g : ghost R) : result R * ghost R :=
  match n with
  | O => (Return (Seqs x_vals fx_vals), leave Exhausted g)
  | S n =>
      let g := enter_pass g in
      let fp := fprime x in
      if ltb (abs fp) epsilon then
        (Return (Seqs x_vals fx_vals), leave SlopeGuard g)
      else
        let g := log_div fx fp g in
        match div fx fp with
        | None => (ZeroDivisionError, leave Raised g)
        | Some d =>
            let g := log_step d g in
            let x := sub x d in
            let fx := f x in
            let x_vals := x_vals ++ [x] in
            let fx_vals := fx_vals ++ [fx] in
            if ltb (abs d) err1 || ltb (abs fx) err2 then
              (Return (Seqs x_vals fx_vals), leave Converged g)
            else newton_plot_loop n x fx x_vals fx_vals g
        end
  end.

Definition newton_plot_run (x0 : R) (nmax : Z) : result R * ghost R :=
  let x := x0 in
  let fx := f x in
  let x_vals := [x] in
  let fx_vals := [fx] in
  newton_plot_loop (range_len 1 (nmax + 1)) x fx x_vals fx_vals ghost0.

(** Loop of [newton_animation]: no convergence test, and [f(x)] is
    evaluated anew where the other two variants keep [fx]. *)
Fixpoint newton_anim_loop (n : nat) (x : R) (x_vals fx_vals : list R)
    (tangents : list (list R)) (g : ghost R) : result R * ghost R :=
  match n with
  | O => (Return (SeqsWith x_vals fx_vals tangents), leave Exhausted g)
  | S n =>
      let g := enter_pass g in
      let fp := fprime x in
      if ltb (abs fp) epsilon then
        (Return (SeqsWith x_vals fx_vals tangents), leave SlopeGuard g)
      else
        let g := log_div (f x) fp g in
        match div (f x) fp with
        | None => (ZeroDivisionError, leave Raised g)
        | Some d =>
            let g := log_step d g in
            let x_new := sub x d in
            let tangents := tangents ++ [[x; f x; fp]] in
            let x := x_new in
            let x_vals := x_vals ++ [x] in
            let fx_vals := fx_vals ++ [f x] in
            newton_anim_loop n x x_vals fx_vals tangents g
        end
  end.

Definition newton_anim_run (x0 : R) (nmax : Z) : result R * ghost R :=
  let x_vals := [x0] in
  let fx_vals := [f x0] in
  let tangents := [] in
  let x := x0 in
  newton_anim_loop (range_len 0 nmax) x x_vals fx_vals tangents ghost0.
End Newton.

(** *** Secant *)
Section Secant.
Variables (f : R -> R) (err1 err2 epsilon : R).

(** Loop of [secant_method]. *)
Fixpoint secant_loop (n : nat) (x0 x1 fx0 fx1 : R) (g : ghost R)
  : result R * ghost R :=
  match n with
  | O => (Return PyNone, leave Exhausted g)
  | S n =>
      let g := enter_pass g in
      if ltb (abs (sub fx1 fx0)) epsilon then
        (Return PyNone, leave SlopeGuard g)
      else
        let g := log_div (mul fx1 (sub x1 x0)) (sub fx1 fx0) g in
        match div (mul fx1 (sub x1 x0)) (sub fx1 fx0) with
        | None => (ZeroDivisionError, leave Raised g)
        | Some d =>
            let g := log_step d g in
            let '(x0, x1) := (x1, sub x1 d) in
            let '(fx0, fx1) := (fx1, f x1) in
            if ltb (abs d) err1 || ltb (abs fx1) err2 then
              (Return (ZeroAt x1 fx1), leave Converged g)
            else secant_loop n x0 x1 fx0 fx1 g
        end
  end.

Definition secant_method_run (x0 x1 : R) (nmax : Z) : result R * ghost R :=
  let fx0 := f x0 in
  let fx1 := f x1 in
  secant_loop (range_len 1 nmax) x0 x1 fx0 fx1 ghost0.

(** Loop of [secant_method_with_plot]. *)
Fixpoint secant_plot_loop (n : nat) (x0 x1 fx0 fx1 : R)
    (x_vals fx_vals : list R) (g : ghost R) : result R * ghost R :=
  match n with
  | O => (Return (Seqs x_vals fx_vals), leave Exhausted g)
  | S n =>
      let g := enter_pass g in
      if ltb (abs (sub fx1 fx0)) epsilon then
        (Return (Seqs x_vals fx_vals), leave SlopeGuard g)
      else
        let g := log_div (mul fx1 (sub x1 x0)) (sub fx1 fx0) g in
        match div (mul fx1 (sub x1 x0)) (sub fx1 fx0) with
        | None => (ZeroDivisionError, leave Raised g)
        | Some d =>
            let g := log_step d g in
            let '(x0, x1) := (x1, sub x1 d) in
            let '(fx0, fx1) := (fx1, f x1) in
            let x_vals := x_vals ++ [x1] in
            let fx_vals := fx_vals ++ [fx1] in
            if ltb (abs d) err1 || ltb (abs fx1) err2 then
              (Return (Seqs x_vals fx_vals), leave Converged g)
            else secant_plot_loop n x0 x1 fx0 fx1 x_vals fx_vals g
        end
  end.

Definition secant_plot_run (x0 x1 : R) (nmax : Z) : result R * ghost R :=
  let fx0 := f x0 in
  let fx1 := f x1 in
  let x_vals := [x0; x1] in
  let fx_vals := [fx0; fx1] in
  secant_plot_loop (range_len 1 (nmax + 1)) x0 x1 fx0 fx1 x_vals fx_vals ghost0.

(** Loop of [secant_animation], which reads the last two iterates back
    from the lists by negative subscripts. *)
Fixpoint secant_anim_loop (n : nat) (x_vals fx_vals : list R)
    (secants : list (list R)) (g : ghost R) : result R * ghost R :=
  match n with
  | O => (Return (SeqsWith x_vals fx_vals secants), leave Exhausted g)
  | S n =>
      let g := enter_pass g in
      match from_end 0 fx_vals, from_end 1 fx_vals,
            from_end 0 x_vals, from_end 1 x_vals with
      | Some fx_1, Some fx_2, Some x_1, Some x_2 =>
          if ltb (abs (sub fx_1 fx_2)) epsilon then
            (Return (SeqsWith x_vals fx_vals secants), leave SlopeGuard g)
          else
            let g := log_div (mul fx_1 (sub x_1 x_2)) (sub fx_1 fx_2) g in
            match div (mul fx_1 (sub x_1 x_2)) (sub fx_1 fx_2) with
            | None => (ZeroDivisionError, leave Raised g)
            | Some d =>
                let g := log_step d g in
                let x_new := sub x_1 d in
                let secants := secants ++ [[x_2; fx_2; x_1; fx_1]] in
                let x_vals := x_vals ++ [x_new] in
                let fx_vals := fx_vals ++ [f x_new] in
                secant_anim_loop n x_vals fx_vals secants g
            end
      | _, _, _, _ => (IndexError, leave Raised g)
      end
  end.

Definition secant_anim_run (x0 x1 : R) (nmax : Z) : result R * ghost R :=
  let x_vals := [x0; x1] in
  let fx_vals := [f x0; f x1] in
  let secants := [] in
  secant_anim_loop (range_len 0 nmax) x_vals fx_vals secants ghost0.
End Secant.

(** The functions as Python sees them, with the source's argument order. *)
Definition bisect_method (a b : R) (M : Z) (err1 epsilon : R) (f : R -> R)
  : result R :=
  fst (bisect_method_run err1 epsilon f a b M).

Definition bisect_method_with_plot (a b : R) (M : Z) (err1 epsilon : R)
    (f : R -> R) : result R :=
  fst (bisect_plot_run err1 epsilon f a b M).

Definition newton_method (f fprime : R -> R) (x : R) (nmax : Z)
    (err1 err2 epsilon : R) : result R :=
  fst (newton_method_run f fprime err1 err2 epsilon x nmax).

Definition newton_method_with_plot (f fprime : R -> R) (x0 : R) (nmax : Z)
    (err1 err2 epsilon : R) : result R :=
  fst (newton_plot_run f fprime err1 err2 epsilon x0 nmax).

Definition secant_method (f : R -> R) (x0 x1 : R) (nmax : Z)
    (err1 err2 epsilon : R) : result R :=
  fst (secant_method_run f err1 err2 epsilon x0 x1 nmax).

Definition secant_method_with_plot (f : R -> R) (x0 x1 : R) (nmax : Z)
    (err1 err2 epsilon : R) : result R :=
  fst (secant_plot_run f err1 err2 epsilon x0 x1 nmax).


Definition bisect_animation (a b : R) (M : Z) (epsilon : R) (f : R -> R)
  : result R :=
  fst (bisect_anim_run epsilon f a b M).

Definition newton_animation (f fprime : R -> R) (x0 : R) (nmax : Z)
    (epsilon : R) : result R :=
  fst (newton_anim_run f fprime epsilon x0 nmax).

Definition secant_animation (f : R -> R) (x0 x1 : R) (nmax : Z)
    (epsilon : R) : result R :=
  fst (secant_anim_run f epsilon x0 x1 nmax).

End Engines.

(** ** Exact rational arithmetic

    Every result is put in lowest terms, so that equal numbers are equal
    terms and runs can be compared with [=]. *)
Module Rational.
Definition zero : Q := 0%Q.
Definition add (x y : Q) : Q := Qred (x + y).
Definition sub (x y : Q) : Q := Qred (x - y).
Definition mul (x y : Q) : Q := Qred (x * y).
Definition half (x : Q) : Q := Qred (x / 2).
Definition div (x y : Q) : option Q :=
  if Qeq_bool y 0 then None else Some (Qred (x / y)).
Definition abs (x : Q) : Q := Qabs x.
Definition leb (x y : Q) : bool := Qle_bool x y.
Definition ltb (x y : Q) : bool := negb (Qle_bool y x).

(** The driver's test function [f2] and its derivative. *)
Definition f2 (x : Q) : Q := sub (mul x x) 1.
Definition f2_prime (x : Q) : Q := mul 2 x.

(** A function without a real root, and its derivative: Newton from
    [x0 = 1] steps to [0], where the derivative vanishes. *)
Definition g1 (x : Q) : Q := add (mul x x) 1.
Definition g1_prime (x : Q) : Q := mul 2 x.

(** [1e-12], the tolerance the driver passes. *)
Definition tol : Q := 1 # 1000000000000.

Definition sign := sign zero ltb.
Definition bisect_method := bisect_method zero add sub half abs ltb.
Definition bisect_method_with_plot :=
  bisect_method_with_plot zero add sub half abs ltb.
Definition bisect_plot_run := bisect_plot_run zero add sub half abs ltb.
Definition bisect_method_run := bisect_method_run zero add sub half abs ltb.
Definition newton_method := newton_method sub div abs ltb.
Definition newton_method_with_plot := newton_method_with_plot sub div abs ltb.
Definition newton_plot_run := newton_plot_run sub div abs ltb.
Definition newton_method_run := newton_method_run sub div abs ltb.
Definition secant_method := secant_method sub mul div abs ltb.
Definition secant_method_with_plot := secant_method_with_plot sub mul div abs ltb.
Definition secant_plot_run := secant_plot_run sub mul div abs ltb.
Definition secant_method_run := secant_method_run sub mul div abs ltb.
End Rational.

(** ** IEEE binary64 arithmetic (Python's [float]) *)
Module Binary64.
Definition zero : float := 0%float.
Definition add (x y : float) : float := (x + y)%float.
Definition sub (x y : float) : float := (x - y)%float.
Definition mul (x y : float) : float := (x * y)%float.
Definition half (x : float) : float := (x / 2)%float.
(** A [float] divided by a zero of either sign raises. *)
Definition div (x y : float) : option float :=
  if PrimFloat.eqb y 0 then None else Some (x / y)%float.
Definition abs (x : float) : float := PrimFloat.abs x.
Definition ltb (x y : float) : bool := PrimFloat.ltb x y.
Definition leb (x y : float) : bool := PrimFloat.leb x y.

(** The driver's [f2].  On a [float], [x**2] is the C library's
    [pow(x, 2.0)]: it is no primitive of these floats, it is not [x * x] on
    every argument, and it raises [OverflowError] where the square is too
    large.  So it enters as a function [sq], and a statement about [f2]
    says at which arguments it needs [sq] to be the square. *)
Definition f2 (sq : float -> float) (x : float) : float := sub (sq x) 1.

(** The binary64 number that the literal [1e-12] denotes. *)
Definition tol : float := 0x1.19799812dea11p-40%float.

Definition bisect_method_with_plot :=
  bisect_method_with_plot zero add sub half abs ltb.
Definition bisect_plot_run := bisect_plot_run zero add sub half abs ltb.
End Binary64.

(** ** The plotting engines over a store of list objects

    [x_vals] and [fx_vals] are Python lists: objects created by the call,
    grown in place by [append] and handed back by reference.  Here the
    interpreter's objects are a store, a call takes the store it finds and
    returns the one it leaves, and the returned tuple holds locations. *)
Abbreviation loc := nat (only parsing).
Abbreviation store R := (list (list R)) (only parsing).

Inductive ref_result : Type :=
  | RefSameSign                            (* "Same Sign" *)
  | RefSeqs (x_vals fx_vals : loc)         (* (x_vals, fx_vals) *)
  | RefZeroDivisionError.

(** A list display [[...]]: a new object, at a location not in use. *)
Definition new_list {R} (init : list R) (s : store R) : loc * store R :=
  (length s, s ++ [init]).

(** [l.append(v)]; a location always denotes a live object, so the lookup
    cannot fail in a run (the store is left alone if it did). *)
Definition append {R} (l : loc) (v : R) (s : store R) : store R :=
  match s !! l with
  | Some xs => <[l := xs ++ [v]]> s
  | None => s
  end.

(** What the caller finds behind a returned value. *)
Definition read {R} (s : store R) (r : ref_result) : option (result R) :=
  match r with
  | RefSameSign => Some (Return SameSign)
  | RefSeqs lx lfx =>
      match s !! lx, s !! lfx with
      | Some xs, Some fxs => Some (Return (Seqs xs fxs))
      | _, _ => None
      end
  | RefZeroDivisionError => Some ZeroDivisionError
  end.

Section StoreEngines.
Context {R : Type}.
Variable zero : R.
Variables add sub mul : R -> R -> R.
Variable half : R -> R.
Variable div : R -> R -> option R.
Variable abs : R -> R.
Variable ltb : R -> R -> bool.

Fixpoint bisect_plot_st_loop (err1 epsilon : R) (f : R -> R) (n : nat)
    (a b fa fb e : R) (x_vals fx_vals : loc) (s : store R)
  : ref_result * store R :=
  match n with
  | O => (RefSeqs x_vals fx_vals, s)
  | S n =>
      let e := half e in
      let c := add a e in
      let fc := f c in
      let s := append x_vals c s in
      let s := append fx_vals fc s in
      if ltb (abs e) err1 || ltb (abs fc) epsilon then
        (RefSeqs x_vals fx_vals, s)
      else if negb (sign zero ltb fc =? sign zero ltb (f a))%Z then
        bisect_plot_st_loop err1 epsilon f n a c fa fc e x_vals fx_vals s
      else
        bisect_plot_st_loop err1 epsilon f n c b fc fb e x_vals fx_vals s
  end.

Definition bisect_method_with_plot_st (a b : R) (M : Z) (err1 epsilon : R)
    (f : R -> R) (s : store R) : ref_result * store R :=
  let fa := f a in
  let fb := f b in
  let e := sub b a in
  let '(x_vals, s) := new_list [] s in
  let '(fx_vals, s) := new_list [] s in
  if (sign zero ltb fa =? sign zero ltb fb)%Z then (RefSameSign, s)
  else bisect_plot_st_loop err1 epsilon f (range_len 1 (M + 1))
         a b fa fb e x_vals fx_vals s.

Fixpoint newton_plot_st_loop (f fprime : R -> R) (err1 err2 epsilon : R)
    (n : nat) (x fx : R) (x_vals fx_vals : loc) (s : store R)
  : ref_result * store R :=
  match n with
  | O => (RefSeqs x_vals fx_vals, s)
  | S n =>
      let fp := fprime x in
      if ltb (abs fp) epsilon then (RefSeqs x_vals fx_vals, s)
      else
        match div fx fp with
        | None => (RefZeroDivisionError, s)
        | Some d =>
            let x := sub x d in
            let fx := f x in
            let s := append x_vals x s in
            let s := append fx_vals fx s in
            if ltb (abs d) err1 || ltb (abs fx) err2 then
              (RefSeqs x_vals fx_vals, s)
            else
              newton_plot_st_loop f fprime err1 err2 epsilon n x fx
                x_vals fx_vals s
        end
  end.

Definition newton_method_with_plot_st (f fprime : R -> R) (x0 : R)
    (nmax : Z) (err1 err2 epsilon : R) (s : store R)
  : ref_result * store R :=
  let x := x0 in
  let fx := f x in
  let '(x_vals, s) := new_list [x] s in
  let '(fx_vals, s) := new_list [fx] s in
  newton_plot_st_loop f fprime err1 err2 epsilon (range_len 1 (nmax + 1))
    x fx x_vals fx_vals s.

Fixpoint secant_plot_st_loop (f : R -> R) (err1 err2 epsilon : R)
    (n : nat) (x0 x1 fx0 fx1 : R) (x_vals fx_vals : loc) (s : store R)
  : ref_result * store R :=
  match n with
  | O => (RefSeqs x_vals fx_vals, s)
  | S n =>
      if ltb (abs (sub fx1 fx0)) epsilon then (RefSeqs x_vals fx_vals, s)
      else
        match div (mul fx1 (sub x1 x0)) (sub fx1 fx0) with
        | None => (RefZeroDivisionError, s)
        | Some d =>
            let '(x0, x1) := (x1, sub x1 d) in
            let '(fx0, fx1) := (fx1, f x1) in
            let s := append x_vals x1 s in
            let s := append fx_vals fx1 s in
            if ltb (abs d) err1 || ltb (abs fx1) err2 then
              (RefSeqs x_vals fx_vals, s)
            else
              secant_plot_st_loop f err1 err2 epsilon n x0 x1 fx0 fx1
                x_vals fx_vals s
        end
  end.

Definition secant_method_with_plot_st (f : R -> R) (x0 x1 : R) (nmax : Z)
    (err1 err2 epsilon : R) (s : store R) : ref_result * store R :=
  let fx0 := f x0 in
  let fx1 := f x1 in
  let '(x_vals, s) := new_list [x0; x1] s in
  let '(fx_vals, s) := new_list [fx0; fx1] s in
  secant_plot_st_loop f err1 err2 epsilon (range_len 1 (nmax + 1))
    x0 x1 fx0 fx1 x_vals fx_vals s.
End StoreEngines.

(** ** The repaired [bisect_method]

    The spec's design notes ask for [fa = fc] where [bisect_method] writes
    [fa = c].  This is [bisect_method] with that one assignment changed, to
    be compared with the function as the source has it. *)
Section Repaired.
Context {R : Type}.
Variable zero : R.
Variables add sub : R -> R -> R.
Variable half : R -> R.
Variable abs : R -> R.
Variable ltb : R -> R -> bool.

Fixpoint bisect_loop_fixed (err1 epsilon : R) (f : R -> R) (n : nat)
    (a b fa fb e : R) (g : ghost R) : result R * ghost R :=
  match n with
  | O => (Return PyNone, leave Exhausted g)
  | S n =>
      let g := enter_pass g in
      let g := log_bracket a b g in
      let e := half e in
      let c := add a e in
      let fc := f c in
      let g := log_step e g in
      if ltb (abs e) err1 || ltb (abs fc) epsilon then
        (Return (RootFoundAt c fc), leave Converged g)
      else if negb (sign zero ltb fc =? sign zero ltb (f a))%Z then
        bisect_loop_fixed err1 epsilon f n a c fa fc e g
      else
        bisect_loop_fixed err1 epsilon f n c b fc fb e g
  end.

Definition bisect_method_fixed (a b : R) (M : Z) (err1 epsilon : R)
    (f : R -> R) : result R :=
  let fa := f a in
  let fb := f b in
  let e := sub b a in
  if (sign zero ltb fa =? sign zero ltb fb)%Z then Return SameSign
  else fst (bisect_loop_fixed err1 epsilon f (range_len 1 M) a b fa fb e ghost0).
End Repaired.

(** ** The driver ([main.py])

    The driver's numeric part: the convergence-rate estimator and, for each
    method, the block of [main] that calls the engine and reads the result
    back.  Printing and plotting are left out.  The literals [1e-10] and
    [1e-12] are the parameters [small] and [tol]; [math.log] is [log], with
    [None] for its [ValueError]; [of_nat] turns a [len] into a number. *)
Inductive exn : Type :=
  | EZeroDivision     (* ZeroDivisionError *)
  | EValue            (* ValueError of [math.log] *)
  | EIndex            (* IndexError of a subscript *)
  | EUnpack.          (* a value that does not unpack into the names given *)

Inductive outcome (A : Type) : Type :=
  | Ok (a : A)
  | Raise (e : exn).
Arguments Ok {A} a.
Arguments Raise {A} e.

(** What [calculate_convergence_rate] returns: the string or a number. *)
Inductive rate (R : Type) : Type :=
  | InsufficientData
  | Rate (p : R).
Arguments InsufficientData {R}.
Arguments Rate {R} p.

(** What a block of [main] prints about its method. *)
Inductive report (R : Type) : Type :=
  | NoBracket                                   (* "failed for all intervals" *)
  | Report (used : option (R * R)) (p : rate R) (iterations : nat)
      (root froot : R).
Arguments NoBracket {R}.
Arguments Report {R} used p iterations root froot.

(** [isinstance(v, str)]. *)
Definition isinstance_str {R} (v : value R) : bool :=
  match v with
  | SameSign | RootFoundAt _ _ | ZeroAt _ _ => true
  | PyNone | Seqs _ _ | SeqsWith _ _ _ => false
  end.

Definition of_result {R A} (r : result R) (k : value R -> outcome A)
  : outcome A :=
  match r with
  | Return v => k v
  | ZeroDivisionError => Raise EZeroDivision
  | IndexError => Raise EIndex
  end.

Section Driver.
Context {R : Type}.
Variables zero one : R.
Variables add sub mul : R -> R -> R.
Variable half : R -> R.
Variable div : R -> R -> option R.
Variable abs : R -> R.
Variable ltb : R -> R -> bool.
Variable eqb : R -> R -> bool.
Variable log : R -> option R.
Variable of_nat : nat -> R.
Variables small tol : R.

(** [math.log(e2) / math.log(e1) if e1 != 1 else 0]. *)
Definition rate_of_pair (p : R * R) : outcome R :=
  let '(e1, e2) := p in
  if negb (eqb e1 one) then
    match log e2 with
    | None => Raise EValue
    | Some l2 =>
        match log e1 with
        | None => Raise EValue
        | Some l1 =>
            match div l2 l1 with
            | None => Raise EZeroDivision
            | Some q => Ok q
            end
        end
    end
  else Ok zero.

(** A list comprehension whose element expression may raise. *)
Fixpoint comprehend {A B} (h : A -> outcome B) (l : list A) : outcome (list B) :=
  match l with
  | [] => Ok []
  | x :: l =>
      match h x with
      | Raise e => Raise e
      | Ok y =>
          match comprehend h l with
          | Raise e => Raise e
          | Ok ys => Ok (y :: ys)
          end
      end
  end.

(** [calculate_convergence_rate]. *)
Definition calculate_convergence_rate (x_vals : list R) : outcome (rate R) :=
  if (length x_vals <? 4)%nat then Ok InsufficientData
  else
    match from_end 0 x_vals with
    | None => Raise EIndex
    | Some x_star =>
        let errors :=
          map (fun x => abs (sub x x_star)) (take (length x_vals - 1) x_vals) in
        let filtered_errors :=
          List.filter (fun p : R * R => ltb small p.1 && ltb small p.2)
            (zip errors (drop 1 errors)) in
        if (length filtered_errors <? 3)%nat then Ok InsufficientData
        else
          match comprehend rate_of_pair filtered_errors with
          | Raise e => Raise e
          | Ok rates =>
              match rates with
              | [] => Ok InsufficientData
              | _ =>
                  let last3 := drop (length rates - 3) rates in
                  match div (foldl add zero last3) (of_nat (length last3)) with
                  | None => Raise EZeroDivision
                  | Some p => Ok (Rate p)
                  end
              end
          end
    end.

(** The two lists that [calculate_convergence_rate] builds on the way,
    under the names it gives them, for statements about its result. *)
Definition errors (x_vals : list R) (x_star : R) : list R :=
  map (fun x => abs (sub x x_star)) (take (length x_vals - 1) x_vals).

Definition filtered_errors (x_vals : list R) (x_star : R) : list (R * R) :=
  List.filter (fun p : R * R => ltb small p.1 && ltb small p.2)
    (zip (errors x_vals x_star) (drop 1 (errors x_vals x_star))).

(** The reading back that the three blocks share: the rate of [x_vals],
    then [len(x_vals)], [x_vals[-1]] and [fx_vals[-1]]. *)
Definition read_back (used : option (R * R)) (x_vals fx_vals : list R)
  : outcome (report R) :=
  match calculate_convergence_rate x_vals with
  | Raise e => Raise e
  | Ok p =>
      match from_end 0 x_vals, from_end 0 fx_vals with
      | Some root, Some froot => Ok (Report used p (length x_vals) root froot)
      | _, _ => Raise EIndex
      end
  end.

(** The loop over [intervals]: the first result that is not a [str]. *)
Fixpoint bisect_search (f : R -> R) (intervals : list (R * R))
  : outcome (option (value R * (R * R))) :=
  match intervals with
  | [] => Ok None
  | (a, b) :: intervals =>
      of_result (bisect_method_with_plot zero add sub half abs ltb a b 100 tol tol f)
        (fun bisect_results =>
           if negb (isinstance_str bisect_results) then
             Ok (Some (bisect_results, (a, b)))
           else bisect_search f intervals)
  end.

(** The bisection block of [main]. *)
Definition main_bisection (f : R -> R) (intervals : list (R * R))
  : outcome (report R) :=
  match bisect_search f intervals with
  | Raise e => Raise e
  | Ok None => Ok NoBracket
  | Ok (Some (best_bisect_result, used_interval)) =>
      match best_bisect_result with
      | Seqs bisect_x_vals bisect_fx_vals =>
          read_back (Some used_interval) bisect_x_vals bisect_fx_vals
      | _ => Raise EUnpack
      end
  end.

(** The Newton block of [main]; the animation variant is called for
    nothing but its exceptions. *)
Definition main_newton (f fprime : R -> R) (x0 : R) : outcome (report R) :=
  of_result (newton_method_with_plot sub div abs ltb f fprime x0 100 tol tol tol)
    (fun newton_results =>
       match newton_results with
       | Seqs newton_x_vals newton_fx_vals =>
           of_result (newton_animation sub div abs ltb f fprime x0 100 tol)
             (fun _ => read_back None newton_x_vals newton_fx_vals)
       | _ => Raise EUnpack
       end).

(** The secant block of [main]. *)
Definition main_secant (f : R -> R) (x0 x1 : R) : outcome (report R) :=
  of_result (secant_method_with_plot sub mul div abs ltb f x0 x1 100 tol tol tol)
    (fun secant_results =>
       match secant_results with
       | Seqs secant_x_vals secant_fx_vals =>
           of_result (secant_animation sub mul div abs ltb f x0 x1 100 tol)
             (fun _ => read_back None secant_x_vals secant_fx_vals)
       | _ => Raise EUnpack
       end).
End Driver.

(** ** Distances between rational midpoints

    [pow2 k] is [2^k]; the two predicates say where the midpoints of a
    bisection over the rationals lie. *)
Definition pow2 (k : nat) : Q := inject_Z (2 ^ Z.of_nat k).

(** Every entry lies in the first bracket. *)
Definition within (a0 b0 : Q) (xs : list Q) : Prop :=
  forall i c, xs !! i = Some c -> (a0 <= c)%Q /\ (c <= b0)%Q.

(** Neighbouring entries are the bracket's width over [2^(i+2)] apart. *)
Definition halving_distances (a0 b0 : Q) (xs : list Q) : Prop :=
  forall i c c', xs !! i = Some c -> xs !! S i = Some c' ->
    Qabs (c' - c) == (b0 - a0) / pow2 (S (S i)).

(** ** The animation manager ([Animation_Manager.py])

    Of [animate_bisection], [animate_newton] and [animate_secant], the two
    parts that are plain Python on numbers: the unpacking of the engine's
    result, the first statement of their [try], and the [update] closure
    that [FuncAnimation] calls with a frame number.  The figure, the curve
    of [f], the axis limits and the display belong to matplotlib and are
    not modelled, so nothing is said of a whole call of these functions
    beyond its first statement.  What [update] hands to the artists is kept
    as a record of the markers' coordinates; the drawn lines (the bracket
    apart) and the two texts repeat these numbers and are left out.  A
    frame in which [update] changes nothing is [None]. *)
Record bisect_marks (R : Type) : Type := BisectMarks {
  interval_line : option (R * R);
  bisect_point : R * R
}.
Arguments BisectMarks {R} interval_line bisect_point.

Record newton_marks (R : Type) : Type := NewtonMarks {
  newton_point : R * R;
  newton_next_point : R * R
}.
Arguments NewtonMarks {R} newton_point newton_next_point.

Record secant_marks (R : Type) : Type := SecantMarks {
  point1 : R * R;
  point2 : R * R;
  secant_next_point : R * R
}.
Arguments SecantMarks {R} point1 point2 secant_next_point.

(** [x_vals, fx_vals, third = result]: only a triple unpacks into three
    names. *)
Definition unpack3 {R} (r : result R)
  : outcome (list R * list R * list (list R)) :=
  match r with
  | Return (SeqsWith x_vals fx_vals third) => Ok (x_vals, fx_vals, third)
  | Return _ => Raise EUnpack
  | ZeroDivisionError => Raise EZeroDivision
  | IndexError => Raise EIndex
  end.

Section Manager.
Context {R : Type}.
Variable zero : R.
Variable sub : R -> R -> R.
Variable div : R -> R -> option R.
Variable abs : R -> R.
Variable ltb : R -> R -> bool.
Variable small : R.

(** [update] of [animate_bisection]. *)
Definition bisect_update (x_vals fx_vals : list R) (intervals : list (list R))
    (frame : nat) : outcome (option (bisect_marks R)) :=
  if (frame <? length x_vals)%nat then
    match
      (if (frame <? length intervals)%nat then
         match intervals !! frame with
         | Some [a_i; b_i] => Ok (Some (a_i, b_i))
         | Some _ => Raise EUnpack
         | None => Raise EIndex
         end
       else Ok None)
    with
    | Raise e => Raise e
    | Ok line =>
        match x_vals !! frame, fx_vals !! frame with
        | Some x, Some fx => Ok (Some (BisectMarks line (x, fx)))
        | _, _ => Raise EIndex
        end
    end
  else Ok None.

(** [update] of [animate_newton]; [next_x = x_i - fx_i / fp_i]. *)
Definition newton_update (tangents : list (list R)) (frame : nat)
  : outcome (option (newton_marks R)) :=
  if (frame <? length tangents)%nat then
    match tangents !! frame with
    | Some [x_i; fx_i; fp_i] =>
        match div fx_i fp_i with
        | None => Raise EZeroDivision
        | Some q =>
            let next_x := sub x_i q in
            Ok (Some (NewtonMarks (x_i, fx_i) (next_x, zero)))
        end
    | Some _ => Raise EUnpack
    | None => Raise EIndex
    end
  else Ok None.

(** [update] of [animate_secant]; [small] is the literal [1e-10]. *)
Definition secant_update (secants : list (list R)) (frame : nat)
  : outcome (option (secant_marks R)) :=
  if (frame <? length secants)%nat then
    match secants !! frame with
    | Some [x0_i; fx0_i; x1_i; fx1_i] =>
        match div (sub fx1_i fx0_i) (sub x1_i x0_i) with
        | None => Raise EZeroDivision
        | Some slope =>
            if ltb small (abs slope) then
              match div fx1_i slope with
              | None => Raise EZeroDivision
              | Some q =>
                  let next_x := sub x1_i q in
                  Ok (Some (SecantMarks (x0_i, fx0_i) (x1_i, fx1_i)
                              (next_x, zero)))
              end
            else
              let next_x := x1_i in
              Ok (Some (SecantMarks (x0_i, fx0_i) (x1_i, fx1_i) (next_x, zero)))
        end
    | Some _ => Raise EUnpack
    | None => Raise EIndex
    end
  else Ok None.

End Manager.

(** * Properties *)

Section Properties.
Context {R : Type}.
Variable zero : R.
Variables add sub mul : R -> R -> R.
Variable half : R -> R.
Variable div : R -> R -> option R.
Variable abs : R -> R.
Variable ltb : R -> R -> bool.
Variables (f fprime : R -> R) (err1 err2 epsilon : R).

Local Abbreviation sgn := (sign zero ltb).

(** ** Bisection *)
Local Abbreviation bplot_loop :=
  (bisect_plot_loop zero add half abs ltb err1 epsilon f).
Local Abbreviation bloop := (bisect_loop zero add half abs ltb err1 epsilon f).
Local Abbreviation banim_loop :=
  (bisect_anim_loop zero add half abs ltb epsilon f).

(** ** Newton and secant *)
Local Abbreviation nplot_loop :=
  (newton_plot_loop sub div abs ltb f fprime err1 err2 epsilon).
Local Abbreviation nloop := (newton_loop sub div abs ltb f fprime err1 err2 epsilon).
Local Abbreviation splot_loop :=
  (secant_plot_loop sub mul div abs ltb f err1 err2 epsilon).
Local Abbreviation sloop := (secant_loop sub mul div abs ltb f err1 err2 epsilon).
Local Abbreviation nanim_loop := (newton_anim_loop sub div abs ltb f fprime epsilon).
Local Abbreviation sanim_loop := (secant_anim_loop sub mul div abs ltb f epsilon).

(** ** Predicates the statements use *)

(** What a pass of the plotting loop preserves. *)
Definition plot_inv (x_vals fx_vals : list R) (g : ghost R) : Prop :=
  Forall (fun br => sgn (f br.1) <> sgn (f br.2)) (brackets g)
  /\ x_vals = zip_with (fun br e => add br.1 e) (brackets g) (steps g)
  /\ fx_vals = map f x_vals
  /\ length (brackets g) = passes g
  /\ length (steps g) = passes g
  /\ divs g = [].

(** The same for the loop of [bisect_animation], whose [intervals] are the
    brackets themselves. *)
Definition anim_inv (x_vals fx_vals : list R) (intervals : list (list R))
    (g : ghost R) : Prop :=
  Forall (fun br => sgn (f br.1) <> sgn (f br.2)) (brackets g)
  /\ intervals = map (fun br => [br.1; br.2]) (brackets g)
  /\ length x_vals = length (brackets g)
  /\ fx_vals = map f x_vals.

(** The last two entries of a list, read back by negative subscripts. *)
Definition ends_with (l : list R) (y x : R) : Prop := exists pre, l = pre ++ [y; x].

(** Ghost records only grow along a loop. *)
Definition ghost_extends (g g' : ghost R) : Prop :=
  passes g <= passes g'
  /\ steps g `prefix_of` steps g'
  /\ divs g `prefix_of` divs g'
  /\ brackets g `prefix_of` brackets g'.

(** The guard let this division through. *)
Definition guard_passed (nd : R * R) : Prop := ltb (abs nd.2) epsilon = false.

(** The convergence test of the Newton and secant loops succeeded on the
    last step and the last iterate. *)
Definition tolerance_met (xs : list R) (g : ghost R) : Prop :=
  exists x d, last xs = Some x /\ last (steps g) = Some d
    /\ ltb (abs d) err1 || ltb (abs (f x)) err2 = true.

(** What is known of a plotting run that had [N] indices to visit. *)
Definition plot_post (N : nat) (rg : result R * ghost R) : Prop :=
  passes rg.2 <= N
  /\ Forall guard_passed (divs rg.2)
  /\ (exit_by rg.2 = Exhausted -> passes rg.2 = N)
  /\ exit_by rg.2 <> NoSignChange
  /\ match rg.1 with
     | Return (Seqs xs fxs) =>
         fxs = map f xs
         /\ exit_by rg.2 <> Raised
         /\ (exit_by rg.2 = Converged -> tolerance_met xs rg.2)
     | ZeroDivisionError => exit_by rg.2 = Raised
     | _ => False
     end.

(** The non-plotting loops: the returned value against the way out. *)
Definition method_value_ok (rg : result R * ghost R) : Prop :=
  match rg.1 with
  | Return (ZeroAt _ _) => exit_by rg.2 = Converged
  | Return PyNone => exit_by rg.2 = Exhausted \/ exit_by rg.2 = SlopeGuard
  | ZeroDivisionError => exit_by rg.2 = Raised
  | _ => False
  end.

Definition method_post (rg : result R * ghost R) : Prop :=
  Forall guard_passed (divs rg.2) /\ method_value_ok rg.

(** The two tolerance tests, on the last iterate and the last step of a
    run, and the run-out of the iteration cap: the three ways out that the
    spec's termination property lists. *)
Definition value_tol_met (value_tol : R) (rg : result R * ghost R) : Prop :=
  exists xs fxs x,
    rg.1 = Return (Seqs xs fxs) /\ last xs = Some x
    /\ ltb (abs (f x)) value_tol = true.

Definition step_tol_met (step_tol : R) (rg : result R * ghost R) : Prop :=
  exists d, last (steps rg.2) = Some d /\ ltb (abs d) step_tol = true.

Definition stop_as_claimed (step_tol value_tol : R) (max_iter : Z)
    (rg : result R * ghost R) : Prop :=
  passes rg.2 <= Z.to_nat max_iter
  /\ (value_tol_met value_tol rg \/ step_tol_met step_tol rg
      \/ Z.of_nat (passes rg.2) = max_iter).

(** The ways out the code has, each with what holds when it is taken. *)
Definition bisect_exit_ok (a b : R) (M : Z) (rg : result R * ghost R) : Prop :=
  match exit_by rg.2 with
  | Converged => value_tol_met epsilon rg \/ step_tol_met err1 rg
  | Exhausted => passes rg.2 = Z.to_nat M
  | NoSignChange => sgn (f a) = sgn (f b) /\ passes rg.2 = 0
  | SlopeGuard | Raised => False
  end.

Definition newton_exit_ok (nmax : Z) (rg : result R * ghost R) : Prop :=
  match exit_by rg.2 with
  | Converged => value_tol_met err2 rg \/ step_tol_met err1 rg
  | Exhausted => passes rg.2 = Z.to_nat nmax
  | SlopeGuard =>
      exists xs fxs x,
        rg.1 = Return (Seqs xs fxs) /\ last xs = Some x
        /\ ltb (abs (fprime x)) epsilon = true
  | Raised =>
      rg.1 = ZeroDivisionError
      /\ exists n d, last (divs rg.2) = Some (n, d) /\ div n d = None
  | NoSignChange => False
  end.

Definition secant_exit_ok (nmax : Z) (rg : result R * ghost R) : Prop :=
  match exit_by rg.2 with
  | Converged => value_tol_met err2 rg \/ step_tol_met err1 rg
  | Exhausted => passes rg.2 = Z.to_nat nmax
  | SlopeGuard =>
      exists xs fxs pre x0 x1,
        rg.1 = Return (Seqs xs fxs) /\ xs = pre ++ [x0; x1]
        /\ ltb (abs (sub (f x1) (f x0))) epsilon = true
  | Raised =>
      rg.1 = ZeroDivisionError
      /\ exists n d, last (divs rg.2) = Some (n, d) /\ div n d = None
  | NoSignChange => False
  end.

(** The plotting functions: the returned value against the way out. *)
Definition plot_value_ok (rg : result R * ghost R) : Prop :=
  match rg.1 with
  | Return (Seqs _ _) =>
      exit_by rg.2 = Converged \/ exit_by rg.2 = Exhausted
      \/ exit_by rg.2 = SlopeGuard
  | ZeroDivisionError => exit_by rg.2 = Raised
  | _ => False
  end.

(** A returned pair of sequences lists function values of its iterates. *)
Definition consistent (r : result R) : Prop :=
  forall xs fxs,
    r = Return (Seqs xs fxs) ->
    length xs = length fxs
    /\ fxs = map f xs
    /\ (forall i x, xs !! i = Some x -> fxs !! i = Some (f x)).

(** The store [s'] keeps every object of [s] as it was. *)
Definition preserves (s s' : store R) : Prop :=
  forall l, l < length s -> s' !! l = s !! l.

(** The two lists of a running call: distinct objects with these contents. *)
Definition holds (s : store R) (lx lfx : loc) (xs fxs : list R) : Prop :=
  lx <> lfx /\ s !! lx = Some xs /\ s !! lfx = Some fxs.

(** [s'] differs from [s] at most at the two lists of the call. *)
Definition touches_only (lx lfx : loc) (s s' : store R) : Prop :=
  length s' = length s /\ forall l, l <> lx -> l <> lfx -> s' !! l = s !! l.

(** A store loop against the loop on values: same value behind the
    returned references, and only the call's two lists touched. *)
Definition refines (lx lfx : loc) (s : store R)
    (rs : ref_result * store R) (rg : result R * ghost R) : Prop :=
  read rs.2 rs.1 = Some rg.1 /\ touches_only lx lfx s rs.2.

(** A call whose result, read in the store it leaves, is [v] whatever the
    store it started from, and which leaves every earlier object alone. *)
Definition fresh_call (call : store R -> ref_result * store R)
    (v : result R) : Prop :=
  forall s, read (call s).2 (call s).1 = Some v /\ preserves s (call s).2.

(** Calling twice in a row, from any store: both results read as [v], the
    first still does after the second call, and what was in the store
    before is untouched. *)
Definition repeatable (call : store R -> ref_result * store R)
    (v : result R) : Prop :=
  forall s,
    let c1 := call s in
    let c2 := call c1.2 in
    read c1.2 c1.1 = Some v
    /\ read c2.2 c2.1 = Some v
    /\ read c2.2 c1.1 = Some v
    /\ preserves s c2.2.

(** A property of every two neighbours of a list, and of every two
    neighbours that have a further entry after them. *)
Definition chain (link : R -> R -> Prop) (xs : list R) : Prop :=
  forall i x x', xs !! i = Some x -> xs !! S i = Some x' -> link x x'.

Definition chain_inner (link : R -> R -> Prop) (xs : list R) : Prop :=
  forall i x x',
    xs !! i = Some x -> xs !! S i = Some x' -> is_Some (xs !! S (S i)) ->
    link x x'.

(** The same for every three neighbours. *)
Definition chain3 (link : R -> R -> R -> Prop) (xs : list R) : Prop :=
  forall i x x' x'',
    xs !! i = Some x -> xs !! S i = Some x' -> xs !! S (S i) = Some x'' ->
    link x x' x''.

Definition chain3_inner (link : R -> R -> R -> Prop) (xs : list R) : Prop :=
  forall i x x' x'',
    xs !! i = Some x -> xs !! S i = Some x' -> xs !! S (S i) = Some x'' ->
    is_Some (xs !! S (S (S i))) ->
    link x x' x''.

(** One Newton step from [x] to [x']: the guard let it through and
    [x' = x - f(x)/f'(x)]. *)
Definition newton_link (x x' : R) : Prop :=
  ltb (abs (fprime x)) epsilon = false
  /\ exists d, div (f x) (fprime x) = Some d /\ x' = sub x d.

(** A Newton step after which the loop went on: the test failed on it. *)
Definition newton_retry (x x' : R) : Prop :=
  exists d, div (f x) (fprime x) = Some d /\ x' = sub x d
    /\ ltb (abs d) err1 || ltb (abs (f x')) err2 = false.

(** One secant step from [x], [x'] to [x'']. *)
Definition secant_link (x x' x'' : R) : Prop :=
  ltb (abs (sub (f x') (f x))) epsilon = false
  /\ exists d,
       div (mul (f x') (sub x' x)) (sub (f x') (f x)) = Some d
       /\ x'' = sub x' d.

Definition secant_retry (x x' x'' : R) : Prop :=
  exists d,
    div (mul (f x') (sub x' x)) (sub (f x') (f x)) = Some d
    /\ x'' = sub x' d
    /\ ltb (abs d) err1 || ltb (abs (f x'')) err2 = false.

(** How [bisect_animation]'s lists hang together up to pass [i]: the
    midpoint is taken in the recorded bracket with the half-width of that
    pass, and the bracket recorded next replaces one endpoint by it. *)
Definition bisect_links (a0 b0 : R) (xs : list R) (ivs : list (list R)) : Prop :=
  forall i c, xs !! i = Some c ->
    exists ai bi,
      ivs !! i = Some [ai; bi]
      /\ c = add ai (Nat.iter (S i) half (sub b0 a0))
      /\ (forall iv', ivs !! S i = Some iv' ->
            iv' = if negb (sgn (f c) =? sgn (f ai))%Z then [ai; c] else [c; bi]).

(** Every bisection midpoint that has a successor failed both tests. *)
Definition bisect_retries (a0 b0 : R) (xs : list R) : Prop :=
  forall i c, xs !! i = Some c -> is_Some (xs !! S i) ->
    ltb (abs (Nat.iter (S i) half (sub b0 a0))) err1 || ltb (abs (f c)) epsilon
    = false.

(** What a plain variant says of a plotting run: the last iterate and its
    function value if the run converged, [None] if it ended otherwise, and
    whatever else the run returned or raised. *)
Definition last_report (mk : R -> R -> value R) (rg : result R * ghost R)
  : result R :=
  match rg.1 with
  | Return (Seqs xs fxs) =>
      match exit_by rg.2, last xs, last fxs with
      | Converged, Some x, Some fx => Return (mk x fx)
      | _, _, _ => Return PyNone
      end
  | r => r
  end.

(** An animation result without its third component. *)
Definition drop_detail (r : result R) : result R :=
  match r with
  | Return (SeqsWith xs fxs _) => Return (Seqs xs fxs)
  | r => r
  end.

(** The tuples that the animation variants record beside the iterates. *)
Definition tangents_of (xs : list R) (tangents : list (list R)) : Prop :=
  forall i t, tangents !! i = Some t ->
    exists x, xs !! i = Some x /\ t = [x; f x; fprime x].

Definition secants_of (xs : list R) (secants : list (list R)) : Prop :=
  forall i t, secants !! i = Some t ->
    exists x x', xs !! i = Some x /\ xs !! S i = Some x'
      /\ t = [x; f x; x'; f x'].

(** An animation run against the plotting run with the same arguments: the
    same sequences unless the plotting run stopped on its convergence test,
    which the animation variant does not have; then the plotted sequences
    begin the animated ones. *)
Definition extends_plot (rp : result R * ghost R) (ra : result R) : Prop :=
  match rp.1 with
  | Return (Seqs xs fxs) =>
      match exit_by rp.2 with
      | Converged =>
          forall xs' fxs' detail,
            ra = Return (SeqsWith xs' fxs' detail) ->
            xs `prefix_of` xs' /\ fxs `prefix_of` fxs'
      | _ => drop_detail ra = Return (Seqs xs fxs)
      end
  | r => ra = r
  end.

(** ** Lemmas and theorems *)

Lemma range_len_succ (M : Z) : (1 <= M)%Z -> range_len 1 (M + 1) = S (range_len 1 M).
Proof. unfold range_len. intros H. rewrite <- Z2Nat.inj_succ by lia. f_equal. lia. Qed.

Lemma range_len_plot (M : Z) : range_len 1 (M + 1) = Z.to_nat M.
Proof. unfold range_len. f_equal. lia. Qed.

(** *** Bisection: the bracket invariant *)

(** The bracket keeps its sign change across one replacement. *)
Lemma bracket_step (a b c : R) :
  sgn (f a) <> sgn (f b) ->
  (if negb (sgn (f c) =? sgn (f a))%Z
   then sgn (f a) <> sgn (f c)
   else sgn (f c) <> sgn (f b)).
Proof.
  intros Hab. destruct (Z.eqb_spec (sgn (f c)) (sgn (f a))) as [E|E]; simpl.
  - congruence.
  - congruence.
Qed.

Lemma plot_inv_ghost0 : plot_inv [] [] ghost0.
Proof. unfold plot_inv; cbn. repeat split; constructor. Qed.

Lemma bplot_loop_inv (n : nat) :
  forall a b fa fb e x_vals fx_vals g,
    sgn (f a) <> sgn (f b) ->
    plot_inv x_vals fx_vals g ->
    exists xs fxs g',
      bplot_loop n a b fa fb e x_vals fx_vals g = (Return (Seqs xs fxs), g')
      /\ plot_inv xs fxs g'.
Proof.
  induction n as [|n IH]; intros a b fa fb e x_vals fx_vals g Hab Hinv.
  - exists x_vals, fx_vals, (leave Exhausted g). split; [reflexivity|]. exact Hinv.
  - cbn [bisect_plot_loop].
    set (e' := half e). set (c := add a e').
    set (g1 := log_step e' (log_bracket a b (enter_pass g))).
    assert (Hinv1 : plot_inv (x_vals ++ [c]) (fx_vals ++ [f c]) g1).
    { destruct Hinv as (HF & Hx & Hfx & Hlb & Hls & Hd).
      unfold plot_inv, g1; cbn.
      repeat split.
      - apply Forall_app; split; [exact HF|]. constructor; [exact Hab|constructor].
      - rewrite zip_with_app by lia. cbn. now rewrite <- Hx.
      - rewrite map_app. cbn. now rewrite Hfx.
      - rewrite length_app; cbn; lia.
      - rewrite length_app; cbn; lia.
      - exact Hd. }
    destruct (ltb (abs e') err1 || ltb (abs (f c)) epsilon).
    + eexists _, _, _. split; [reflexivity|]. exact Hinv1.
    + pose proof (bracket_step a b c Hab) as Hs.
      destruct (negb (sgn (f c) =? sgn (f a))%Z).
      * apply IH; [exact Hs | exact Hinv1].
      * apply IH; [exact Hs | exact Hinv1].
Qed.

Lemma plot_inv_length xs fxs g : plot_inv xs fxs g -> length xs = passes g.
Proof.
  intros (_ & Hx & _ & Hlb & Hls & _). subst xs.
  rewrite length_zip_with. lia.
Qed.

Lemma plot_inv_lookup xs fxs g i c :
  plot_inv xs fxs g -> xs !! i = Some c ->
  exists ai bi ei,
    brackets g !! i = Some (ai, bi) /\ steps g !! i = Some ei
    /\ c = add ai ei /\ fxs !! i = Some (f c)
    /\ sgn (f ai) <> sgn (f bi).
Proof.
  intros (HF & Hx & Hfx & _) Hc.
  assert (Hfc : fxs !! i = Some (f c)).
  { subst fxs. rewrite list_lookup_fmap, Hc. reflexivity. }
  rewrite Hx in Hc. apply lookup_zip_with_Some in Hc.
  destruct Hc as ([ai bi] & ei & -> & Hb & He).
  exists ai, bi, ei. repeat split; try assumption.
  exact (proj1 (Forall_lookup _ _) HF i (ai, bi) Hb).
Qed.

Lemma banim_loop_inv (n : nat) :
  forall a b fa fb e x_vals fx_vals intervals g,
    sgn (f a) <> sgn (f b) ->
    anim_inv x_vals fx_vals intervals g ->
    exists xs fxs ivs g',
      banim_loop n a b fa fb e x_vals fx_vals intervals g
        = (Return (SeqsWith xs fxs ivs), g')
      /\ anim_inv xs fxs ivs g'.
Proof.
  induction n as [|n IH]; intros a b fa fb e x_vals fx_vals intervals g Hab Hinv.
  - eexists _, _, _, _. split; [reflexivity|]. exact Hinv.
  - cbn [bisect_anim_loop].
    set (e' := half e). set (c := add a e').
    set (g1 := log_step e' (log_bracket a b (enter_pass g))).
    assert (Hinv1 : anim_inv (x_vals ++ [c]) (fx_vals ++ [f c])
                      (intervals ++ [[a; b]]) g1).
    { destruct Hinv as (HF & Hiv & Hlen & Hfx).
      unfold anim_inv, g1; cbn.
      repeat split.
      - apply Forall_app; split; [exact HF|]. constructor; [exact Hab|constructor].
      - rewrite map_app, Hiv. reflexivity.
      - rewrite !length_app; cbn; lia.
      - rewrite map_app, Hfx. reflexivity. }
    destruct (ltb (abs e') epsilon || ltb (abs (f c)) epsilon).
    + eexists _, _, _, _. split; [reflexivity|]. exact Hinv1.
    + pose proof (bracket_step a b c Hab) as Hs.
      destruct (negb (sgn (f c) =? sgn (f a))%Z).
      * apply IH; [exact Hs | exact Hinv1].
      * apply IH; [exact Hs | exact Hinv1].
Qed.

Lemma anim_inv_intervals xs fxs ivs g :
  anim_inv xs fxs ivs g ->
  length ivs = length xs
  /\ Forall (fun iv => exists ai bi,
               iv = [ai; bi] /\ sgn (f ai) <> sgn (f bi)) ivs.
Proof.
  intros (HF & -> & Hlen & _). split; [rewrite length_map; lia|].
  apply Forall_fmap. eapply Forall_impl; [exact HF|].
  intros [ai bi] Hs. cbn. exists ai, bi. split; [reflexivity | exact Hs].
Qed.

(** C2. Whenever the endpoints' signs differ, [bisect_method_with_plot]
    returns its two sequences, and for every pass [i] the bracket
    [(a_i, b_i)] in force when the midpoint [c_i = a_i + e_i] was computed
    has [sign(f(a_i)) != sign(f(b_i))]; the last entry of [x_vals] (the
    root estimate the driver reads) is the midpoint taken in the last of
    these brackets.  The brackets that [bisect_animation] returns, one per
    midpoint, have the sign change too. *)
Theorem bisect_bracket_invariant (a b : R) (M : Z) :
  sign zero ltb (f a) <> sign zero ltb (f b) ->
  exists xs fxs g,
    bisect_plot_run zero add sub half abs ltb err1 epsilon f a b M
      = (Return (Seqs xs fxs), g)
    /\ length xs = passes g
    /\ length (brackets g) = passes g
    /\ Forall (fun br => sign zero ltb (f br.1) <> sign zero ltb (f br.2))
         (brackets g)
    /\ (forall i c, xs !! i = Some c ->
          exists ai bi ei,
            brackets g !! i = Some (ai, bi) /\ steps g !! i = Some ei
            /\ c = add ai ei /\ fxs !! i = Some (f c)
            /\ sign zero ltb (f ai) <> sign zero ltb (f bi))
    /\ (forall c, last xs = Some c ->
          exists ai bi ei,
            last (brackets g) = Some (ai, bi) /\ last (steps g) = Some ei
            /\ c = add ai ei /\ last fxs = Some (f c)
            /\ sign zero ltb (f ai) <> sign zero ltb (f bi))
    /\ exists xs' fxs' intervals,
         bisect_animation zero add sub half abs ltb a b M epsilon f
           = Return (SeqsWith xs' fxs' intervals)
         /\ length intervals = length xs'
         /\ Forall (fun iv => exists ai bi,
                      iv = [ai; bi]
                      /\ sign zero ltb (f ai) <> sign zero ltb (f bi))
              intervals.
Proof.
  intros Hab.
  assert (Hanim : exists xs' fxs' intervals,
            bisect_animation zero add sub half abs ltb a b M epsilon f
              = Return (SeqsWith xs' fxs' intervals)
            /\ length intervals = length xs'
            /\ Forall (fun iv => exists ai bi,
                         iv = [ai; bi] /\ sgn (f ai) <> sgn (f bi)) intervals).
  { unfold bisect_animation, bisect_anim_run.
    destruct (Z.eqb_spec (sgn (f a)) (sgn (f b))) as [E|_]; [contradiction|].
    destruct (banim_loop_inv (range_len 1 (M + 1)) a b (f a) (f b) (sub b a)
                [] [] [] ghost0 Hab) as (xs & fxs & ivs & g & Hrun & Hinv).
    { unfold anim_inv; cbn. repeat split; constructor. }
    exists xs, fxs, ivs. rewrite Hrun. split; [reflexivity|].
    apply (anim_inv_intervals _ _ _ _ Hinv). }
  unfold bisect_plot_run.
  destruct (Z.eqb_spec (sgn (f a)) (sgn (f b))) as [E|_]; [contradiction|].
  destruct (bplot_loop_inv (range_len 1 (M + 1)) a b (f a) (f b) (sub b a)
              [] [] ghost0 Hab plot_inv_ghost0) as (xs & fxs & g & Hrun & Hinv).
  exists xs, fxs, g. split; [exact Hrun|].
  pose proof (plot_inv_length _ _ _ Hinv) as Hlen.
  split; [exact Hlen|].
  split; [apply Hinv|].
  split; [apply Hinv|].
  split; [|split; [|exact Hanim]].
  - intros i c Hc. exact (plot_inv_lookup _ _ _ _ _ Hinv Hc).
  - intros c Hc. rewrite last_lookup in Hc.
    destruct (plot_inv_lookup _ _ _ _ _ Hinv Hc) as (ai & bi & ei & Hb & He & Hce & Hfc & Hs).
    destruct Hinv as (_ & _ & Hfx & Hlb & Hls & _).
    exists ai, bi, ei. rewrite !last_lookup.
    assert (length fxs = length xs) as -> by (subst fxs; apply length_map).
    rewrite Hlb, Hls, <- Hlen. auto.
Qed.

(** C3. With equal signs at the endpoints both bisection functions return
    "Same Sign" at once: the loop is not entered (no pass, no bracket, no
    half-width, hence no midpoint evaluated and nothing appended), and the
    value is neither a pair of sequences nor a root report. *)
Theorem bisect_same_sign_fails (a b : R) (M : Z) :
  sign zero ltb (f a) = sign zero ltb (f b) ->
  bisect_plot_run zero add sub half abs ltb err1 epsilon f a b M
    = (Return SameSign, Ghost NoSignChange 0 [] [] [])
  /\ bisect_method_run zero add sub half abs ltb err1 epsilon f a b M
    = (Return SameSign, Ghost NoSignChange 0 [] [] [])
  /\ bisect_method_with_plot zero add sub half abs ltb a b M err1 epsilon f
    = Return SameSign
  /\ bisect_method zero add sub half abs ltb a b M err1 epsilon f
    = Return SameSign
  /\ (forall xs fxs,
        bisect_method_with_plot zero add sub half abs ltb a b M err1 epsilon f
          <> Return (Seqs xs fxs))
  /\ (forall c fc,
        bisect_method zero add sub half abs ltb a b M err1 epsilon f
          <> Return (RootFoundAt c fc)).
Proof.
  intros E.
  unfold bisect_method_with_plot, bisect_method, bisect_plot_run, bisect_method_run.
  rewrite E, Z.eqb_refl. cbn. repeat split; congruence.
Qed.

(** *** Bisection: the first pass *)

Lemma ghost_extends_refl g : ghost_extends g g.
Proof. unfold ghost_extends. repeat split; reflexivity. Qed.

Lemma ghost_extends_trans g1 g2 g3 :
  ghost_extends g1 g2 -> ghost_extends g2 g3 -> ghost_extends g1 g3.
Proof.
  intros (H1 & H2 & H3 & H4) (K1 & K2 & K3 & K4).
  unfold ghost_extends. repeat split; try lia; etrans; eassumption.
Qed.

Lemma ghost_extends_leave x g : ghost_extends g (leave x g).
Proof. unfold ghost_extends; cbn. repeat split; reflexivity. Qed.

Lemma ghost_extends_pass g : ghost_extends g (enter_pass g).
Proof. unfold ghost_extends; cbn. repeat split; try reflexivity. lia. Qed.

Lemma ghost_extends_step d g : ghost_extends g (log_step d g).
Proof. unfold ghost_extends; cbn. repeat split; try reflexivity. apply prefix_app_r; reflexivity. Qed.

Lemma ghost_extends_div n d g : ghost_extends g (log_div n d g).
Proof. unfold ghost_extends; cbn. repeat split; try reflexivity. apply prefix_app_r; reflexivity. Qed.

Lemma ghost_extends_bracket a b g : ghost_extends g (log_bracket a b g).
Proof. unfold ghost_extends; cbn. repeat split; try reflexivity. apply prefix_app_r; reflexivity. Qed.

Lemma ghost_extends_bisect_pass a b e g :
  ghost_extends g (log_step e (log_bracket a b (enter_pass g))).
Proof.
  eapply ghost_extends_trans; [apply ghost_extends_pass|].
  eapply ghost_extends_trans; [apply ghost_extends_bracket|].
  apply ghost_extends_step.
Qed.

Lemma bplot_loop_extends (n : nat) :
  forall a b fa fb e x_vals fx_vals g r g',
    bplot_loop n a b fa fb e x_vals fx_vals g = (r, g') ->
    ghost_extends g g'
    /\ exists xs fxs, r = Return (Seqs xs fxs)
         /\ x_vals `prefix_of` xs /\ fx_vals `prefix_of` fxs.
Proof.
  induction n as [|n IH]; intros a b fa fb e x_vals fx_vals g r g'.
  - cbn. intros [= <- <-]. split; [apply ghost_extends_leave|].
    exists x_vals, fx_vals. repeat split; reflexivity.
  - cbn [bisect_plot_loop].
    set (e' := half e). set (c := add a e').
    set (g1 := log_step e' (log_bracket a b (enter_pass g))).
    assert (Hg1 : ghost_extends g g1) by apply ghost_extends_bisect_pass.
    assert (Hx : x_vals `prefix_of` x_vals ++ [c]) by (apply prefix_app_r; reflexivity).
    assert (Hfx : fx_vals `prefix_of` fx_vals ++ [f c]) by (apply prefix_app_r; reflexivity).
    destruct (ltb (abs e') err1 || ltb (abs (f c)) epsilon).
    + intros [= <- <-]. split; [exact Hg1|]. eexists _, _. split; [reflexivity|]. split; assumption.
    + intros Hrun.
      assert (ghost_extends g1 g'
              /\ exists xs fxs, r = Return (Seqs xs fxs)
                   /\ (x_vals ++ [c]) `prefix_of` xs
                   /\ (fx_vals ++ [f c]) `prefix_of` fxs) as (Hg & xs & fxs & -> & Hpx & Hpfx).
      { destruct (negb (sgn (f c) =? sgn (f a))%Z); eapply IH; exact Hrun. }
      split; [eapply ghost_extends_trans; eassumption|].
      exists xs, fxs. split; [reflexivity|]. split; etrans; eassumption.
Qed.

Lemma bloop_extends (n : nat) :
  forall a b fa fb e g r g',
    bloop n a b fa fb e g = (r, g') -> ghost_extends g g'.
Proof.
  induction n as [|n IH]; intros a b fa fb e g r g'.
  - cbn. intros [= <- <-]. apply ghost_extends_leave.
  - cbn [bisect_loop].
    set (e' := half e). set (c := add a e').
    set (g1 := log_step e' (log_bracket a b (enter_pass g))).
    assert (Hg1 : ghost_extends g g1) by apply ghost_extends_bisect_pass.
    destruct (ltb (abs e') err1 || ltb (abs (f c)) epsilon).
    + intros [= <- <-]. exact Hg1.
    + intros Hrun. eapply ghost_extends_trans; [exact Hg1|].
      destruct (negb (sgn (f c) =? sgn (f a))%Z); eapply IH; exact Hrun.
Qed.

Lemma prefix_cons_inv_nil {A} (x : A) (l : list A) :
  [x] `prefix_of` l -> exists k, l = x :: k.
Proof. intros [k ->]. exists k. reflexivity. Qed.

(** C6, as amended.  With a sign change at the endpoints and a cap that
    allows a pass ([1 <= M] for [bisect_method_with_plot], [2 <= M] for
    [bisect_method], whose loop is [range(1, M)]), the first midpoint
    [c = a + (b - a)/2] is taken whatever the endpoint values are: the
    returned sequences start with [c] and [f(c)], so they are not empty. *)
Theorem bisect_first_midpoint (a b : R) (M : Z) :
  sign zero ltb (f a) <> sign zero ltb (f b) ->
  let c := add a (half (sub b a)) in
  ((1 <= M)%Z ->
     exists xs fxs g,
       bisect_plot_run zero add sub half abs ltb err1 epsilon f a b M
         = (Return (Seqs (c :: xs) (f c :: fxs)), g)
       /\ bisect_method_with_plot zero add sub half abs ltb a b M err1 epsilon f
         = Return (Seqs (c :: xs) (f c :: fxs))
       /\ 1 <= passes g
       /\ (exists bs, brackets g = (a, b) :: bs)
       /\ (exists es, steps g = half (sub b a) :: es))
  /\ ((2 <= M)%Z ->
     exists r g,
       bisect_method_run zero add sub half abs ltb err1 epsilon f a b M = (r, g)
       /\ 1 <= passes g
       /\ (exists bs, brackets g = (a, b) :: bs)
       /\ (exists es, steps g = half (sub b a) :: es)).
Proof.
  intros Hab c.
  assert (Hne : (sgn (f a) =? sgn (f b))%Z = false) by (apply Z.eqb_neq; exact Hab).
  split; intros HM.
  - unfold bisect_method_with_plot, bisect_plot_run. rewrite Hne.
    rewrite range_len_succ by exact HM.
    cbn [bisect_plot_loop]. fold c.
    set (g1 := log_step (half (sub b a)) (log_bracket a b (enter_pass ghost0))).
    destruct (ltb (abs (half (sub b a))) err1 || ltb (abs (f c)) epsilon).
    + exists [], [], (leave Converged g1). cbn. repeat split; eauto.
    + match goal with
      | |- context [if ?t then ?x else ?y] =>
          assert (exists a' b' fa' fb',
                    (if t then x else y)
                    = bplot_loop (range_len 1 M) a' b' fa' fb' (half (sub b a))
                        ([] ++ [c]) ([] ++ [f c]) g1) as (a' & b' & fa' & fb' & ->)
            by (destruct t; eauto)
      end.
      destruct (bplot_loop _ _ _ _ _ _ _ _ _) as [r g'] eqn:Hrun.
      apply bplot_loop_extends in Hrun.
      destruct Hrun as ((Hp & Hs & _ & Hb) & xs & fxs & -> & Hx & Hfx).
      apply prefix_cons_inv_nil in Hx as [xs' ->].
      apply prefix_cons_inv_nil in Hfx as [fxs' ->].
      exists xs', fxs', g'. cbn in Hp, Hs, Hb |- *.
      repeat split; try lia.
      * apply prefix_cons_inv_nil in Hb. exact Hb.
      * apply prefix_cons_inv_nil in Hs. exact Hs.
  - unfold bisect_method_run. rewrite Hne.
    assert (range_len 1 M = S (range_len 1 (M - 1))) as ->.
    { replace M with ((M - 1) + 1)%Z at 1 by lia. apply range_len_succ. lia. }
    cbn [bisect_loop]. fold c.
    set (g1 := log_step (half (sub b a)) (log_bracket a b (enter_pass ghost0))).
    destruct (ltb (abs (half (sub b a))) err1 || ltb (abs (f c)) epsilon).
    + eexists _, _. split; [reflexivity|]. cbn. repeat split; eauto.
    + match goal with
      | |- context [if ?t then ?x else ?y] =>
          assert (exists a' b' fa' fb',
                    (if t then x else y)
                    = bloop (range_len 1 (M - 1)) a' b' fa' fb' (half (sub b a)) g1)
            as (a' & b' & fa' & fb' & ->)
            by (destruct t; eauto)
      end.
      destruct (bloop _ _ _ _ _ _ _) as [r g'] eqn:Hrun.
      apply bloop_extends in Hrun.
      destruct Hrun as (Hp & Hs & _ & Hb).
      exists r, g'. cbn in Hp, Hs, Hb |- *.
      repeat split; try lia.
      * apply prefix_cons_inv_nil in Hb. exact Hb.
      * apply prefix_cons_inv_nil in Hs. exact Hs.
Qed.

(** *** Bisection: the unused [fa] *)

(** The loop of [bisect_method] never reads [fa] or [fb]: whatever they
    hold, it behaves as the repaired loop does. *)
Lemma bloop_ignores_fa_fb (n : nat) :
  forall a b fa fb fa' fb' e g,
    bloop n a b fa fb e g
    = bisect_loop_fixed zero add half abs ltb err1 epsilon f n a b fa' fb' e g.
Proof.
  induction n as [|n IH]; intros a b fa fb fa' fb' e g; [reflexivity|].
  cbn [bisect_loop bisect_loop_fixed].
  destruct (ltb (abs (half e)) err1 || ltb (abs (f (add a (half e)))) epsilon);
    [reflexivity|].
  destruct (negb (sgn (f (add a (half e))) =? sgn (f a))%Z); apply IH.
Qed.

(** C9. [bisect_method] returns what the variant with [fa = fc] returns,
    on every input; indeed its loop gives the same result (and the same
    passes) from any two values of [fa]. *)
Theorem bisect_method_fa_unused (a b : R) (M : Z) :
  bisect_method zero add sub half abs ltb a b M err1 epsilon f
  = bisect_method_fixed zero add sub half abs ltb a b M err1 epsilon f
  /\ (forall n a' b' fa fa' fb e g,
        bisect_loop zero add half abs ltb err1 epsilon f n a' b' fa fb e g
        = bisect_loop zero add half abs ltb err1 epsilon f n a' b' fa' fb e g).
Proof.
  split.
  - unfold bisect_method, bisect_method_fixed, bisect_method_run.
    destruct (sgn (f a) =? sgn (f b))%Z; [reflexivity|].
    f_equal. apply bloop_ignores_fa_fb.
  - intros n a' b' fa fa' fb e g.
    rewrite (bloop_ignores_fa_fb n a' b' fa fb fa fb).
    rewrite (bloop_ignores_fa_fb n a' b' fa' fb fa fb). reflexivity.
Qed.

(** *** Newton and secant: guards, ways out, sequences *)

Lemma nplot_loop_post (n : nat) :
  forall x fx x_vals fx_vals g,
    fx_vals = map f x_vals ->
    Forall guard_passed (divs g) ->
    plot_post (passes g + n) (nplot_loop n x fx x_vals fx_vals g).
Proof.
  induction n as [|n IH]; intros x fx x_vals fx_vals g Hfx HF.
  - unfold plot_post; cbn. repeat split; try lia; try congruence; assumption.
  - cbn [newton_plot_loop].
    destruct (ltb (abs (fprime x)) epsilon) eqn:Hguard.
    + unfold plot_post; cbn. repeat split; try lia; try congruence; assumption.
    + assert (HF' : Forall guard_passed (divs (log_div fx (fprime x) (enter_pass g)))).
      { cbn. apply Forall_app; split; [exact HF|].
        constructor; [exact Hguard|constructor]. }
      destruct (div fx (fprime x)) as [d|].
      * set (x' := sub x d).
        destruct (ltb (abs d) err1 || ltb (abs (f x')) err2) eqn:Htest.
        -- unfold plot_post; cbn. repeat split; try lia; try congruence.
           ++ exact HF'.
           ++ rewrite map_app, Hfx. reflexivity.
           ++ intros _. exists x', d. split; [apply last_snoc|].
              split; [cbn; apply last_snoc | exact Htest].
        -- replace (passes g + S n) with
             (passes (log_step d (log_div fx (fprime x) (enter_pass g))) + n)
             by (cbn; lia).
           apply IH; [rewrite map_app, Hfx; reflexivity | exact HF'].
      * unfold plot_post; cbn. repeat split; try lia; try congruence. exact HF'.
Qed.

Lemma splot_loop_post (n : nat) :
  forall x0 x1 fx0 fx1 x_vals fx_vals g,
    fx_vals = map f x_vals ->
    Forall guard_passed (divs g) ->
    plot_post (passes g + n) (splot_loop n x0 x1 fx0 fx1 x_vals fx_vals g).
Proof.
  induction n as [|n IH]; intros x0 x1 fx0 fx1 x_vals fx_vals g Hfx HF.
  - unfold plot_post; cbn. repeat split; try lia; try congruence; assumption.
  - cbn [secant_plot_loop].
    destruct (ltb (abs (sub fx1 fx0)) epsilon) eqn:Hguard.
    + unfold plot_post; cbn. repeat split; try lia; try congruence; assumption.
    + set (num := mul fx1 (sub x1 x0)). set (den := sub fx1 fx0).
      assert (HF' : Forall guard_passed (divs (log_div num den (enter_pass g)))).
      { cbn. apply Forall_app; split; [exact HF|].
        constructor; [exact Hguard|constructor]. }
      destruct (div num den) as [d|].
      * set (x' := sub x1 d).
        destruct (ltb (abs d) err1 || ltb (abs (f x')) err2) eqn:Htest.
        -- unfold plot_post; cbn. repeat split; try lia; try congruence.
           ++ exact HF'.
           ++ rewrite map_app, Hfx. reflexivity.
           ++ intros _. exists x', d. split; [apply last_snoc|].
              split; [cbn; apply last_snoc | exact Htest].
        -- replace (passes g + S n) with
             (passes (log_step d (log_div num den (enter_pass g))) + n)
             by (cbn; lia).
           apply IH; [rewrite map_app, Hfx; reflexivity | exact HF'].
      * unfold plot_post; cbn. repeat split; try lia; try congruence. exact HF'.
Qed.

Lemma nloop_post (n : nat) :
  forall x fx g, Forall guard_passed (divs g) -> method_post (nloop n x fx g).
Proof.
  induction n as [|n IH]; intros x fx g HF.
  - unfold method_post, method_value_ok; cbn. auto.
  - cbn [newton_loop].
    destruct (ltb (abs (fprime x)) epsilon) eqn:Hguard.
    + unfold method_post, method_value_ok; cbn. auto.
    + assert (HF' : Forall guard_passed (divs (log_div fx (fprime x) (enter_pass g)))).
      { cbn. apply Forall_app; split; [exact HF|].
        constructor; [exact Hguard|constructor]. }
      destruct (div fx (fprime x)) as [d|].
      * destruct (ltb (abs d) err1 || ltb (abs (f (sub x d))) err2).
        -- unfold method_post, method_value_ok; cbn. auto.
        -- apply IH. exact HF'.
      * unfold method_post, method_value_ok; cbn. auto.
Qed.

Lemma sloop_post (n : nat) :
  forall x0 x1 fx0 fx1 g,
    Forall guard_passed (divs g) -> method_post (sloop n x0 x1 fx0 fx1 g).
Proof.
  induction n as [|n IH]; intros x0 x1 fx0 fx1 g HF.
  - unfold method_post, method_value_ok; cbn. auto.
  - cbn [secant_loop].
    destruct (ltb (abs (sub fx1 fx0)) epsilon) eqn:Hguard.
    + unfold method_post, method_value_ok; cbn. auto.
    + set (num := mul fx1 (sub x1 x0)). set (den := sub fx1 fx0).
      assert (HF' : Forall guard_passed (divs (log_div num den (enter_pass g)))).
      { cbn. apply Forall_app; split; [exact HF|].
        constructor; [exact Hguard|constructor]. }
      destruct (div num den) as [d|].
      * destruct (ltb (abs d) err1 || ltb (abs (f (sub x1 d))) err2).
        -- unfold method_post, method_value_ok; cbn. auto.
        -- apply IH. exact HF'.
      * unfold method_post, method_value_ok; cbn. auto.
Qed.

Lemma tolerance_met_split xs fxs g :
  tolerance_met xs g ->
  value_tol_met err2 (Return (Seqs xs fxs), g)
  \/ step_tol_met err1 (Return (Seqs xs fxs), g).
Proof.
  intros (x & d & Hx & Hd & Ht). apply orb_true_iff in Ht as [Ht|Ht].
  - right. exists d. auto.
  - left. exists xs, fxs, x. auto.
Qed.

Lemma bplot_loop_exit (n : nat) :
  forall a b fa fb e x_vals fx_vals g,
    let rg := bplot_loop n a b fa fb e x_vals fx_vals g in
    passes rg.2 <= passes g + n
    /\ match exit_by rg.2 with
       | Converged => value_tol_met epsilon rg \/ step_tol_met err1 rg
       | Exhausted => passes rg.2 = passes g + n
       | _ => False
       end.
Proof.
  induction n as [|n IH]; intros a b fa fb e x_vals fx_vals g.
  - cbn. lia.
  - cbn zeta. cbn [bisect_plot_loop].
    set (e' := half e). set (c := add a e').
    set (g1 := log_step e' (log_bracket a b (enter_pass g))).
    destruct (ltb (abs e') err1 || ltb (abs (f c)) epsilon) eqn:Htest.
    + cbn. split; [lia|].
      apply orb_true_iff in Htest as [Ht|Ht].
      * right. exists e'. cbn. split; [apply last_snoc | exact Ht].
      * left. eexists _, _, c. cbn. split; [reflexivity|].
        split; [apply last_snoc | exact Ht].
    + replace (passes g + S n) with (passes g1 + n) by (cbn; lia).
      destruct (negb (sgn (f c) =? sgn (f a))%Z); apply IH.
Qed.

Lemma nplot_loop_guard (n : nat) :
  forall x fx x_vals fx_vals g,
    last x_vals = Some x ->
    let rg := nplot_loop n x fx x_vals fx_vals g in
    match exit_by rg.2 with
    | SlopeGuard =>
        exists xs fxs x',
          rg.1 = Return (Seqs xs fxs) /\ last xs = Some x'
          /\ ltb (abs (fprime x')) epsilon = true
    | Raised => exists nu de, last (divs rg.2) = Some (nu, de) /\ div nu de = None
    | _ => True
    end.
Proof.
  induction n as [|n IH]; intros x fx x_vals fx_vals g Hlast; [exact I|].
  cbn zeta. cbn [newton_plot_loop].
  destruct (ltb (abs (fprime x)) epsilon) eqn:Hguard.
  - cbn. eexists _, _, x. auto.
  - destruct (div fx (fprime x)) as [d|] eqn:Hdiv.
    + destruct (ltb (abs d) err1 || ltb (abs (f (sub x d))) err2); [exact I|].
      apply IH. apply last_snoc.
    + cbn. exists fx, (fprime x). split; [apply last_snoc | exact Hdiv].
Qed.

Lemma splot_loop_guard (n : nat) :
  forall x0 x1 fx0 fx1 pre fx_vals g,
    fx0 = f x0 -> fx1 = f x1 ->
    let rg := splot_loop n x0 x1 fx0 fx1 (pre ++ [x0; x1]) fx_vals g in
    match exit_by rg.2 with
    | SlopeGuard =>
        exists xs fxs pre' x0' x1',
          rg.1 = Return (Seqs xs fxs) /\ xs = pre' ++ [x0'; x1']
          /\ ltb (abs (sub (f x1') (f x0'))) epsilon = true
    | Raised => exists nu de, last (divs rg.2) = Some (nu, de) /\ div nu de = None
    | _ => True
    end.
Proof.
  induction n as [|n IH]; intros x0 x1 fx0 fx1 pre fx_vals g -> ->; [exact I|].
  cbn zeta. cbn [secant_plot_loop].
  destruct (ltb (abs (sub (f x1) (f x0))) epsilon) eqn:Hguard.
  - cbn. eexists _, _, pre, x0, x1. auto.
  - destruct (div (mul (f x1) (sub x1 x0)) (sub (f x1) (f x0))) as [d|] eqn:Hdiv.
    + destruct (ltb (abs d) err1 || ltb (abs (f (sub x1 d))) err2); [exact I|].
      replace ((pre ++ [x0; x1]) ++ [sub x1 d])
        with ((pre ++ [x0]) ++ [x1; sub x1 d])
        by (rewrite <- !app_assoc; reflexivity).
      apply IH; reflexivity.
    + cbn. eexists _, _. split; [apply last_snoc | exact Hdiv].
Qed.

Lemma plot_post_value_ok N rg : plot_post N rg -> plot_value_ok rg.
Proof.
  unfold plot_post, plot_value_ok. intros (_ & _ & _ & Hns & Hm).
  destruct rg as [[[| | | |xs fxs|]| |] g]; cbn in *; try contradiction; auto.
  destruct Hm as (_ & Hdf & _). destruct (exit_by g); auto; contradiction.
Qed.

Lemma newton_plot_run_post x0 nmax :
  plot_post (Z.to_nat nmax)
    (newton_plot_run sub div abs ltb f fprime err1 err2 epsilon x0 nmax).
Proof.
  unfold newton_plot_run. rewrite range_len_plot.
  apply (nplot_loop_post (Z.to_nat nmax) x0 (f x0) [x0] [f x0] ghost0);
    [reflexivity | constructor].
Qed.

Lemma secant_plot_run_post x0 x1 nmax :
  plot_post (Z.to_nat nmax)
    (secant_plot_run sub mul div abs ltb f err1 err2 epsilon x0 x1 nmax).
Proof.
  unfold secant_plot_run. rewrite range_len_plot.
  apply (splot_loop_post (Z.to_nat nmax) x0 x1 (f x0) (f x1) [x0; x1]
           [f x0; f x1] ghost0); [reflexivity | constructor].
Qed.

Lemma nanim_loop_guard (n : nat) :
  forall x x_vals fx_vals tangents g,
    Forall guard_passed (divs g) ->
    Forall guard_passed (divs (nanim_loop n x x_vals fx_vals tangents g).2).
Proof.
  induction n as [|n IH]; intros x x_vals fx_vals tangents g HF; [exact HF|].
  cbn [newton_anim_loop].
  destruct (ltb (abs (fprime x)) epsilon) eqn:Hguard; [exact HF|].
  assert (HF' : Forall guard_passed (divs (log_div (f x) (fprime x) (enter_pass g)))).
  { cbn. apply Forall_app; split; [exact HF|].
    constructor; [exact Hguard|constructor]. }
  destruct (div (f x) (fprime x)) as [d|]; [|exact HF'].
  apply IH. exact HF'.
Qed.

Lemma ends_with_from_end (l : list R) y x :
  ends_with l y x -> from_end 0 l = Some x /\ from_end 1 l = Some y.
Proof.
  intros [pre ->]. unfold from_end.
  rewrite rev_app_distr. cbn. split; reflexivity.
Qed.

Lemma ends_with_snoc (l : list R) y x z :
  ends_with l y x -> ends_with (l ++ [z]) x z.
Proof.
  intros [pre ->]. exists (pre ++ [y]). rewrite <- !app_assoc. reflexivity.
Qed.

(** The lists of [secant_animation] always hold two entries or more, so
    its subscripts never raise; and its divisions are guarded. *)
Lemma sanim_loop_ok (n : nat) :
  forall x_vals fx_vals secants g y x fy fx,
    ends_with x_vals y x -> ends_with fx_vals fy fx ->
    Forall guard_passed (divs g) ->
    Forall guard_passed (divs (sanim_loop n x_vals fx_vals secants g).2)
    /\ (sanim_loop n x_vals fx_vals secants g).1 <> IndexError.
Proof.
  induction n as [|n IH]; intros x_vals fx_vals secants g y x fy fx Hx Hfx HF.
  - split; [exact HF | discriminate].
  - cbn [secant_anim_loop].
    destruct (ends_with_from_end _ _ _ Hx) as [-> ->].
    destruct (ends_with_from_end _ _ _ Hfx) as [-> ->].
    destruct (ltb (abs (sub fx fy)) epsilon) eqn:Hguard;
      [split; [exact HF | discriminate]|].
    set (num := mul fx (sub x y)). set (den := sub fx fy).
    assert (HF' : Forall guard_passed (divs (log_div num den (enter_pass g)))).
    { cbn. apply Forall_app; split; [exact HF|].
      constructor; [exact Hguard|constructor]. }
    destruct (div num den) as [d|]; [|split; [exact HF' | discriminate]].
    eapply IH; [eapply ends_with_snoc; exact Hx
               |eapply ends_with_snoc; exact Hfx | exact HF'].
Qed.

(** C1, amended. Every [/] that a Newton or secant run evaluates (in the
    plain, the plotting and the animation variant) has a denominator on
    which the guard [abs(denominator) < epsilon] was tested and found false
    just before, and a pass that finds the guard true leaves the loop at
    once, with no division added to those already made.  Where the order
    on the numbers is total (a false [x < y] gives [y <= x], as for
    rationals and reals) every such denominator has
    [epsilon <= |denominator|]. *)
Theorem slope_guard_before_division :
  (forall x0 nmax,
     Forall guard_passed
       (divs (newton_plot_run sub div abs ltb f fprime err1 err2 epsilon x0 nmax).2)
     /\ Forall guard_passed
       (divs (newton_method_run sub div abs ltb f fprime err1 err2 epsilon x0 nmax).2)
     /\ Forall guard_passed
       (divs (newton_anim_run sub div abs ltb f fprime epsilon x0 nmax).2))
  /\ (forall x0 x1 nmax,
     Forall guard_passed
       (divs (secant_plot_run sub mul div abs ltb f err1 err2 epsilon x0 x1 nmax).2)
     /\ Forall guard_passed
       (divs (secant_method_run sub mul div abs ltb f err1 err2 epsilon x0 x1 nmax).2)
     /\ Forall guard_passed
       (divs (secant_anim_run sub mul div abs ltb f epsilon x0 x1 nmax).2))
  /\ (forall n x fx x_vals fx_vals g,
        ltb (abs (fprime x)) epsilon = true ->
        newton_plot_loop sub div abs ltb f fprime err1 err2 epsilon
          (S n) x fx x_vals fx_vals g
        = (Return (Seqs x_vals fx_vals), leave SlopeGuard (enter_pass g))
        /\ newton_loop sub div abs ltb f fprime err1 err2 epsilon (S n) x fx g
        = (Return PyNone, leave SlopeGuard (enter_pass g))
        /\ (forall tangents,
              newton_anim_loop sub div abs ltb f fprime epsilon
                (S n) x x_vals fx_vals tangents g
              = (Return (SeqsWith x_vals fx_vals tangents),
                 leave SlopeGuard (enter_pass g))))
  /\ (forall n x0 x1 fx0 fx1 x_vals fx_vals g,
        ltb (abs (sub fx1 fx0)) epsilon = true ->
        secant_plot_loop sub mul div abs ltb f err1 err2 epsilon
          (S n) x0 x1 fx0 fx1 x_vals fx_vals g
        = (Return (Seqs x_vals fx_vals), leave SlopeGuard (enter_pass g))
        /\ secant_loop sub mul div abs ltb f err1 err2 epsilon
          (S n) x0 x1 fx0 fx1 g
        = (Return PyNone, leave SlopeGuard (enter_pass g))
        /\ (forall pre fpre secants,
              secant_anim_loop sub mul div abs ltb f epsilon (S n)
                (pre ++ [x0; x1]) (fpre ++ [fx0; fx1]) secants g
              = (Return (SeqsWith (pre ++ [x0; x1]) (fpre ++ [fx0; fx1]) secants),
                 leave SlopeGuard (enter_pass g))))
  /\ (forall leb : R -> R -> bool,
        (forall x y, ltb x y = false -> leb y x = true) ->
        let above := fun nd : R * R => leb epsilon (abs nd.2) = true in
        (forall x0 nmax,
           Forall above
             (divs (newton_plot_run sub div abs ltb f fprime err1 err2 epsilon
                      x0 nmax).2)
           /\ Forall above
             (divs (newton_method_run sub div abs ltb f fprime err1 err2 epsilon
                      x0 nmax).2)
           /\ Forall above
             (divs (newton_anim_run sub div abs ltb f fprime epsilon x0 nmax).2))
        /\ (forall x0 x1 nmax,
           Forall above
             (divs (secant_plot_run sub mul div abs ltb f err1 err2 epsilon
                      x0 x1 nmax).2)
           /\ Forall above
             (divs (secant_method_run sub mul div abs ltb f err1 err2 epsilon
                      x0 x1 nmax).2)
           /\ Forall above
             (divs (secant_anim_run sub mul div abs ltb f epsilon x0 x1 nmax).2))).
Proof.
  assert (HN : forall x0 nmax,
     Forall guard_passed
       (divs (newton_plot_run sub div abs ltb f fprime err1 err2 epsilon x0 nmax).2)
     /\ Forall guard_passed
       (divs (newton_method_run sub div abs ltb f fprime err1 err2 epsilon x0 nmax).2)
     /\ Forall guard_passed
       (divs (newton_anim_run sub div abs ltb f fprime epsilon x0 nmax).2)).
  { intros x0 nmax. split; [|split].
    - apply (newton_plot_run_post x0 nmax).
    - apply (nloop_post (range_len 1 nmax) x0 (f x0) ghost0). constructor.
    - apply (nanim_loop_guard (range_len 0 nmax) x0 [x0] [f x0] [] ghost0).
      constructor. }
  assert (HS : forall x0 x1 nmax,
     Forall guard_passed
       (divs (secant_plot_run sub mul div abs ltb f err1 err2 epsilon x0 x1 nmax).2)
     /\ Forall guard_passed
       (divs (secant_method_run sub mul div abs ltb f err1 err2 epsilon x0 x1 nmax).2)
     /\ Forall guard_passed
       (divs (secant_anim_run sub mul div abs ltb f epsilon x0 x1 nmax).2)).
  { intros x0 x1 nmax. split; [|split].
    - apply (secant_plot_run_post x0 x1 nmax).
    - apply (sloop_post (range_len 1 nmax) x0 x1 (f x0) (f x1) ghost0). constructor.
    - apply (sanim_loop_ok (range_len 0 nmax) [x0; x1] [f x0; f x1] [] ghost0
               x0 x1 (f x0) (f x1)); [exists []; reflexivity ..| constructor]. }
  split; [exact HN|]. split; [exact HS|]. split; [|split].
  - intros n x fx x_vals fx_vals g Hguard.
    cbn [newton_plot_loop newton_loop newton_anim_loop].
    rewrite Hguard. repeat split; reflexivity.
  - intros n x0 x1 fx0 fx1 x_vals fx_vals g Hguard.
    cbn [secant_plot_loop secant_loop]. rewrite Hguard.
    split; [reflexivity|]. split; [reflexivity|].
    intros pre fpre secants. cbn [secant_anim_loop].
    destruct (ends_with_from_end (pre ++ [x0; x1]) x0 x1) as [-> ->];
      [exists pre; reflexivity|].
    destruct (ends_with_from_end (fpre ++ [fx0; fx1]) fx0 fx1) as [-> ->];
      [exists fpre; reflexivity|].
    rewrite Hguard. reflexivity.
  - intros leb Htotal above.
    assert (Hup : forall l, Forall guard_passed l -> Forall above l).
    { intros l HF. eapply Forall_impl; [exact HF|].
      intros [nu de] Hg. apply Htotal. exact Hg. }
    split.
    + intros x0 nmax. destruct (HN x0 nmax) as (H1 & H2 & H3).
      split; [|split]; apply Hup; assumption.
    + intros x0 x1 nmax. destruct (HS x0 x1 nmax) as (H1 & H2 & H3).
      split; [|split]; apply Hup; assumption.
Qed.

(** Where [/] is defined on every denominator the guard lets through (as
    it is for a positive [epsilon] over the rationals), no plotting run
    raises. *)
Lemma guarded_division_no_fault (x0 : R) (nmax : Z) (s0 s1 : R) (smax : Z) :
  (forall nu de, ltb (abs de) epsilon = false -> div nu de <> None) ->
  exit_by (newton_plot_run sub div abs ltb f fprime err1 err2 epsilon x0 nmax).2
    <> Raised
  /\ exit_by (secant_plot_run sub mul div abs ltb f err1 err2 epsilon s0 s1 smax).2
    <> Raised.
Proof.
  intros Hdef. split; intros He.
  - pose proof (newton_plot_run_post x0 nmax) as (_ & HF & _).
    pose proof (nplot_loop_guard (range_len 1 (nmax + 1)) x0 (f x0) [x0] [f x0]
                  ghost0 eq_refl) as Hg.
    cbn zeta in Hg.
    fold (newton_plot_run sub div abs ltb f fprime err1 err2 epsilon x0 nmax) in Hg.
    rewrite He in Hg. destruct Hg as (nu & de & Hl & Hd).
    rewrite last_lookup in Hl.
    apply (Hdef nu de); [|exact Hd].
    exact (proj1 (Forall_lookup _ _) HF _ _ Hl).
  - pose proof (secant_plot_run_post s0 s1 smax) as (_ & HF & _).
    pose proof (splot_loop_guard (range_len 1 (smax + 1)) s0 s1 (f s0) (f s1) []
                  [f s0; f s1] ghost0 eq_refl eq_refl) as Hg.
    cbn zeta in Hg. cbn [app] in Hg.
    fold (secant_plot_run sub mul div abs ltb f err1 err2 epsilon s0 s1 smax) in Hg.
    rewrite He in Hg. destruct Hg as (nu & de & Hl & Hd).
    rewrite last_lookup in Hl.
    apply (Hdef nu de); [|exact Hd].
    exact (proj1 (Forall_lookup _ _) HF _ _ Hl).
Qed.

(** The plain variants loop over [range(1, nmax)]: one index fewer than the
    plotting ones. *)
Lemma bloop_passes (n : nat) :
  forall a b fa fb e g, passes (bloop n a b fa fb e g).2 <= passes g + n.
Proof.
  induction n as [|n IH]; intros a b fa fb e g; [cbn; lia|].
  cbn [bisect_loop].
  destruct (ltb (abs (half e)) err1 || ltb (abs (f (add a (half e)))) epsilon);
    [cbn; lia|].
  destruct (negb (sgn (f (add a (half e))) =? sgn (f a))%Z);
    (etrans; [apply IH | cbn; lia]).
Qed.

Lemma nloop_passes (n : nat) :
  forall x fx g, passes (nloop n x fx g).2 <= passes g + n.
Proof.
  induction n as [|n IH]; intros x fx g; [cbn; lia|].
  cbn [newton_loop].
  destruct (ltb (abs (fprime x)) epsilon); [cbn; lia|].
  destruct (div fx (fprime x)) as [d|]; [|cbn; lia].
  destruct (ltb (abs d) err1 || ltb (abs (f (sub x d))) err2); [cbn; lia|].
  etrans; [apply IH | cbn; lia].
Qed.

Lemma sloop_passes (n : nat) :
  forall x0 x1 fx0 fx1 g, passes (sloop n x0 x1 fx0 fx1 g).2 <= passes g + n.
Proof.
  induction n as [|n IH]; intros x0 x1 fx0 fx1 g; [cbn; lia|].
  cbn [secant_loop].
  destruct (ltb (abs (sub fx1 fx0)) epsilon); [cbn; lia|].
  destruct (div (mul fx1 (sub x1 x0)) (sub fx1 fx0)) as [d|]; [|cbn; lia].
  destruct (ltb (abs d) err1 || ltb (abs (f (sub x1 d))) err2); [cbn; lia|].
  etrans; [apply IH | cbn; lia].
Qed.

Lemma plain_variants_passes (a b : R) (M : Z) (x0 : R) (nmax : Z)
    (s0 s1 : R) (smax : Z) :
  passes (bisect_method_run zero add sub half abs ltb err1 epsilon f a b M).2
    <= Z.to_nat (M - 1)
  /\ passes (newton_method_run sub div abs ltb f fprime err1 err2 epsilon x0 nmax).2
    <= Z.to_nat (nmax - 1)
  /\ passes (secant_method_run sub mul div abs ltb f err1 err2 epsilon s0 s1 smax).2
    <= Z.to_nat (smax - 1).
Proof.
  split; [|split].
  - unfold bisect_method_run.
    destruct (sgn (f a) =? sgn (f b))%Z; [cbn; lia|].
    apply (bloop_passes (range_len 1 M) a b (f a) (f b) (sub b a) ghost0).
  - apply (nloop_passes (range_len 1 nmax) x0 (f x0) ghost0).
  - apply (sloop_passes (range_len 1 smax) s0 s1 (f s0) (f s1) ghost0).
Qed.

(** C4, as amended.  Each plotting engine enters its loop body at most
    [max(max_iter, 0)] times, and leaves in one of the ways the code has:
    a tolerance test passed on the last iterate or step; the indices ran
    out, after exactly [max(max_iter, 0)] passes; the slope guard fired
    (Newton, secant) or the bracket had no sign change (bisection); or a
    division raised. *)
Theorem engines_stop_by_design (a b : R) (M : Z) (x0 : R) (nmax : Z)
    (s0 s1 : R) (smax : Z) :
  let rb := bisect_plot_run zero add sub half abs ltb err1 epsilon f a b M in
  let rn := newton_plot_run sub div abs ltb f fprime err1 err2 epsilon x0 nmax in
  let rs := secant_plot_run sub mul div abs ltb f err1 err2 epsilon s0 s1 smax in
  (passes rb.2 <= Z.to_nat M /\ bisect_exit_ok a b M rb)
  /\ (passes rn.2 <= Z.to_nat nmax /\ newton_exit_ok nmax rn)
  /\ (passes rs.2 <= Z.to_nat smax /\ secant_exit_ok smax rs).
Proof.
  cbn zeta. split; [|split].
  - unfold bisect_exit_ok, bisect_plot_run.
    destruct (Z.eqb_spec (sgn (f a)) (sgn (f b))) as [E|E].
    + cbn. split; [lia | auto].
    + rewrite range_len_plot.
      pose proof (bplot_loop_exit (Z.to_nat M) a b (f a) (f b) (sub b a) [] [] ghost0) as H.
      cbn zeta in H. cbn [passes ghost0] in H. rewrite Nat.add_0_l in H.
      destruct H as [Hle Hex]. split; [exact Hle|].
      destruct (exit_by _); try contradiction; exact Hex.
  - pose proof (newton_plot_run_post x0 nmax) as Hpost.
    pose proof (nplot_loop_guard (range_len 1 (nmax + 1)) x0 (f x0) [x0] [f x0]
                  ghost0 eq_refl) as Hg.
    cbn zeta in Hg. fold (newton_plot_run sub div abs ltb f fprime err1 err2 epsilon x0 nmax) in Hg.
    destruct (newton_plot_run sub div abs ltb f fprime err1 err2 epsilon x0 nmax)
      as [r g] eqn:Hrun.
    unfold plot_post in Hpost. unfold newton_exit_ok. cbn [fst snd] in *.
    destruct Hpost as (Hle & _ & Hex & Hns & Hm). split; [exact Hle|].
    destruct (exit_by g) eqn:He.
    + destruct r as [[| | | |xs fxs|]| |]; try contradiction; [|discriminate].
      destruct Hm as (_ & _ & Hc). apply tolerance_met_split. auto.
    + auto.
    + exact Hg.
    + congruence.
    + destruct r as [[| | | |xs fxs|]| |]; try contradiction.
      * destruct Hm as (_ & Hdf & _). congruence.
      * auto.
  - pose proof (secant_plot_run_post s0 s1 smax) as Hpost.
    pose proof (splot_loop_guard (range_len 1 (smax + 1)) s0 s1 (f s0) (f s1) []
                  [f s0; f s1] ghost0 eq_refl eq_refl) as Hg.
    cbn zeta in Hg. cbn [app] in Hg.
    fold (secant_plot_run sub mul div abs ltb f err1 err2 epsilon s0 s1 smax) in Hg.
    destruct (secant_plot_run sub mul div abs ltb f err1 err2 epsilon s0 s1 smax)
      as [r g] eqn:Hrun.
    unfold plot_post in Hpost. unfold secant_exit_ok. cbn [fst snd] in *.
    destruct Hpost as (Hle & _ & Hex & Hns & Hm). split; [exact Hle|].
    destruct (exit_by g) eqn:He.
    + destruct r as [[| | | |xs fxs|]| |]; try contradiction; [|discriminate].
      destruct Hm as (_ & _ & Hc). apply tolerance_met_split. auto.
    + auto.
    + exact Hg.
    + congruence.
    + destruct r as [[| | | |xs fxs|]| |]; try contradiction.
      * destruct Hm as (_ & Hdf & _). congruence.
      * auto.
Qed.

Lemma bloop_value (n : nat) :
  forall a b fa fb e g,
    match (bloop n a b fa fb e g).1 with
    | Return PyNone => exit_by (bloop n a b fa fb e g).2 = Exhausted
    | Return (RootFoundAt _ _) => exit_by (bloop n a b fa fb e g).2 = Converged
    | _ => False
    end.
Proof.
  induction n as [|n IH]; intros a b fa fb e g; [reflexivity|].
  cbn [bisect_loop].
  destruct (ltb (abs (half e)) err1 || ltb (abs (f (add a (half e)))) epsilon);
    [reflexivity|].
  destruct (negb (sgn (f (add a (half e))) =? sgn (f a))%Z); apply IH.
Qed.


Lemma map_consistent xs fxs :
  fxs = map f xs ->
  length xs = length fxs
  /\ fxs = map f xs
  /\ (forall i x, xs !! i = Some x -> fxs !! i = Some (f x)).
Proof.
  intros ->. split; [symmetry; apply length_map|]. split; [reflexivity|].
  intros i x Hx. rewrite list_lookup_fmap, Hx. reflexivity.
Qed.

(** C10. Whenever [bisect_method_with_plot], [newton_method_with_plot] or
    [secant_method_with_plot] returns its pair, [x_vals] and [fx_vals] have
    the same length and [fx_vals[i] = f(x_vals[i])] at every index. *)
Theorem plot_sequences_consistent (a b : R) (M : Z) (x0 : R) (nmax : Z)
    (s0 s1 : R) (smax : Z) :
  consistent
    (bisect_method_with_plot zero add sub half abs ltb a b M err1 epsilon f)
  /\ consistent
    (newton_method_with_plot sub div abs ltb f fprime x0 nmax err1 err2 epsilon)
  /\ consistent
    (secant_method_with_plot sub mul div abs ltb f s0 s1 smax err1 err2 epsilon).
Proof.
  split; [|split]; intros xs fxs Hr; apply map_consistent.
  - revert Hr. unfold bisect_method_with_plot, bisect_plot_run.
    destruct (Z.eqb_spec (sgn (f a)) (sgn (f b))) as [E|E]; [discriminate|].
    destruct (bplot_loop_inv (range_len 1 (M + 1)) a b (f a) (f b) (sub b a)
                [] [] ghost0 E plot_inv_ghost0) as (xs' & fxs' & g & Hrun & Hinv).
    rewrite Hrun. cbn. intros [= <- <-]. apply Hinv.
  - pose proof (newton_plot_run_post x0 nmax) as (_ & _ & _ & _ & Hm).
    unfold newton_method_with_plot in Hr. rewrite Hr in Hm. apply Hm.
  - pose proof (secant_plot_run_post s0 s1 smax) as (_ & _ & _ & _ & Hm).
    unfold secant_method_with_plot in Hr. rewrite Hr in Hm. apply Hm.
Qed.

(** *** The engines over the store *)

Lemma preserves_refl (s : store R) : preserves s s.
Proof. intros l _. reflexivity. Qed.

Lemma preserves_length (s s' : store R) : preserves s s' -> length s <= length s'.
Proof.
  intros H. destruct (decide (length s <= length s')) as [|Hn]; [assumption|].
  assert (Hl : length s' < length s) by lia.
  specialize (H (length s') Hl).
  rewrite (lookup_ge_None_2 s' (length s')) in H by lia.
  symmetry in H. apply lookup_ge_None in H. lia.
Qed.

Lemma preserves_trans (s1 s2 s3 : store R) :
  preserves s1 s2 -> preserves s2 s3 -> preserves s1 s3.
Proof.
  intros H12 H23 l Hl. rewrite <- (H12 l Hl). apply H23.
  pose proof (preserves_length _ _ H12). lia.
Qed.

Lemma read_preserved (s s' : store R) r v :
  preserves s s' -> read s r = Some v -> read s' r = Some v.
Proof.
  intros Hp. destruct r as [|lx lfx|]; unfold read; try done.
  destruct (s !! lx) as [xs|] eqn:Hx; [|done].
  destruct (s !! lfx) as [fxs|] eqn:Hfx; [|done].
  rewrite (Hp lx), (Hp lfx), Hx, Hfx by (eapply lookup_lt_Some; eassumption).
  done.
Qed.

Lemma touches_only_refl lx lfx (s : store R) : touches_only lx lfx s s.
Proof. split; [reflexivity | intros; reflexivity]. Qed.

Lemma touches_only_trans lx lfx (s1 s2 s3 : store R) :
  touches_only lx lfx s1 s2 -> touches_only lx lfx s2 s3 ->
  touches_only lx lfx s1 s3.
Proof.
  intros [L1 H1] [L2 H2]. split; [congruence|].
  intros l Hx Hfx. rewrite H2, H1 by assumption. reflexivity.
Qed.

Lemma append_pair (s : store R) lx lfx xs fxs x fx :
  holds s lx lfx xs fxs ->
  holds (append lfx fx (append lx x s)) lx lfx (xs ++ [x]) (fxs ++ [fx])
  /\ touches_only lx lfx s (append lfx fx (append lx x s)).
Proof.
  intros (Hne & Hx & Hfx).
  assert (Hlx : lx < length s) by (eapply lookup_lt_Some; eassumption).
  assert (Hlfx : lfx < length s) by (eapply lookup_lt_Some; eassumption).
  assert (H1 : append lx x s = <[lx := xs ++ [x]]> s)
    by (unfold append; rewrite Hx; reflexivity).
  rewrite H1.
  assert (H2 : append lfx fx (<[lx := xs ++ [x]]> s)
               = <[lfx := fxs ++ [fx]]> (<[lx := xs ++ [x]]> s))
    by (unfold append; rewrite list_lookup_insert_ne, Hfx by exact Hne;
        reflexivity).
  rewrite H2.
  split; [split; [exact Hne|split]|split].
  - rewrite list_lookup_insert_ne by congruence.
    apply list_lookup_insert_eq. exact Hlx.
  - apply list_lookup_insert_eq. rewrite length_insert. exact Hlfx.
  - rewrite !length_insert. reflexivity.
  - intros l Hl1 Hl2. rewrite !list_lookup_insert_ne by congruence. reflexivity.
Qed.

Lemma read_holds (s : store R) lx lfx xs fxs :
  holds s lx lfx xs fxs -> read s (RefSeqs lx lfx) = Some (Return (Seqs xs fxs)).
Proof. intros (_ & Hx & Hfx). unfold read. rewrite Hx, Hfx. reflexivity. Qed.

Lemma bisect_plot_st_loop_refines (n : nat) :
  forall a b fa fb e lx lfx s xs fxs g,
    holds s lx lfx xs fxs ->
    refines lx lfx s
      (bisect_plot_st_loop zero add half abs ltb err1 epsilon f n
         a b fa fb e lx lfx s)
      (bisect_plot_loop zero add half abs ltb err1 epsilon f n
         a b fa fb e xs fxs g).
Proof.
  induction n as [|n IH]; intros a b fa fb e lx lfx s xs fxs g Hh.
  - split; [apply read_holds; exact Hh | apply touches_only_refl].
  - cbn [bisect_plot_st_loop bisect_plot_loop].
    set (c := add a (half e)).
    destruct (append_pair s lx lfx xs fxs c (f c) Hh) as [Hh' Ht].
    destruct (ltb (abs (half e)) err1 || ltb (abs (f c)) epsilon).
    + split; [apply read_holds; exact Hh' | exact Ht].
    + destruct (negb (sign zero ltb (f c) =? sign zero ltb (f a))%Z).
      * destruct (IH a c fa (f c) (half e) lx lfx _ _ _
                    (log_step (half e) (log_bracket a b (enter_pass g))) Hh')
          as [Hr Ht'].
        split; [exact Hr | eapply touches_only_trans; eassumption].
      * destruct (IH c b (f c) fb (half e) lx lfx _ _ _
                    (log_step (half e) (log_bracket a b (enter_pass g))) Hh')
          as [Hr Ht'].
        split; [exact Hr | eapply touches_only_trans; eassumption].
Qed.

Lemma newton_plot_st_loop_refines (n : nat) :
  forall x fx lx lfx s xs fxs g,
    holds s lx lfx xs fxs ->
    refines lx lfx s
      (newton_plot_st_loop sub div abs ltb f fprime err1 err2 epsilon n
         x fx lx lfx s)
      (newton_plot_loop sub div abs ltb f fprime err1 err2 epsilon n
         x fx xs fxs g).
Proof.
  induction n as [|n IH]; intros x fx lx lfx s xs fxs g Hh.
  - split; [apply read_holds; exact Hh | apply touches_only_refl].
  - cbn [newton_plot_st_loop newton_plot_loop].
    destruct (ltb (abs (fprime x)) epsilon).
    + split; [apply read_holds; exact Hh | apply touches_only_refl].
    + destruct (div fx (fprime x)) as [d|].
      * destruct (append_pair s lx lfx xs fxs (sub x d) (f (sub x d)) Hh)
          as [Hh' Ht].
        destruct (ltb (abs d) err1 || ltb (abs (f (sub x d))) err2).
        -- split; [apply read_holds; exact Hh' | exact Ht].
        -- destruct (IH (sub x d) (f (sub x d)) lx lfx _ _ _
                       (log_step d (log_div fx (fprime x) (enter_pass g))) Hh')
             as [Hr Ht'].
           split; [exact Hr | eapply touches_only_trans; eassumption].
      * split; [reflexivity | apply touches_only_refl].
Qed.

Lemma secant_plot_st_loop_refines (n : nat) :
  forall x0 x1 fx0 fx1 lx lfx s xs fxs g,
    holds s lx lfx xs fxs ->
    refines lx lfx s
      (secant_plot_st_loop sub mul div abs ltb f err1 err2 epsilon n
         x0 x1 fx0 fx1 lx lfx s)
      (secant_plot_loop sub mul div abs ltb f err1 err2 epsilon n
         x0 x1 fx0 fx1 xs fxs g).
Proof.
  induction n as [|n IH]; intros x0 x1 fx0 fx1 lx lfx s xs fxs g Hh.
  - split; [apply read_holds; exact Hh | apply touches_only_refl].
  - cbn [secant_plot_st_loop secant_plot_loop].
    destruct (ltb (abs (sub fx1 fx0)) epsilon).
    + split; [apply read_holds; exact Hh | apply touches_only_refl].
    + destruct (div (mul fx1 (sub x1 x0)) (sub fx1 fx0)) as [d|].
      * destruct (append_pair s lx lfx xs fxs (sub x1 d) (f (sub x1 d)) Hh)
          as [Hh' Ht].
        destruct (ltb (abs d) err1 || ltb (abs (f (sub x1 d))) err2).
        -- split; [apply read_holds; exact Hh' | exact Ht].
        -- destruct (IH x1 (sub x1 d) fx1 (f (sub x1 d)) lx lfx _ _ _
                       (log_step d (log_div (mul fx1 (sub x1 x0)) (sub fx1 fx0)
                                      (enter_pass g))) Hh')
             as [Hr Ht'].
           split; [exact Hr | eapply touches_only_trans; eassumption].
      * split; [reflexivity | apply touches_only_refl].
Qed.

Lemma alloc_pair (s : store R) (i1 i2 : list R) :
  holds ((s ++ [i1]) ++ [i2]) (length s) (length (s ++ [i1])) i1 i2
  /\ preserves s ((s ++ [i1]) ++ [i2]).
Proof.
  rewrite length_app. cbn [length]. split; [split; [lia|split]|].
  - rewrite lookup_app_l by (rewrite length_app; cbn; lia).
    apply list_lookup_middle. reflexivity.
  - apply list_lookup_middle. rewrite length_app. reflexivity.
  - intros l Hl. rewrite <- app_assoc. apply lookup_app_l. exact Hl.
Qed.

Lemma touches_fresh_preserves (s s2 s' : store R) lx lfx :
  preserves s s2 -> length s <= lx -> length s <= lfx ->
  touches_only lx lfx s2 s' -> preserves s s'.
Proof.
  intros Hp Hx Hfx [_ Ht] l Hl. rewrite Ht by lia. apply Hp. exact Hl.
Qed.

Lemma fresh_call_repeatable call v : fresh_call call v -> repeatable call v.
Proof.
  intros Hf s. cbn zeta.
  destruct (Hf s) as [Hr1 Hp1]. destruct (Hf (call s).2) as [Hr2 Hp2].
  split; [exact Hr1|]. split; [exact Hr2|].
  split; [eapply read_preserved; eassumption|].
  eapply preserves_trans; eassumption.
Qed.

Lemma bisect_st_fresh a b M :
  fresh_call
    (bisect_method_with_plot_st zero add sub half abs ltb a b M err1 epsilon f)
    (bisect_method_with_plot zero add sub half abs ltb a b M err1 epsilon f).
Proof.
  intros s.
  unfold bisect_method_with_plot_st, bisect_method_with_plot, bisect_plot_run,
    new_list.
  destruct (alloc_pair s [] []) as [Hh Hp].
  destruct (sign zero ltb (f a) =? sign zero ltb (f b))%Z.
  - split; [reflexivity | exact Hp].
  - destruct (bisect_plot_st_loop_refines (range_len 1 (M + 1))
                a b (f a) (f b) (sub b a) _ _ _ _ _ ghost0 Hh) as [Hr Ht].
    split; [exact Hr|].
    eapply touches_fresh_preserves; [exact Hp | | | exact Ht];
      rewrite ?length_app; lia.
Qed.

Lemma newton_st_fresh x0 nmax :
  fresh_call
    (newton_method_with_plot_st sub div abs ltb f fprime x0 nmax err1 err2 epsilon)
    (newton_method_with_plot sub div abs ltb f fprime x0 nmax err1 err2 epsilon).
Proof.
  intros s.
  unfold newton_method_with_plot_st, newton_method_with_plot, newton_plot_run,
    new_list.
  destruct (alloc_pair s [x0] [f x0]) as [Hh Hp].
  destruct (newton_plot_st_loop_refines
              (range_len 1 (nmax + 1)) x0 (f x0) _ _ _ _ _ ghost0 Hh) as [Hr Ht].
  split; [exact Hr|].
  eapply touches_fresh_preserves; [exact Hp | | | exact Ht];
    rewrite ?length_app; lia.
Qed.

Lemma secant_st_fresh x0 x1 nmax :
  fresh_call
    (secant_method_with_plot_st sub mul div abs ltb f x0 x1 nmax err1 err2 epsilon)
    (secant_method_with_plot sub mul div abs ltb f x0 x1 nmax err1 err2 epsilon).
Proof.
  intros s.
  unfold secant_method_with_plot_st, secant_method_with_plot, secant_plot_run,
    new_list.
  destruct (alloc_pair s [x0; x1] [f x0; f x1]) as [Hh Hp].
  destruct (secant_plot_st_loop_refines
              (range_len 1 (nmax + 1)) x0 x1 (f x0) (f x1) _ _ _ _ _ ghost0 Hh)
    as [Hr Ht].
  split; [exact Hr|].
  eapply touches_fresh_preserves; [exact Hp | | | exact Ht];
    rewrite ?length_app; lia.
Qed.

(** C8. Each engine, run on the interpreter's store, gives a result that is
    a function of its arguments alone: from any store, two calls in a row
    with the same arguments return sequences with the same contents (those
    of the store-free function), the second call leaves the first call's
    lists as they were, and nothing that was in the store is changed. *)
Theorem engines_stateless (a b : R) (M : Z) (x0 : R) (nmax : Z)
    (s0 s1 : R) (smax : Z) :
  repeatable
    (bisect_method_with_plot_st zero add sub half abs ltb a b M err1 epsilon f)
    (bisect_method_with_plot zero add sub half abs ltb a b M err1 epsilon f)
  /\ repeatable
    (newton_method_with_plot_st sub div abs ltb f fprime x0 nmax err1 err2 epsilon)
    (newton_method_with_plot sub div abs ltb f fprime x0 nmax err1 err2 epsilon)
  /\ repeatable
    (secant_method_with_plot_st sub mul div abs ltb f s0 s1 smax err1 err2 epsilon)
    (secant_method_with_plot sub mul div abs ltb f s0 s1 smax err1 err2 epsilon).
Proof.
  split; [|split]; apply fresh_call_repeatable.
  - apply bisect_st_fresh.
  - apply newton_st_fresh.
  - apply secant_st_fresh.
Qed.

(** *** The sequences as iterations *)

Lemma ends_with_last (l : list R) y x : ends_with l y x -> last l = Some x.
Proof.
  intros [pre ->]. replace (pre ++ [y; x]) with ((pre ++ [y]) ++ [x])
    by (rewrite <- app_assoc; reflexivity).
  apply last_snoc.
Qed.

Lemma ends_with_lookup (l : list R) y x :
  ends_with l y x <->
  exists i, S (S i) = length l /\ l !! i = Some y /\ l !! S i = Some x.
Proof.
  split.
  - intros [pre ->]. exists (length pre). rewrite length_app. cbn.
    split; [lia|]. split.
    + apply list_lookup_middle. reflexivity.
    + replace (pre ++ [y; x]) with ((pre ++ [y]) ++ [x])
        by (rewrite <- app_assoc; reflexivity).
      apply list_lookup_middle. rewrite length_app. cbn. lia.
  - intros (i & Hlen & Hy & Hx). exists (take i l).
    rewrite <- (take_drop i l) at 1. f_equal.
    rewrite (drop_S l y i Hy). f_equal.
    rewrite (drop_S l x (S i) Hx). f_equal.
    apply drop_ge. lia.
Qed.

Lemma chain_one link (x : R) : chain link [x].
Proof. intros i a b _ Hb. destruct i; discriminate. Qed.

Lemma chain_snoc link (xs : list R) x z :
  chain link xs -> last xs = Some x -> link x z -> chain link (xs ++ [z]).
Proof.
  intros Hc Hl Hz i a b Ha Hb.
  apply lookup_snoc_Some in Hb as [[Hlt Hb]|[Heq <-]].
  - rewrite lookup_app_l in Ha by lia. exact (Hc i a b Ha Hb).
  - rewrite lookup_app_l in Ha by lia.
    rewrite last_lookup, <- Heq in Hl. cbn in Hl.
    rewrite Hl in Ha. injection Ha as <-. exact Hz.
Qed.

Lemma chain_inner_short link (xs : list R) :
  length xs <= 2 -> chain_inner link xs.
Proof.
  intros Hlen i a b _ _ [c Hc]. apply lookup_lt_Some in Hc. lia.
Qed.

Lemma chain_inner_snoc link (xs : list R) z :
  chain_inner link xs ->
  (forall y x, ends_with xs y x -> link y x) ->
  chain_inner link (xs ++ [z]).
Proof.
  intros Hc Hend i a b Ha Hb [c Hcc].
  apply lookup_snoc_Some in Hcc as [[Hlt Hcc]|[Heq _]].
  - rewrite lookup_app_l in Ha, Hb by lia.
    apply (Hc i a b Ha Hb). exists c. exact Hcc.
  - rewrite lookup_app_l in Ha, Hb by lia.
    apply Hend. apply ends_with_lookup. exists i. auto.
Qed.

Lemma chain3_short link (xs : list R) : length xs <= 2 -> chain3 link xs.
Proof.
  intros Hlen i a b c _ _ Hc. apply lookup_lt_Some in Hc. lia.
Qed.

Lemma chain3_snoc link (xs : list R) y x z :
  chain3 link xs -> ends_with xs y x -> link y x z -> chain3 link (xs ++ [z]).
Proof.
  intros Hc Hend Hz i a b c Ha Hb Hcc.
  apply lookup_snoc_Some in Hcc as [[Hlt Hcc]|[Heq <-]].
  - rewrite lookup_app_l in Ha, Hb by lia. exact (Hc i a b c Ha Hb Hcc).
  - rewrite lookup_app_l in Ha, Hb by lia.
    apply ends_with_lookup in Hend as (j & Hlen & Hy & Hx).
    assert (j = i) as -> by lia.
    rewrite Hy in Ha. rewrite Hx in Hb.
    injection Ha as <-. injection Hb as <-. exact Hz.
Qed.

Lemma chain3_inner_short link (xs : list R) :
  length xs <= 3 -> chain3_inner link xs.
Proof.
  intros Hlen i a b c _ _ _ [e He]. apply lookup_lt_Some in He. lia.
Qed.

Lemma chain3_inner_snoc link (xs : list R) z :
  chain3_inner link xs ->
  (forall i a b c, S (S (S i)) = length xs ->
     xs !! i = Some a -> xs !! S i = Some b -> xs !! S (S i) = Some c ->
     link a b c) ->
  chain3_inner link (xs ++ [z]).
Proof.
  intros Hc Hend i a b c Ha Hb Hcc [e He].
  apply lookup_snoc_Some in He as [[Hlt He]|[Heq _]].
  - rewrite lookup_app_l in Ha, Hb, Hcc by lia.
    apply (Hc i a b c Ha Hb Hcc). exists e. exact He.
  - rewrite lookup_app_l in Ha, Hb, Hcc by lia.
    apply (Hend i a b c); auto.
Qed.

Lemma nplot_loop_chain (n : nat) :
  forall x fx x_vals fx_vals g xs fxs g',
    fx = f x ->
    last x_vals = Some x ->
    chain newton_link x_vals ->
    chain_inner newton_retry x_vals ->
    (forall y x', ends_with x_vals y x' -> newton_retry y x') ->
    nplot_loop n x fx x_vals fx_vals g = (Return (Seqs xs fxs), g') ->
    chain newton_link xs /\ chain_inner newton_retry xs
    /\ x_vals `prefix_of` xs /\ length xs <= length x_vals + n.
Proof.
  induction n as [|n IH];
    intros x fx x_vals fx_vals g xs fxs g' -> Hl Hc Hi Hend.
  - cbn. intros [= <- <- <-].
    refine (conj Hc (conj Hi (conj _ _))); [reflexivity | lia].
  - cbn [newton_plot_loop].
    destruct (ltb (abs (fprime x)) epsilon) eqn:Hguard.
    + intros [= <- <- <-].
      refine (conj Hc (conj Hi (conj _ _))); [reflexivity | lia].
    + destruct (div (f x) (fprime x)) as [d|] eqn:Hdiv; [|discriminate].
      set (x' := sub x d).
      assert (Hc1 : chain newton_link (x_vals ++ [x'])).
      { apply (chain_snoc _ _ x); [exact Hc | exact Hl |].
        split; [exact Hguard|]. exists d. auto. }
      assert (Hi1 : chain_inner newton_retry (x_vals ++ [x']))
        by (apply chain_inner_snoc; assumption).
      assert (Hp1 : x_vals `prefix_of` x_vals ++ [x'])
        by (apply prefix_app_r; reflexivity).
      destruct (ltb (abs d) err1 || ltb (abs (f x')) err2) eqn:Htest.
      * intros [= <- <- <-].
        refine (conj Hc1 (conj Hi1 (conj Hp1 _))).
        rewrite length_app. cbn. lia.
      * intros Hrun.
        apply IH in Hrun as (Hc2 & Hi2 & Hp2 & Hlen); try assumption;
          try reflexivity.
        -- refine (conj Hc2 (conj Hi2 (conj _ _))); [etrans; eassumption|].
           rewrite length_app in Hlen. cbn in Hlen. lia.
        -- apply last_snoc.
        -- intros y z Hyz.
           pose proof (ends_with_last _ _ _ Hyz) as Hz.
           rewrite last_snoc in Hz. injection Hz as <-.
           apply ends_with_lookup in Hyz as (i & Hlen & Hy & _).
           rewrite length_app in Hlen. cbn in Hlen.
           rewrite lookup_app_l in Hy by lia.
           rewrite last_lookup in Hl.
           replace (pred (length x_vals)) with i in Hl by lia.
           rewrite Hl in Hy. injection Hy as <-.
           exists d. auto.
Qed.

(** X1. The pair that [newton_method_with_plot] returns is Newton's
    iteration from the seed: [x_vals] starts with [x0], has at most
    [1 + max(nmax, 0)] entries, and every entry after the first is
    [x - f(x)/f'(x)] for its predecessor [x], at which the guard
    [abs(f'(x)) < epsilon] was false. *)
Theorem newton_plot_iterates (x0 : R) (nmax : Z) (xs fxs : list R) :
  newton_method_with_plot sub div abs ltb f fprime x0 nmax err1 err2 epsilon
    = Return (Seqs xs fxs) ->
  xs !! 0 = Some x0
  /\ 1 <= length xs <= S (Z.to_nat nmax)
  /\ chain newton_link xs.
Proof.
  unfold newton_method_with_plot, newton_plot_run. rewrite range_len_plot.
  destruct (newton_plot_loop _ _ _ _ _ _ _ _ _ _ _ _ _ _ _) as [r g] eqn:Hrun.
  cbn [fst]. intros ->.
  apply nplot_loop_chain in Hrun as (Hc & _ & [k ->] & Hlen);
    try reflexivity.
  - split; [reflexivity|]. split; [|exact Hc].
    rewrite length_app in *. cbn in *. lia.
  - apply chain_one.
  - apply chain_inner_short. cbn. lia.
  - intros y z Hyz. apply ends_with_lookup in Hyz as (i & Hlen & _). cbn in Hlen. lia.
Qed.

Lemma splot_loop_chain (n : nat) :
  forall x0 x1 fx0 fx1 x_vals fx_vals g xs fxs g',
    fx0 = f x0 -> fx1 = f x1 ->
    ends_with x_vals x0 x1 ->
    chain3 secant_link x_vals ->
    chain3_inner secant_retry x_vals ->
    (forall i a b c, S (S (S i)) = length x_vals ->
       x_vals !! i = Some a -> x_vals !! S i = Some b ->
       x_vals !! S (S i) = Some c -> secant_retry a b c) ->
    splot_loop n x0 x1 fx0 fx1 x_vals fx_vals g = (Return (Seqs xs fxs), g') ->
    chain3 secant_link xs /\ chain3_inner secant_retry xs
    /\ x_vals `prefix_of` xs /\ length xs <= length x_vals + n.
Proof.
  induction n as [|n IH];
    intros x0 x1 fx0 fx1 x_vals fx_vals g xs fxs g' -> -> He Hc Hi Hend.
  - cbn. intros [= <- <- <-].
    refine (conj Hc (conj Hi (conj _ _))); [reflexivity | lia].
  - cbn [secant_plot_loop].
    destruct (ltb (abs (sub (f x1) (f x0))) epsilon) eqn:Hguard.
    + intros [= <- <- <-].
      refine (conj Hc (conj Hi (conj _ _))); [reflexivity | lia].
    + destruct (div (mul (f x1) (sub x1 x0)) (sub (f x1) (f x0))) as [d|] eqn:Hdiv;
        [|discriminate].
      set (x2 := sub x1 d).
      assert (Hc1 : chain3 secant_link (x_vals ++ [x2])).
      { apply (chain3_snoc _ _ x0 x1); [exact Hc | exact He |].
        split; [exact Hguard|]. exists d. auto. }
      assert (Hi1 : chain3_inner secant_retry (x_vals ++ [x2]))
        by (apply chain3_inner_snoc; assumption).
      assert (Hp1 : x_vals `prefix_of` x_vals ++ [x2])
        by (apply prefix_app_r; reflexivity).
      destruct (ltb (abs d) err1 || ltb (abs (f x2)) err2) eqn:Htest.
      * intros [= <- <- <-].
        refine (conj Hc1 (conj Hi1 (conj Hp1 _))).
        rewrite length_app. cbn. lia.
      * intros Hrun.
        apply IH in Hrun as (Hc2 & Hi2 & Hp2 & Hlen); try assumption;
          try reflexivity.
        -- refine (conj Hc2 (conj Hi2 (conj _ _))); [etrans; eassumption|].
           rewrite length_app in Hlen. cbn in Hlen. lia.
        -- eapply ends_with_snoc. exact He.
        -- intros i a b c Hlen Ha Hb Hcc.
           rewrite length_app in Hlen. cbn in Hlen.
           apply ends_with_lookup in He as (j & Hj & Hy & Hx).
           assert (j = i) as -> by lia.
           rewrite lookup_app_l in Ha, Hb by lia.
           rewrite Hy in Ha. rewrite Hx in Hb.
           injection Ha as <-. injection Hb as <-.
           rewrite lookup_app_r in Hcc by lia.
           replace (S (S i) - length x_vals) with 0 in Hcc by lia.
           cbn in Hcc. injection Hcc as <-.
           exists d. auto.
Qed.

(** X2. The pair that [secant_method_with_plot] returns is the secant
    iteration from the two seeds: [x_vals] starts with [x0], [x1], has at
    most [2 + max(nmax, 0)] entries, and every later entry is
    [x' - f(x')(x' - x)/(f(x') - f(x))] for the two entries [x], [x']
    before it, on which the guard [abs(f(x') - f(x)) < epsilon] was
    false. *)
Theorem secant_plot_iterates (x0 x1 : R) (nmax : Z) (xs fxs : list R) :
  secant_method_with_plot sub mul div abs ltb f x0 x1 nmax err1 err2 epsilon
    = Return (Seqs xs fxs) ->
  xs !! 0 = Some x0 /\ xs !! 1 = Some x1
  /\ 2 <= length xs <= 2 + Z.to_nat nmax
  /\ chain3 secant_link xs.
Proof.
  unfold secant_method_with_plot, secant_plot_run. rewrite range_len_plot.
  destruct (secant_plot_loop _ _ _ _ _ _ _ _ _ _ _ _ _ _ _ _ _) as [r g] eqn:Hrun.
  cbn [fst]. intros ->.
  apply splot_loop_chain in Hrun as (Hc & _ & [k ->] & Hlen);
    try reflexivity.
  - split; [reflexivity|]. split; [reflexivity|]. split; [|exact Hc].
    rewrite length_app in *. cbn in *. lia.
  - exists []. reflexivity.
  - apply chain3_short. cbn. lia.
  - apply chain3_inner_short. cbn. lia.
  - intros i a b c Hlen. cbn in Hlen. lia.
Qed.

Lemma banim_loop_links (a0 b0 : R) (n : nat) :
  forall a b fa fb e x_vals fx_vals intervals g xs fxs ivs g',
    length x_vals = length intervals ->
    e = Nat.iter (length x_vals) half (sub b0 a0) ->
    (intervals ++ [[a; b]]) !! 0 = Some [a0; b0] ->
    bisect_links a0 b0 x_vals (intervals ++ [[a; b]]) ->
    banim_loop n a b fa fb e x_vals fx_vals intervals g
      = (Return (SeqsWith xs fxs ivs), g') ->
    length xs = length ivs
    /\ length xs <= length x_vals + n
    /\ (forall iv, ivs !! 0 = Some iv -> iv = [a0; b0])
    /\ bisect_links a0 b0 xs ivs.
Proof.
  assert (Hweak : forall xs (ivs : list (list R)) iv,
            length xs = length ivs ->
            bisect_links a0 b0 xs (ivs ++ [iv]) -> bisect_links a0 b0 xs ivs).
  { intros xs ivs iv Hlen H i c Hc.
    pose proof (lookup_lt_Some _ _ _ Hc) as Hi.
    destruct (H i c Hc) as (ai & bi & Hiv & Hmid & Hnext).
    rewrite lookup_app_l in Hiv by lia.
    exists ai, bi. split; [exact Hiv|]. split; [exact Hmid|].
    intros iv' Hiv'. apply Hnext. apply lookup_app_l_Some. exact Hiv'. }
  assert (Hfirst : forall (ivs : list (list R)) iv iv0,
            (ivs ++ [iv]) !! 0 = Some iv0 ->
            forall iv1, ivs !! 0 = Some iv1 -> iv1 = iv0).
  { intros ivs iv iv0 H0 iv1 H1.
    rewrite (lookup_app_l_Some _ _ _ _ H1) in H0. congruence. }
  induction n as [|n IH];
    intros a b fa fb e x_vals fx_vals intervals g xs fxs ivs g' Hlen He H0 Hl.
  - cbn. intros [= <- <- <- <-].
    split; [exact Hlen|]. split; [lia|].
    split; [eapply Hfirst; exact H0 | eapply Hweak; eassumption].
  - cbn [bisect_anim_loop].
    set (e' := half e). set (c := add a e').
    set (nxt := if negb (sgn (f c) =? sgn (f a))%Z then [a; c] else [c; b]).
    assert (Hl1 : bisect_links a0 b0 (x_vals ++ [c])
                    ((intervals ++ [[a; b]]) ++ [nxt])).
    { intros i z Hz. apply lookup_snoc_Some in Hz as [[Hlt Hz]|[Heq <-]].
      - destruct (Hl i z Hz) as (ai & bi & Hiv & Hmid & Hnext).
        exists ai, bi. split; [apply lookup_app_l_Some; exact Hiv|].
        split; [exact Hmid|].
        intros iv' Hiv'. apply Hnext.
        rewrite lookup_app_l in Hiv' by (rewrite length_app; cbn; lia).
        exact Hiv'.
      - exists a, b. split.
        + rewrite lookup_app_l by (rewrite length_app; cbn; lia).
          apply list_lookup_middle. lia.
        + split.
          * unfold c, e'. rewrite He, Heq. reflexivity.
          * intros iv' Hiv'.
            rewrite lookup_app_r in Hiv' by (rewrite length_app; cbn; lia).
            rewrite length_app in Hiv'. cbn in Hiv'.
            replace (S i - (length intervals + 1)) with 0 in Hiv' by lia.
            cbn in Hiv'. injection Hiv' as <-. reflexivity. }
    assert (H01 : ((intervals ++ [[a; b]]) ++ [nxt]) !! 0 = Some [a0; b0]).
    { apply lookup_app_l_Some. exact H0. }
    assert (Hlen1 : length (x_vals ++ [c]) = length (intervals ++ [[a; b]])).
    { rewrite !length_app. cbn. lia. }
    assert (He1 : e' = Nat.iter (length (x_vals ++ [c])) half (sub b0 a0)).
    { rewrite length_app. cbn. rewrite Nat.add_1_r. cbn. unfold e'. rewrite He.
      reflexivity. }
    destruct (ltb (abs e') epsilon || ltb (abs (f c)) epsilon).
    + intros [= <- <- <- <-].
      split; [exact Hlen1|]. split; [rewrite length_app; cbn; lia|].
      split; [eapply Hfirst; exact H01 | eapply Hweak; eassumption].
    + unfold nxt in Hl1, H01.
      assert (Hb : forall k, k <= length (x_vals ++ [c]) + n -> k <= length x_vals + S n)
        by (intros k; rewrite length_app; cbn; lia).
      destruct (negb (sgn (f c) =? sgn (f a))%Z); intros Hrun;
        eapply IH in Hrun as (K1 & K2 & K3 & K4); try eassumption;
        (split; [exact K1|]; split; [apply Hb; exact K2|]; split; assumption).
Qed.

(** X3. What [bisect_animation] returns is the bisection of [[a, b]]: as
    many brackets as midpoints, the first bracket [[a, b]] itself, each
    midpoint [c_i = a_i + (b - a)/2^(i+1)] (the halving done [i + 1] times)
    taken from the left end [a_i] of its bracket, and each next bracket
    [[a_i, c_i]] or [[c_i, b_i]] according to whether [sign(f(c_i))]
    differs from [sign(f(a_i))] or not. *)
Theorem bisect_animation_brackets (a b : R) (M : Z)
    (xs fxs : list R) (ivs : list (list R)) :
  bisect_animation zero add sub half abs ltb a b M epsilon f
    = Return (SeqsWith xs fxs ivs) ->
  length xs = length ivs
  /\ length xs <= Z.to_nat M
  /\ (forall iv, ivs !! 0 = Some iv -> iv = [a; b])
  /\ bisect_links a b xs ivs.
Proof.
  unfold bisect_animation, bisect_anim_run. rewrite range_len_plot.
  destruct (sgn (f a) =? sgn (f b))%Z; [discriminate|].
  destruct (bisect_anim_loop _ _ _ _ _ _ _ _ _ _ _ _ _ _ _ _ _) as [r g] eqn:Hrun.
  cbn [fst]. intros ->.
  apply (banim_loop_links a b) in Hrun as (Hlen & Hb & H0 & Hl); try reflexivity.
  - refine (conj Hlen (conj _ (conj H0 Hl))). cbn in Hb. lia.
  - intros i c Hc. destruct i; discriminate.
Qed.

(** *** No pass after the first success *)

Lemma bplot_loop_retries (a0 b0 : R) (n : nat) :
  forall a b fa fb e x_vals fx_vals g xs fxs g',
    e = Nat.iter (length x_vals) half (sub b0 a0) ->
    (forall i c, x_vals !! i = Some c ->
       ltb (abs (Nat.iter (S i) half (sub b0 a0))) err1
       || ltb (abs (f c)) epsilon = false) ->
    bplot_loop n a b fa fb e x_vals fx_vals g = (Return (Seqs xs fxs), g') ->
    bisect_retries a0 b0 xs.
Proof.
  induction n as [|n IH];
    intros a b fa fb e x_vals fx_vals g xs fxs g' He Hall.
  - cbn. intros [= <- <- <-]. intros i c Hc _. exact (Hall i c Hc).
  - cbn [bisect_plot_loop].
    set (e' := half e). set (c := add a e').
    assert (He1 : e' = Nat.iter (length (x_vals ++ [c])) half (sub b0 a0)).
    { rewrite length_app. cbn. rewrite Nat.add_1_r. cbn. unfold e'. rewrite He.
      reflexivity. }
    destruct (ltb (abs e') err1 || ltb (abs (f c)) epsilon) eqn:Htest.
    + intros [= <- <- <-]. intros i z Hz [w Hw].
      apply lookup_lt_Some in Hw. rewrite length_app in Hw. cbn in Hw.
      rewrite lookup_app_l in Hz by lia. exact (Hall i z Hz).
    + assert (Hall1 : forall i z, (x_vals ++ [c]) !! i = Some z ->
                ltb (abs (Nat.iter (S i) half (sub b0 a0))) err1
                || ltb (abs (f z)) epsilon = false).
      { intros i z Hz. apply lookup_snoc_Some in Hz as [[_ Hz]|[-> <-]].
        - exact (Hall i z Hz).
        - change (Nat.iter (S (length x_vals)) half (sub b0 a0))
            with (half (Nat.iter (length x_vals) half (sub b0 a0))).
          rewrite <- He. exact Htest. }
      destruct (negb (sgn (f c) =? sgn (f a))%Z); intros Hrun;
        eapply IH in Hrun; eassumption.
Qed.

(** X4. A plotting engine stops at the first iterate on which its
    convergence test succeeds: in the returned [x_vals], every bisection
    midpoint, Newton step and secant step that is followed by a further
    entry had failed both tolerance tests. *)
Theorem plot_stops_at_first_success :
  (forall a b M xs fxs,
     bisect_method_with_plot zero add sub half abs ltb a b M err1 epsilon f
       = Return (Seqs xs fxs) ->
     bisect_retries a b xs)
  /\ (forall x0 nmax xs fxs,
     newton_method_with_plot sub div abs ltb f fprime x0 nmax err1 err2 epsilon
       = Return (Seqs xs fxs) ->
     chain_inner newton_retry xs)
  /\ (forall x0 x1 nmax xs fxs,
     secant_method_with_plot sub mul div abs ltb f x0 x1 nmax err1 err2 epsilon
       = Return (Seqs xs fxs) ->
     chain3_inner secant_retry xs).
Proof.
  split; [|split].
  - intros a b M xs fxs.
    unfold bisect_method_with_plot, bisect_plot_run.
    destruct (sgn (f a) =? sgn (f b))%Z; [discriminate|].
    destruct (bisect_plot_loop _ _ _ _ _ _ _ _ _ _ _ _ _ _ _ _) as [r g] eqn:Hrun.
    cbn [fst]. intros ->.
    eapply (bplot_loop_retries a b) in Hrun; [exact Hrun | reflexivity |].
    intros i c Hc. destruct i; discriminate.
  - intros x0 nmax xs fxs.
    unfold newton_method_with_plot, newton_plot_run.
    destruct (newton_plot_loop _ _ _ _ _ _ _ _ _ _ _ _ _ _ _) as [r g] eqn:Hrun.
    cbn [fst]. intros ->.
    apply nplot_loop_chain in Hrun as (_ & Hi & _); try reflexivity.
    + exact Hi.
    + apply chain_one.
    + apply chain_inner_short. cbn. lia.
    + intros y z Hyz. apply ends_with_lookup in Hyz as (i & Hlen & _).
      cbn in Hlen. lia.
  - intros x0 x1 nmax xs fxs.
    unfold secant_method_with_plot, secant_plot_run.
    destruct (secant_plot_loop _ _ _ _ _ _ _ _ _ _ _ _ _ _ _ _ _) as [r g] eqn:Hrun.
    cbn [fst]. intros ->.
    apply splot_loop_chain in Hrun as (_ & Hi & _); try reflexivity.
    + exact Hi.
    + exists []. reflexivity.
    + apply chain3_short. cbn. lia.
    + apply chain3_inner_short. cbn. lia.
    + intros i a b c Hlen. cbn in Hlen. lia.
Qed.

(** *** The plain variants against the plotting ones *)

Lemma last_report_bloop (n : nat) :
  forall a b fa fb fa' fb' e x_vals fx_vals g g2,
    (bloop n a b fa fb e g2).1
    = last_report RootFoundAt (bplot_loop n a b fa' fb' e x_vals fx_vals g).
Proof.
  induction n as [|n IH]; intros a b fa fb fa' fb' e x_vals fx_vals g g2.
  - cbn. destruct (last x_vals), (last fx_vals); reflexivity.
  - cbn [bisect_loop bisect_plot_loop].
    destruct (ltb (abs (half e)) err1 || ltb (abs (f (add a (half e)))) epsilon).
    + unfold last_report. cbn. rewrite !last_snoc. reflexivity.
    + destruct (negb (sgn (f (add a (half e))) =? sgn (f a))%Z); apply IH.
Qed.

Lemma last_report_nloop (n : nat) :
  forall x fx x_vals fx_vals g g2,
    (nloop n x fx g2).1
    = last_report ZeroAt (nplot_loop n x fx x_vals fx_vals g).
Proof.
  induction n as [|n IH]; intros x fx x_vals fx_vals g g2.
  - cbn. destruct (last x_vals), (last fx_vals); reflexivity.
  - cbn [newton_loop newton_plot_loop].
    destruct (ltb (abs (fprime x)) epsilon).
    + unfold last_report. cbn. destruct (last x_vals), (last fx_vals); reflexivity.
    + destruct (div fx (fprime x)) as [d|]; [|reflexivity].
      destruct (ltb (abs d) err1 || ltb (abs (f (sub x d))) err2).
      * unfold last_report. cbn. rewrite !last_snoc. reflexivity.
      * apply IH.
Qed.

Lemma last_report_sloop (n : nat) :
  forall x0 x1 fx0 fx1 x_vals fx_vals g g2,
    (sloop n x0 x1 fx0 fx1 g2).1
    = last_report ZeroAt (splot_loop n x0 x1 fx0 fx1 x_vals fx_vals g).
Proof.
  induction n as [|n IH]; intros x0 x1 fx0 fx1 x_vals fx_vals g g2.
  - cbn. destruct (last x_vals), (last fx_vals); reflexivity.
  - cbn [secant_loop secant_plot_loop].
    destruct (ltb (abs (sub fx1 fx0)) epsilon).
    + unfold last_report. cbn. destruct (last x_vals), (last fx_vals); reflexivity.
    + destruct (div (mul fx1 (sub x1 x0)) (sub fx1 fx0)) as [d|]; [|reflexivity].
      destruct (ltb (abs d) err1 || ltb (abs (f (sub x1 d))) err2).
      * unfold last_report. cbn. rewrite !last_snoc. reflexivity.
      * apply IH.
Qed.

(** X5. A plain variant called with cap [n + 1] makes the passes of its
    plotting sibling called with cap [n] (the plain loops run over
    [range(1, n)], the plotting ones over [range(1, n + 1)]) and returns
    the sibling's last iterate and function value in a string if that run
    converged, [None] if it ran out or tripped the guard, "Same Sign" or a
    [ZeroDivisionError] if the sibling gives that. *)
Theorem plain_reports_plot_run (a b : R) (M : Z) (x0 : R) (nmax : Z)
    (s0 s1 : R) (smax : Z) :
  bisect_method zero add sub half abs ltb a b (M + 1) err1 epsilon f
    = last_report RootFoundAt
        (bisect_plot_run zero add sub half abs ltb err1 epsilon f a b M)
  /\ newton_method sub div abs ltb f fprime x0 (nmax + 1) err1 err2 epsilon
    = last_report ZeroAt
        (newton_plot_run sub div abs ltb f fprime err1 err2 epsilon x0 nmax)
  /\ secant_method sub mul div abs ltb f s0 s1 (smax + 1) err1 err2 epsilon
    = last_report ZeroAt
        (secant_plot_run sub mul div abs ltb f err1 err2 epsilon s0 s1 smax).
Proof.
  split; [|split].
  - unfold bisect_method, bisect_method_run, bisect_plot_run.
    destruct (sgn (f a) =? sgn (f b))%Z; [reflexivity|].
    apply last_report_bloop.
  - apply last_report_nloop.
  - apply last_report_sloop.
Qed.

(** *** The animation variants *)

Lemma nanim_loop_inv (n : nat) :
  forall x x_vals fx_vals tangents g xs fxs tg g',
    last x_vals = Some x ->
    fx_vals = map f x_vals ->
    length x_vals = S (length tangents) ->
    tangents_of x_vals tangents ->
    chain newton_link x_vals ->
    nanim_loop n x x_vals fx_vals tangents g = (Return (SeqsWith xs fxs tg), g') ->
    x_vals `prefix_of` xs /\ fx_vals `prefix_of` fxs
    /\ fxs = map f xs
    /\ length xs = S (length tg)
    /\ length tg <= length tangents + n
    /\ tangents_of xs tg
    /\ chain newton_link xs.
Proof.
  induction n as [|n IH];
    intros x x_vals fx_vals tangents g xs fxs tg g' Hl Hfx Hlen Ht Hc.
  - cbn. intros [= <- <- <- <-].
    refine (conj _ (conj _ (conj Hfx (conj Hlen (conj _ (conj Ht Hc))))));
      [reflexivity | reflexivity | lia].
  - cbn [newton_anim_loop].
    destruct (ltb (abs (fprime x)) epsilon) eqn:Hguard.
    + intros [= <- <- <- <-].
      refine (conj _ (conj _ (conj Hfx (conj Hlen (conj _ (conj Ht Hc))))));
        [reflexivity | reflexivity | lia].
    + destruct (div (f x) (fprime x)) as [d|] eqn:Hdiv; [|discriminate].
      set (x' := sub x d). intros Hrun.
      apply IH in Hrun as (Hp & Hpf & Hm & Hl' & Hb & Ht' & Hc').
      * refine (conj _ (conj _ (conj Hm (conj Hl' (conj _ (conj Ht' Hc')))))).
        -- etrans; [apply prefix_app_r; reflexivity | exact Hp].
        -- etrans; [apply prefix_app_r; reflexivity | exact Hpf].
        -- rewrite length_app in Hb. cbn in Hb. lia.
      * apply last_snoc.
      * rewrite map_app, Hfx. reflexivity.
      * rewrite !length_app. cbn. lia.
      * intros i t Hi. apply lookup_snoc_Some in Hi as [[Hlt Hi]|[Heq <-]].
        -- destruct (Ht i t Hi) as (xi & Hxi & ->).
           exists xi. split; [apply lookup_app_l_Some; exact Hxi | reflexivity].
        -- exists x. split; [|reflexivity].
           apply lookup_app_l_Some. rewrite last_lookup in Hl.
           replace (pred (length x_vals)) with i in Hl by lia. exact Hl.
      * apply (chain_snoc _ _ x); [exact Hc | exact Hl |].
        split; [exact Hguard|]. exists d. auto.
Qed.

(** X6. What [newton_animation] returns: [x_vals] starts with [x0] and is
    Newton's iteration (as for the plotting variant), [fx_vals] lists the
    function values of [x_vals], and there is one tangent per step, at most
    [max(nmax, 0)] of them, the [i]-th being [(x, f(x), f'(x))] for the
    [i]-th iterate [x]: the point the step starts from. *)
Theorem newton_animation_tangents (x0 : R) (nmax : Z)
    (xs fxs : list R) (tg : list (list R)) :
  newton_animation sub div abs ltb f fprime x0 nmax epsilon
    = Return (SeqsWith xs fxs tg) ->
  xs !! 0 = Some x0
  /\ fxs = map f xs
  /\ length xs = S (length tg)
  /\ length tg <= Z.to_nat nmax
  /\ tangents_of xs tg
  /\ chain newton_link xs.
Proof.
  unfold newton_animation, newton_anim_run.
  replace (range_len 0 nmax) with (Z.to_nat nmax)
    by (unfold range_len; f_equal; lia).
  destruct (newton_anim_loop _ _ _ _ _ _ _ _ _ _ _ _ _) as [r g] eqn:Hrun.
  cbn [fst]. intros ->.
  apply nanim_loop_inv in Hrun as ([k ->] & _ & Hm & Hl & Hb & Ht & Hc);
    try reflexivity.
  - refine (conj _ (conj Hm (conj Hl (conj _ (conj Ht Hc)))));
      [reflexivity | cbn in Hb; lia].
  - intros i t Hi. destruct i; discriminate.
  - apply chain_one.
Qed.

Lemma ends_with_map (l : list R) y x :
  ends_with l y x -> ends_with (map f l) (f y) (f x).
Proof. intros [pre ->]. exists (map f pre). rewrite map_app. reflexivity. Qed.

Lemma sanim_loop_inv (n : nat) :
  forall x_vals fx_vals secants g x0 x1 xs fxs sc g',
    ends_with x_vals x0 x1 ->
    fx_vals = map f x_vals ->
    length x_vals = S (S (length secants)) ->
    secants_of x_vals secants ->
    chain3 secant_link x_vals ->
    sanim_loop n x_vals fx_vals secants g = (Return (SeqsWith xs fxs sc), g') ->
    x_vals `prefix_of` xs /\ fx_vals `prefix_of` fxs
    /\ fxs = map f xs
    /\ length xs = S (S (length sc))
    /\ length sc <= length secants + n
    /\ secants_of xs sc
    /\ chain3 secant_link xs.
Proof.
  induction n as [|n IH];
    intros x_vals fx_vals secants g x0 x1 xs fxs sc g' He Hfx Hlen Hs Hc.
  - cbn. intros [= <- <- <- <-].
    refine (conj _ (conj _ (conj Hfx (conj Hlen (conj _ (conj Hs Hc))))));
      [reflexivity | reflexivity | lia].
  - cbn [secant_anim_loop].
    destruct (ends_with_from_end _ _ _ He) as [-> ->].
    pose proof (ends_with_map _ _ _ He) as Hef. rewrite <- Hfx in Hef.
    destruct (ends_with_from_end _ _ _ Hef) as [-> ->].
    destruct (ltb (abs (sub (f x1) (f x0))) epsilon) eqn:Hguard.
    + intros [= <- <- <- <-].
      refine (conj _ (conj _ (conj Hfx (conj Hlen (conj _ (conj Hs Hc))))));
        [reflexivity | reflexivity | lia].
    + destruct (div (mul (f x1) (sub x1 x0)) (sub (f x1) (f x0))) as [d|] eqn:Hdiv;
        [|discriminate].
      set (x2 := sub x1 d). intros Hrun.
      pose proof He as He'.
      apply ends_with_lookup in He' as (j & Hj & Hy & Hx).
      eapply IH in Hrun as (Hp & Hpf & Hm & Hl' & Hb & Hs' & Hc').
      * refine (conj _ (conj _ (conj Hm (conj Hl' (conj _ (conj Hs' Hc')))))).
        -- etrans; [apply prefix_app_r; reflexivity | exact Hp].
        -- etrans; [apply prefix_app_r; reflexivity | exact Hpf].
        -- rewrite length_app in Hb. cbn in Hb. lia.
      * eapply ends_with_snoc. exact He.
      * rewrite map_app, Hfx. reflexivity.
      * rewrite !length_app. cbn. lia.
      * intros i t Hi. apply lookup_snoc_Some in Hi as [[Hlt Hi]|[Heq <-]].
        -- destruct (Hs i t Hi) as (xi & xi' & Hxi & Hxi' & ->).
           exists xi, xi'. split; [apply lookup_app_l_Some; exact Hxi|].
           split; [apply lookup_app_l_Some; exact Hxi' | reflexivity].
        -- assert (j = i) as -> by lia.
           exists x0, x1. split; [apply lookup_app_l_Some; exact Hy|].
           split; [apply lookup_app_l_Some; exact Hx | reflexivity].
      * apply (chain3_snoc _ _ x0 x1); [exact Hc | exact He |].
        split; [exact Hguard|]. exists d. auto.
Qed.

(** X7. [secant_animation] never fails on its negative subscripts, and
    what it returns is the secant iteration: [x_vals] starts with the two
    seeds, [fx_vals] lists the function values of [x_vals], and there is
    one secant per step, at most [max(nmax, 0)] of them, the [i]-th being
    [(x, f(x), x', f(x'))] for the [i]-th and [(i+1)]-th iterates: the two
    points the step is drawn through. *)
Theorem secant_animation_secants (x0 x1 : R) (nmax : Z) :
  secant_animation sub mul div abs ltb f x0 x1 nmax epsilon <> IndexError
  /\ forall xs fxs sc,
       secant_animation sub mul div abs ltb f x0 x1 nmax epsilon
         = Return (SeqsWith xs fxs sc) ->
       xs !! 0 = Some x0 /\ xs !! 1 = Some x1
       /\ fxs = map f xs
       /\ length xs = S (S (length sc))
       /\ length sc <= Z.to_nat nmax
       /\ secants_of xs sc
       /\ chain3 secant_link xs.
Proof.
  unfold secant_animation, secant_anim_run.
  replace (range_len 0 nmax) with (Z.to_nat nmax)
    by (unfold range_len; f_equal; lia).
  split.
  - apply (sanim_loop_ok (Z.to_nat nmax) [x0; x1] [f x0; f x1] [] ghost0
             x0 x1 (f x0) (f x1)); [exists []; reflexivity ..| constructor].
  - intros xs fxs sc.
    destruct (secant_anim_loop _ _ _ _ _ _ _ _ _ _ _ _) as [r g] eqn:Hrun.
    cbn [fst]. intros ->.
    eapply (sanim_loop_inv _ _ _ _ _ x0 x1) in Hrun
      as ([k ->] & _ & Hm & Hl & Hb & Hs & Hc); try reflexivity.
    + refine (conj _ (conj _ (conj Hm (conj Hl (conj _ (conj Hs Hc))))));
        [reflexivity | reflexivity | cbn in Hb; lia].
    + exists []. reflexivity.
    + intros i t Hi. destruct i; discriminate.
    + apply chain3_short. cbn. lia.
Qed.

Lemma banim_drop_detail (n : nat) :
  forall a b fa fb e x_vals fx_vals intervals g g2,
    drop_detail (banim_loop n a b fa fb e x_vals fx_vals intervals g2).1
    = (bisect_plot_loop zero add half abs ltb epsilon epsilon f n
         a b fa fb e x_vals fx_vals g).1.
Proof.
  induction n as [|n IH]; intros a b fa fb e x_vals fx_vals intervals g g2;
    [reflexivity|].
  cbn [bisect_anim_loop bisect_plot_loop].
  destruct (ltb (abs (half e)) epsilon || ltb (abs (f (add a (half e)))) epsilon);
    [reflexivity|].
  destruct (negb (sgn (f (add a (half e))) =? sgn (f a))%Z); apply IH.
Qed.

Lemma nanim_loop_prefix (n : nat) :
  forall x x_vals fx_vals tangents g xs fxs tg g',
    nanim_loop n x x_vals fx_vals tangents g = (Return (SeqsWith xs fxs tg), g') ->
    x_vals `prefix_of` xs /\ fx_vals `prefix_of` fxs.
Proof.
  induction n as [|n IH]; intros x x_vals fx_vals tangents g xs fxs tg g'.
  - cbn. intros [= <- <- <- <-]. split; reflexivity.
  - cbn [newton_anim_loop].
    destruct (ltb (abs (fprime x)) epsilon);
      [intros [= <- <- <- <-]; split; reflexivity|].
    destruct (div (f x) (fprime x)) as [d|]; [|discriminate].
    intros Hrun. apply IH in Hrun as [Hp Hpf].
    split; (etrans; [apply prefix_app_r; reflexivity | eassumption]).
Qed.

Lemma sanim_loop_prefix (n : nat) :
  forall x_vals fx_vals secants g xs fxs sc g',
    sanim_loop n x_vals fx_vals secants g = (Return (SeqsWith xs fxs sc), g') ->
    x_vals `prefix_of` xs /\ fx_vals `prefix_of` fxs.
Proof.
  induction n as [|n IH]; intros x_vals fx_vals secants g xs fxs sc g'.
  - cbn. intros [= <- <- <- <-]. split; reflexivity.
  - cbn [secant_anim_loop].
    destruct (from_end 0 fx_vals) as [fx_1|]; [|discriminate].
    destruct (from_end 1 fx_vals) as [fx_2|]; [|discriminate].
    destruct (from_end 0 x_vals) as [x_1|]; [|discriminate].
    destruct (from_end 1 x_vals) as [x_2|]; [|discriminate].
    destruct (ltb (abs (sub fx_1 fx_2)) epsilon);
      [intros [= <- <- <- <-]; split; reflexivity|].
    destruct (div (mul fx_1 (sub x_1 x_2)) (sub fx_1 fx_2)) as [d|]; [|discriminate].
    intros Hrun. apply IH in Hrun as [Hp Hpf].
    split; (etrans; [apply prefix_app_r; reflexivity | eassumption]).
Qed.

Lemma nanim_extends (n : nat) :
  forall x fx x_vals fx_vals g tangents g2,
    fx = f x ->
    extends_plot (nplot_loop n x fx x_vals fx_vals g)
      (nanim_loop n x x_vals fx_vals tangents g2).1.
Proof.
  induction n as [|n IH]; intros x fx x_vals fx_vals g tangents g2 ->;
    [reflexivity|].
  cbn [newton_plot_loop newton_anim_loop].
  destruct (ltb (abs (fprime x)) epsilon); [reflexivity|].
  destruct (div (f x) (fprime x)) as [d|]; [|reflexivity].
  destruct (ltb (abs d) err1 || ltb (abs (f (sub x d))) err2).
  - unfold extends_plot. cbn [fst snd exit_by leave].
    intros xs' fxs' detail Hra.
    destruct (newton_anim_loop _ _ _ _ _ _ _ _ _ _ _ _ _) as [r ga] eqn:Hrun.
    cbn [fst] in Hra. subst r.
    exact (nanim_loop_prefix _ _ _ _ _ _ _ _ _ _ Hrun).
  - apply IH. reflexivity.
Qed.

Lemma sanim_extends (n : nat) :
  forall x0 x1 fx0 fx1 pre fpre g secants g2,
    extends_plot
      (splot_loop n x0 x1 fx0 fx1 (pre ++ [x0; x1]) (fpre ++ [fx0; fx1]) g)
      (sanim_loop n (pre ++ [x0; x1]) (fpre ++ [fx0; fx1]) secants g2).1.
Proof.
  induction n as [|n IH]; intros x0 x1 fx0 fx1 pre fpre g secants g2;
    [reflexivity|].
  cbn [secant_plot_loop secant_anim_loop].
  destruct (ends_with_from_end (pre ++ [x0; x1]) x0 x1) as [-> ->];
    [exists pre; reflexivity|].
  destruct (ends_with_from_end (fpre ++ [fx0; fx1]) fx0 fx1) as [-> ->];
    [exists fpre; reflexivity|].
  destruct (ltb (abs (sub fx1 fx0)) epsilon); [reflexivity|].
  destruct (div (mul fx1 (sub x1 x0)) (sub fx1 fx0)) as [d|]; [|reflexivity].
  destruct (ltb (abs d) err1 || ltb (abs (f (sub x1 d))) err2).
  - unfold extends_plot. cbn [fst snd exit_by leave].
    intros xs' fxs' detail Hra.
    destruct (secant_anim_loop _ _ _ _ _ _ _ _ _ _ _ _) as [r ga] eqn:Hrun.
    cbn [fst] in Hra. subst r.
    exact (sanim_loop_prefix _ _ _ _ _ _ _ _ _ Hrun).
  - replace ((pre ++ [x0; x1]) ++ [sub x1 d])
      with ((pre ++ [x0]) ++ [x1; sub x1 d])
      by (rewrite <- !app_assoc; reflexivity).
    replace ((fpre ++ [fx0; fx1]) ++ [f (sub x1 d)])
      with ((fpre ++ [fx0]) ++ [fx1; f (sub x1 d)])
      by (rewrite <- !app_assoc; reflexivity).
    apply IH.
Qed.

(** X8. The animation variants against the plotting ones, on the same
    arguments.  [bisect_animation] (one tolerance for both tests) returns
    the sequences of [bisect_method_with_plot] called with that tolerance
    twice, or "Same Sign" as it does.  [newton_animation] and
    [secant_animation] return the sequences of the plotting variant where
    that ran out or tripped the guard, and raise where it raises; where it
    stopped on its convergence test they go on, and the plotted sequences
    are the beginning of the animated ones. *)
Theorem animation_extends_plot (a b : R) (M : Z) (x0 : R) (nmax : Z)
    (s0 s1 : R) (smax : Z) :
  drop_detail (bisect_animation zero add sub half abs ltb a b M epsilon f)
    = bisect_method_with_plot zero add sub half abs ltb a b M epsilon epsilon f
  /\ extends_plot
       (newton_plot_run sub div abs ltb f fprime err1 err2 epsilon x0 nmax)
       (newton_animation sub div abs ltb f fprime x0 nmax epsilon)
  /\ extends_plot
       (secant_plot_run sub mul div abs ltb f err1 err2 epsilon s0 s1 smax)
       (secant_animation sub mul div abs ltb f s0 s1 smax epsilon).
Proof.
  split; [|split].
  - unfold bisect_animation, bisect_method_with_plot, bisect_anim_run,
      bisect_plot_run.
    destruct (sgn (f a) =? sgn (f b))%Z; [reflexivity|].
    apply banim_drop_detail.
  - unfold newton_animation, newton_anim_run, newton_plot_run.
    replace (range_len 0 nmax) with (range_len 1 (nmax + 1))
      by (unfold range_len; f_equal; lia).
    apply nanim_extends. reflexivity.
  - unfold secant_animation, secant_anim_run, secant_plot_run.
    replace (range_len 0 smax) with (range_len 1 (smax + 1))
      by (unfold range_len; f_equal; lia).
    apply (sanim_extends _ s0 s1 (f s0) (f s1) [] []).
Qed.

(** *** Bisection ends once the half-width is small *)

Lemma bplot_loop_half_width (e0 : R) (k n : nat) :
  forall a b fa fb e x_vals fx_vals g,
    e = Nat.iter (passes g) half e0 ->
    passes g < k -> k <= passes g + n ->
    ltb (abs (Nat.iter k half e0)) err1 = true ->
    exit_by (bplot_loop n a b fa fb e x_vals fx_vals g).2 = Converged
    /\ passes (bplot_loop n a b fa fb e x_vals fx_vals g).2 <= k.
Proof.
  induction n as [|n IH]; intros a b fa fb e x_vals fx_vals g He Hlt Hle Hk;
    [lia|].
  cbn [bisect_plot_loop].
  set (g1 := log_step (half e) (log_bracket a b (enter_pass g))).
  assert (He1 : half e = Nat.iter (passes g1) half e0)
    by (cbn; rewrite He; reflexivity).
  destruct (ltb (abs (half e)) err1 || ltb (abs (f (add a (half e)))) epsilon)
    eqn:Htest.
  - cbn. split; [reflexivity | lia].
  - assert (Hlt1 : passes g1 < k).
    { cbn. destruct (decide (S (passes g) = k)) as [E|E]; [|lia].
      exfalso. rewrite He1 in Htest. cbn [passes g1 log_step log_bracket enter_pass] in Htest.
      rewrite E, Hk in Htest. discriminate. }
    destruct (negb (sgn (f (add a (half e))) =? sgn (f a))%Z);
      apply IH; try assumption; cbn; cbn in Hlt1; lia.
Qed.

(** X9. Bisection cannot run past the pass whose half-width is below the
    step tolerance: with a sign change at the endpoints, if the [k]-th
    halving of [b - a] tests below [err1] and the cap allows [k] passes,
    [bisect_method_with_plot] leaves by its convergence test after at most
    [k] passes, with between 1 and [k] midpoints. *)
Theorem bisect_converges_by_half_width (a b : R) (M : Z) (k : nat) :
  sign zero ltb (f a) <> sign zero ltb (f b) ->
  1 <= k <= Z.to_nat M ->
  ltb (abs (Nat.iter k half (sub b a))) err1 = true ->
  exists xs fxs g,
    bisect_plot_run zero add sub half abs ltb err1 epsilon f a b M
      = (Return (Seqs xs fxs), g)
    /\ exit_by g = Converged
    /\ passes g <= k
    /\ 1 <= length xs <= k.
Proof.
  intros Hab Hk Hsmall. unfold bisect_plot_run.
  destruct (Z.eqb_spec (sgn (f a)) (sgn (f b))) as [E|_]; [contradiction|].
  rewrite range_len_plot.
  destruct (bplot_loop_inv (Z.to_nat M) a b (f a) (f b) (sub b a)
              [] [] ghost0 Hab plot_inv_ghost0) as (xs & fxs & g & Hrun & Hinv).
  pose proof (bplot_loop_half_width (sub b a) k (Z.to_nat M) a b (f a) (f b)
                (sub b a) [] [] ghost0 eq_refl) as Hw.
  cbn [passes ghost0] in Hw. rewrite Hrun in Hw. cbn [snd] in Hw.
  destruct Hw as [Hex Hp]; [lia | lia | exact Hsmall |].
  exists xs, fxs, g. split; [exact Hrun|]. split; [exact Hex|].
  split; [exact Hp|].
  pose proof (plot_inv_length _ _ _ Hinv) as Hlen.
  split; [|lia].
  destruct xs; [|cbn; lia].
  exfalso. cbn in Hlen.
  pose proof (bplot_loop_exit (Z.to_nat M) a b (f a) (f b) (sub b a) [] [] ghost0)
    as Hx.
  cbn zeta in Hx. rewrite Hrun in Hx. cbn [snd fst] in Hx.
  rewrite Hex in Hx. destruct Hx as [_ [Hv|Hs]].
  - destruct Hv as (xs' & fxs' & x & Hr & Hl & _). cbn in Hr.
    injection Hr as <- <-. discriminate.
  - destruct Hs as (d & Hl & _). cbn in Hl.
    destruct Hinv as (_ & _ & _ & _ & Hls & _).
    rewrite <- Hlen in Hls. destruct (steps g); discriminate.
Qed.

(** *** The shape of what the plotting and animation variants return *)

Lemma bplot_loop_shape (n : nat) :
  forall a b fa fb e x_vals fx_vals g,
  exists xs fxs g',
    bplot_loop n a b fa fb e x_vals fx_vals g = (Return (Seqs xs fxs), g')
    /\ length x_vals + min 1 n <= length xs <= length x_vals + n
    /\ (fx_vals = map f x_vals -> fxs = map f xs).
Proof.
  induction n as [|n IH]; intros a b fa fb e x_vals fx_vals g.
  - exists x_vals, fx_vals, (leave Exhausted g). cbn.
    split; [reflexivity | split; [lia | auto]].
  - cbn [bisect_plot_loop].
    set (c := add a (half e)).
    assert (Hm : fx_vals = map f x_vals ->
                 fx_vals ++ [f c] = map f (x_vals ++ [c])).
    { intros ->. rewrite map_app. reflexivity. }
    destruct (ltb (abs (half e)) err1 || ltb (abs (f c)) epsilon).
    + eexists _, _, _. split; [reflexivity|].
      rewrite length_app. cbn. split; [lia | exact Hm].
    + destruct (negb (sgn (f c) =? sgn (f a))%Z).
      * destruct (IH a c fa (f c) (half e) (x_vals ++ [c]) (fx_vals ++ [f c])
                    (log_step (half e) (log_bracket a b (enter_pass g))))
          as (xs & fxs & g' & Hr & Hle & Hmap).
        exists xs, fxs, g'. rewrite length_app in Hle. cbn in Hle.
        split; [exact Hr | split; [lia | auto]].
      * destruct (IH c b (f c) fb (half e) (x_vals ++ [c]) (fx_vals ++ [f c])
                    (log_step (half e) (log_bracket a b (enter_pass g))))
          as (xs & fxs & g' & Hr & Hle & Hmap).
        exists xs, fxs, g'. rewrite length_app in Hle. cbn in Hle.
        split; [exact Hr | split; [lia | auto]].
Qed.

Lemma bisect_plot_shape (a b : R) (M : Z) :
  (sgn (f a) = sgn (f b)
   /\ bisect_method_with_plot zero add sub half abs ltb a b M err1 epsilon f
      = Return SameSign)
  \/ (sgn (f a) <> sgn (f b)
      /\ exists xs fxs,
           bisect_method_with_plot zero add sub half abs ltb a b M err1 epsilon f
           = Return (Seqs xs fxs)
           /\ fxs = map f xs
           /\ min 1 (Z.to_nat M) <= length xs <= Z.to_nat M).
Proof.
  unfold bisect_method_with_plot, bisect_plot_run.
  destruct (sgn (f a) =? sgn (f b))%Z eqn:Hs.
  - left. apply Z.eqb_eq in Hs. split; [exact Hs | reflexivity].
  - right. apply Z.eqb_neq in Hs. split; [exact Hs|].
    rewrite range_len_plot.
    destruct (bplot_loop_shape (Z.to_nat M) a b (f a) (f b) (sub b a) [] [] ghost0)
      as (xs & fxs & g' & Hr & Hle & Hmap).
    exists xs, fxs. rewrite Hr. cbn [length] in Hle.
    split; [reflexivity | split; [auto | lia]].
Qed.

Lemma nplot_loop_shape (n : nat) :
  forall x fx x_vals fx_vals g,
    (nplot_loop n x fx x_vals fx_vals g).1 = ZeroDivisionError
    \/ exists xs fxs,
         (nplot_loop n x fx x_vals fx_vals g).1 = Return (Seqs xs fxs)
         /\ x_vals `prefix_of` xs
         /\ (fx_vals = map f x_vals -> fxs = map f xs).
Proof.
  induction n as [|n IH]; intros x fx x_vals fx_vals g.
  - right. exists x_vals, fx_vals. cbn. auto.
  - cbn [newton_plot_loop].
    destruct (ltb (abs (fprime x)) epsilon).
    + right. exists x_vals, fx_vals. cbn. auto.
    + destruct (div fx (fprime x)) as [d|]; [|left; reflexivity].
      set (x' := sub x d).
      assert (Hm : fx_vals = map f x_vals ->
                   fx_vals ++ [f x'] = map f (x_vals ++ [x'])).
      { intros ->. rewrite map_app. reflexivity. }
      destruct (ltb (abs d) err1 || ltb (abs (f x')) err2).
      * right. eexists _, _. split; [reflexivity|].
        split; [apply prefix_app_r; reflexivity | exact Hm].
      * destruct (IH x' (f x') (x_vals ++ [x']) (fx_vals ++ [f x'])
                    (log_step d (log_div fx (fprime x) (enter_pass g))))
          as [Hz | (xs & fxs & Hr & Hle & Hmap)]; [left; exact Hz|].
        right. exists xs, fxs.
        split; [exact Hr | split; [|auto]].
        etransitivity; [|exact Hle]. apply prefix_app_r. reflexivity.
Qed.

Lemma newton_plot_shape (x0 : R) (nmax : Z) :
  newton_method_with_plot sub div abs ltb f fprime x0 nmax err1 err2 epsilon
  = ZeroDivisionError
  \/ exists xs fxs,
       newton_method_with_plot sub div abs ltb f fprime x0 nmax err1 err2 epsilon
       = Return (Seqs xs fxs)
       /\ [x0] `prefix_of` xs /\ fxs = map f xs.
Proof.
  unfold newton_method_with_plot, newton_plot_run.
  destruct (nplot_loop_shape (range_len 1 (nmax + 1)) x0 (f x0) [x0] [f x0] ghost0)
    as [Hz | (xs & fxs & Hr & Hle & Hmap)]; [left; exact Hz|].
  right. exists xs, fxs. auto.
Qed.

Lemma splot_loop_shape (n : nat) :
  forall x0 x1 fx0 fx1 x_vals fx_vals g,
    (splot_loop n x0 x1 fx0 fx1 x_vals fx_vals g).1 = ZeroDivisionError
    \/ exists xs fxs,
         (splot_loop n x0 x1 fx0 fx1 x_vals fx_vals g).1 = Return (Seqs xs fxs)
         /\ x_vals `prefix_of` xs
         /\ (fx_vals = map f x_vals -> fxs = map f xs).
Proof.
  induction n as [|n IH]; intros x0 x1 fx0 fx1 x_vals fx_vals g.
  - right. exists x_vals, fx_vals. cbn. auto.
  - cbn [secant_plot_loop].
    destruct (ltb (abs (sub fx1 fx0)) epsilon).
    + right. exists x_vals, fx_vals. cbn. auto.
    + destruct (div (mul fx1 (sub x1 x0)) (sub fx1 fx0)) as [d|];
        [|left; reflexivity].
      set (x' := sub x1 d).
      assert (Hm : fx_vals = map f x_vals ->
                   fx_vals ++ [f x'] = map f (x_vals ++ [x'])).
      { intros ->. rewrite map_app. reflexivity. }
      destruct (ltb (abs d) err1 || ltb (abs (f x')) err2).
      * right. eexists _, _. split; [reflexivity|].
        split; [apply prefix_app_r; reflexivity | exact Hm].
      * destruct (IH x1 x' fx1 (f x') (x_vals ++ [x']) (fx_vals ++ [f x'])
                    (log_step d (log_div (mul fx1 (sub x1 x0)) (sub fx1 fx0)
                                   (enter_pass g))))
          as [Hz | (xs & fxs & Hr & Hle & Hmap)]; [left; exact Hz|].
        right. exists xs, fxs.
        split; [exact Hr | split; [|auto]].
        etransitivity; [|exact Hle]. apply prefix_app_r. reflexivity.
Qed.

Lemma secant_plot_shape (x0 x1 : R) (nmax : Z) :
  secant_method_with_plot sub mul div abs ltb f x0 x1 nmax err1 err2 epsilon
  = ZeroDivisionError
  \/ exists xs fxs,
       secant_method_with_plot sub mul div abs ltb f x0 x1 nmax err1 err2 epsilon
       = Return (Seqs xs fxs)
       /\ [x0; x1] `prefix_of` xs /\ fxs = map f xs.
Proof.
  unfold secant_method_with_plot, secant_plot_run.
  destruct (splot_loop_shape (range_len 1 (nmax + 1)) x0 x1 (f x0) (f x1)
              [x0; x1] [f x0; f x1] ghost0)
    as [Hz | (xs & fxs & Hr & Hle & Hmap)]; [left; exact Hz|].
  right. exists xs, fxs. auto.
Qed.

Lemma nanim_loop_shape (n : nat) :
  forall x x_vals fx_vals tangents g,
    (nanim_loop n x x_vals fx_vals tangents g).1 = ZeroDivisionError
    \/ exists xs fxs tg,
         (nanim_loop n x x_vals fx_vals tangents g).1
         = Return (SeqsWith xs fxs tg).
Proof.
  induction n as [|n IH]; intros x x_vals fx_vals tangents g.
  - right. eexists _, _, _. reflexivity.
  - cbn [newton_anim_loop].
    destruct (ltb (abs (fprime x)) epsilon).
    + right. eexists _, _, _. reflexivity.
    + destruct (div (f x) (fprime x)) as [d|]; [|left; reflexivity].
      apply IH.
Qed.

Lemma sanim_loop_shape (n : nat) :
  forall x_vals fx_vals secants g,
    2 <= length x_vals -> length fx_vals = length x_vals ->
    (sanim_loop n x_vals fx_vals secants g).1 = ZeroDivisionError
    \/ exists xs fxs sc,
         (sanim_loop n x_vals fx_vals secants g).1
         = Return (SeqsWith xs fxs sc).
Proof.
  induction n as [|n IH]; intros x_vals fx_vals secants g Hlen Hfx.
  - right. eexists _, _, _. reflexivity.
  - cbn [secant_anim_loop].
    assert (Hfe : forall k (l : list R), k < length l -> is_Some (from_end k l)).
    { intros k l Hk. unfold from_end. apply lookup_lt_is_Some.
      rewrite length_rev. exact Hk. }
    destruct (Hfe 0 fx_vals) as [fx_1 ->]; [lia|].
    destruct (Hfe 1 fx_vals) as [fx_2 ->]; [lia|].
    destruct (Hfe 0 x_vals) as [x_1 ->]; [lia|].
    destruct (Hfe 1 x_vals) as [x_2 ->]; [lia|].
    destruct (ltb (abs (sub fx_1 fx_2)) epsilon).
    + right. eexists _, _, _. reflexivity.
    + destruct (div (mul fx_1 (sub x_1 x_2)) (sub fx_1 fx_2)) as [d|];
        [|left; reflexivity].
      apply IH; rewrite !length_app; cbn; lia.
Qed.

Lemma animations_return_or_divide (x0 : R) (nmax : Z) (s0 s1 : R) (smax : Z) :
  newton_animation sub div abs ltb f fprime x0 nmax epsilon <> IndexError
  /\ secant_animation sub mul div abs ltb f s0 s1 smax epsilon <> IndexError.
Proof.
  unfold newton_animation, newton_anim_run, secant_animation, secant_anim_run.
  split.
  - destruct (nanim_loop_shape (range_len 0 nmax) x0 [x0] [f x0] [] ghost0)
      as [-> | (? & ? & ? & ->)]; discriminate.
  - destruct (sanim_loop_shape (range_len 0 smax) [s0; s1] [f s0; f s1] []
                ghost0) as [-> | (? & ? & ? & ->)];
      [cbn; lia | reflexivity | discriminate | discriminate].
Qed.

Lemma bisect_animation_shape (a b : R) (M : Z) :
  (sgn (f a) = sgn (f b)
   /\ bisect_animation zero add sub half abs ltb a b M epsilon f
      = Return SameSign)
  \/ (sgn (f a) <> sgn (f b)
      /\ exists xs fxs ivs,
           bisect_animation zero add sub half abs ltb a b M epsilon f
           = Return (SeqsWith xs fxs ivs)
           /\ fxs = map f xs
           /\ length ivs = length xs
           /\ Forall (fun iv => exists ai bi, iv = [ai; bi]) ivs).
Proof.
  unfold bisect_animation, bisect_anim_run.
  destruct (sgn (f a) =? sgn (f b))%Z eqn:Hs.
  - left. apply Z.eqb_eq in Hs. split; [exact Hs | reflexivity].
  - right. apply Z.eqb_neq in Hs. split; [exact Hs|].
    destruct (banim_loop_inv (range_len 1 (M + 1)) a b (f a) (f b) (sub b a)
                [] [] [] ghost0 Hs)
      as (xs & fxs & ivs & g' & Hr & Hinv).
    { repeat split; constructor. }
    exists xs, fxs, ivs. rewrite Hr.
    pose proof (anim_inv_intervals xs fxs ivs g' Hinv) as [Hlen Hall].
    destruct Hinv as (_ & _ & _ & Hfx).
    refine (conj eq_refl (conj Hfx (conj Hlen _))).
    eapply Forall_impl; [exact Hall|].
    intros iv (ai & bi & -> & _). eauto.
Qed.

Lemma newton_animation_shape (x0 : R) (nmax : Z) :
  newton_animation sub div abs ltb f fprime x0 nmax epsilon = ZeroDivisionError
  \/ exists xs fxs tg,
       newton_animation sub div abs ltb f fprime x0 nmax epsilon
       = Return (SeqsWith xs fxs tg)
       /\ fxs = map f xs
       /\ length xs = S (length tg)
       /\ tangents_of xs tg
       /\ chain newton_link xs.
Proof.
  unfold newton_animation, newton_anim_run.
  destruct (nanim_loop_shape (range_len 0 nmax) x0 [x0] [f x0] [] ghost0)
    as [Hz | (xs & fxs & tg & Hr)]; [left; exact Hz|].
  right. exists xs, fxs, tg. split; [exact Hr|].
  destruct (newton_anim_loop _ _ _ _ _ _ _ _ _ _ _ _ _) as [r g] eqn:Hrun.
  cbn [fst] in Hr. subst r.
  apply nanim_loop_inv in Hrun as (_ & _ & Hm & Hl & _ & Ht & Hc);
    try reflexivity.
  - auto.
  - intros i t Hi. destruct i; discriminate.
  - apply chain_one.
Qed.

Lemma secant_animation_shape (x0 x1 : R) (nmax : Z) :
  secant_animation sub mul div abs ltb f x0 x1 nmax epsilon = ZeroDivisionError
  \/ exists xs fxs sc,
       secant_animation sub mul div abs ltb f x0 x1 nmax epsilon
       = Return (SeqsWith xs fxs sc)
       /\ fxs = map f xs
       /\ length xs = S (S (length sc))
       /\ secants_of xs sc
       /\ chain3 secant_link xs.
Proof.
  unfold secant_animation, secant_anim_run.
  destruct (sanim_loop_shape (range_len 0 nmax) [x0; x1] [f x0; f x1] [] ghost0)
    as [Hz | (xs & fxs & sc & Hr)];
    [cbn; lia | reflexivity | left; exact Hz|].
  right. exists xs, fxs, sc. split; [exact Hr|].
  destruct (secant_anim_loop _ _ _ _ _ _ _ _ _ _ _ _) as [r g] eqn:Hrun.
  cbn [fst] in Hr. subst r.
  eapply (sanim_loop_inv _ _ _ _ _ x0 x1) in Hrun
    as (_ & _ & Hm & Hl & _ & Hs & Hc); try reflexivity.
  - auto.
  - exists []. reflexivity.
  - intros i t Hi. destruct i; discriminate.
  - apply chain3_short. cbn. lia.
Qed.

End Properties.

(** * The driver's numeric part *)

Section DriverProperties.
Context {R : Type}.
Variables zero one : R.
Variables add sub mul : R -> R -> R.
Variable half : R -> R.
Variable div : R -> R -> option R.
Variable abs : R -> R.
Variable ltb : R -> R -> bool.
Variable eqb : R -> R -> bool.
Variable log : R -> option R.
Variable of_nat : nat -> R.
Variables small tol : R.

Local Abbreviation rate_pair := (rate_of_pair zero one div eqb log).
Local Abbreviation conv_rate :=
  (calculate_convergence_rate zero one add sub div abs ltb eqb log of_nat small).
Local Abbreviation back :=
  (read_back zero one add sub div abs ltb eqb log of_nat small).
Local Abbreviation search := (bisect_search zero add sub half abs ltb tol).

Lemma from_end_0_last (l : list R) : from_end 0 l = last l.
Proof.
  unfold from_end. induction l as [|x l _] using rev_ind; [reflexivity|].
  rewrite rev_app_distr, last_snoc. reflexivity.
Qed.

Lemma comprehend_rate_raises (l : list (R * R)) e :
  comprehend rate_pair l = Raise e -> e = EValue \/ e = EZeroDivision.
Proof.
  induction l as [|[e1 e2] l IH]; cbn [comprehend]; [discriminate|].
  destruct (rate_pair (e1, e2)) as [y|e'] eqn:Hp.
  - destruct (comprehend rate_pair l); [discriminate|].
    intros [= ->]. apply IH. reflexivity.
  - intros [= <-]. unfold rate_of_pair in Hp.
    destruct (negb (eqb e1 one)); [|discriminate].
    destruct (log e2); [|injection Hp as <-; auto].
    destruct (log e1); [|injection Hp as <-; auto].
    destruct (div _ _); [discriminate | injection Hp as <-; auto].
Qed.

Lemma comprehend_length {A B} (h : A -> outcome B) (l : list A) ys :
  comprehend h l = Ok ys -> length ys = length l.
Proof.
  revert ys. induction l as [|x l IH]; cbn [comprehend]; intros ys.
  - intros [= <-]. reflexivity.
  - destruct (h x); [|discriminate].
    destruct (comprehend h l) as [ys'|]; [|discriminate].
    intros [= <-]. cbn. rewrite (IH ys'); reflexivity.
Qed.

Lemma last3_three (rates : list R) :
  3 <= length rates ->
  exists r1 r2 r3, drop (length rates - 3) rates = [r1; r2; r3].
Proof.
  intros Hl.
  assert (H3 : length (drop (length rates - 3) rates) = 3)
    by (rewrite length_drop; lia).
  destruct (drop (length rates - 3) rates) as [|r1 [|r2 [|r3 [|]]]];
    try discriminate.
  eauto.
Qed.

Lemma conv_rate_raises (x_vals : list R) e :
  conv_rate x_vals = Raise e -> e = EValue \/ e = EZeroDivision.
Proof.
  unfold calculate_convergence_rate.
  destruct (length x_vals <? 4) eqn:H4; [discriminate|].
  apply Nat.ltb_ge in H4. rewrite from_end_0_last.
  destruct (last x_vals) as [x_star|] eqn:Hlast.
  2:{ apply last_None in Hlast. subst x_vals. cbn in H4. lia. }
  cbv zeta. destruct (length _ <? 3); [discriminate|].
  destruct (comprehend rate_pair _) as [rates|e0] eqn:Hc.
  - destruct rates as [|r rates]; [discriminate|].
    destruct (div _ _); [discriminate|]. intros [= <-]. auto.
  - intros [= <-]. eapply comprehend_rate_raises. exact Hc.
Qed.

Lemma comprehend_Forall2 {A B} (h : A -> outcome B) (l : list A) ys :
  comprehend h l = Ok ys -> Forall2 (fun x y => h x = Ok y) l ys.
Proof.
  revert ys. induction l as [|x l IH]; cbn [comprehend]; intros ys.
  - intros [= <-]. constructor.
  - destruct (h x) as [y|] eqn:Hx; [|discriminate].
    destruct (comprehend h l) as [ys'|]; [|discriminate].
    intros [= <-]. constructor; [exact Hx | apply IH; reflexivity].
Qed.

(** X12. [calculate_convergence_rate] on fewer than five iterates answers
    "Insufficient data", although its first test only asks for four.  A
    number it returns comes from at least five iterates and is the mean of
    the last three rates: with [x_star] the last iterate, [rates] holds,
    pair by pair and in order, the rate [log(e2)/log(e1)] (or [0]) of every
    pair of [filtered_errors], and the number is
    [((0 + r1) + r2) + r3] over [3] for the last three entries [r1], [r2],
    [r3] of [rates].  It can only fail in [math.log] or in a division,
    never on a subscript. *)
Theorem convergence_rate_cases (x_vals : list R) :
  (length x_vals < 5 ->
   calculate_convergence_rate zero one add sub div abs ltb eqb log of_nat small
     x_vals = Ok InsufficientData)
  /\ (forall p,
        calculate_convergence_rate zero one add sub div abs ltb eqb log of_nat
          small x_vals = Ok (Rate p) ->
        5 <= length x_vals
        /\ exists x_star rates pre r1 r2 r3,
             last x_vals = Some x_star
             /\ Forall2 (fun pr r => rate_of_pair zero one div eqb log pr = Ok r)
                  (filtered_errors sub abs ltb small x_vals x_star) rates
             /\ rates = pre ++ [r1; r2; r3]
             /\ div (add (add (add zero r1) r2) r3) (of_nat 3) = Some p)
  /\ (forall e,
        calculate_convergence_rate zero one add sub div abs ltb eqb log of_nat
          small x_vals = Raise e ->
        5 <= length x_vals /\ (e = EValue \/ e = EZeroDivision)).
Proof.
  unfold calculate_convergence_rate.
  destruct (length x_vals <? 4) eqn:H4.
  { split; [reflexivity | split; intros ?; discriminate]. }
  apply Nat.ltb_ge in H4.
  rewrite from_end_0_last.
  destruct (last x_vals) as [x_star|] eqn:Hlast.
  2:{ apply last_None in Hlast. subst x_vals. cbn in H4. lia. }
  cbv zeta.
  change (List.filter _ _) with (filtered_errors sub abs ltb small x_vals x_star).
  set (filtered := filtered_errors sub abs ltb small x_vals x_star).
  assert (Hf : length filtered <= length x_vals - 2).
  { subst filtered. unfold filtered_errors.
    etransitivity; [apply filter_length_le|].
    rewrite length_zip, length_drop. unfold errors.
    rewrite length_map, length_take. lia. }
  destruct (length filtered <? 3) eqn:H3.
  { apply Nat.ltb_lt in H3.
    split; [reflexivity | split; intros ?; discriminate]. }
  apply Nat.ltb_ge in H3.
  assert (H5 : 5 <= length x_vals) by lia.
  destruct (comprehend rate_pair filtered) as [rates|e0] eqn:Hc.
  - pose proof (comprehend_Forall2 _ _ _ Hc) as HF2.
    apply comprehend_length in Hc.
    destruct (last3_three rates) as (r1 & r2 & r3 & Hd); [lia|].
    assert (Hrates : rates = take (length rates - 3) rates ++ [r1; r2; r3])
      by (rewrite <- Hd; symmetry; apply take_drop).
    destruct rates as [|r rates]; [cbn in Hc; lia|].
    rewrite Hd. cbn [foldl length].
    destruct (div _ _) as [p0|] eqn:Hdiv.
    + split; [lia|]. split; [|intros ?; discriminate].
      intros p [= <-]. split; [exact H5|].
      exists x_star, (r :: rates), (take (length (r :: rates) - 3) (r :: rates)),
        r1, r2, r3.
      split; [reflexivity|]. split; [exact HF2|]. split; [exact Hrates|].
      exact Hdiv.
    + split; [lia|]. split; [intros ?; discriminate|].
      intros e [= <-]. auto.
  - split; [lia|]. split; [intros ?; discriminate|].
    intros e [= <-]. split; [exact H5|].
    apply (comprehend_rate_raises filtered). exact Hc.
Qed.

Lemma read_back_cases used (x_vals fx_vals : list R) :
  1 <= length x_vals -> length fx_vals = length x_vals ->
  (forall rep, back used x_vals fx_vals = Ok rep ->
     exists p root froot,
       conv_rate x_vals = Ok p /\ last x_vals = Some root
       /\ last fx_vals = Some froot
       /\ rep = Report used p (length x_vals) root froot)
  /\ (forall e, back used x_vals fx_vals = Raise e ->
        e = EValue \/ e = EZeroDivision).
Proof.
  intros Hx Hfx. unfold read_back. rewrite !from_end_0_last.
  destruct (last x_vals) as [root|] eqn:Hl.
  2:{ apply last_None in Hl. subst. cbn in Hx. lia. }
  destruct (last fx_vals) as [froot|] eqn:Hlf.
  2:{ apply last_None in Hlf. subst. cbn in Hfx. lia. }
  destruct (conv_rate x_vals) as [p|e0] eqn:Hc.
  - split; [|intros ?; discriminate].
    intros rep [= <-]. eauto 10.
  - split; [intros ?; discriminate|].
    intros e [= <-].
    apply (conv_rate_raises x_vals). exact Hc.
Qed.

Lemma last_map_f (f : R -> R) (xs : list R) root :
  last xs = Some root -> last (map f xs) = Some (f root).
Proof.
  intros Hl. apply last_Some in Hl as [pre ->].
  rewrite map_app. cbn. apply last_snoc.
Qed.

Lemma search_cases (f : R -> R) (ivs : list (R * R)) :
  (search f ivs = Ok None
   /\ Forall (fun ab => sign zero ltb (f ab.1) = sign zero ltb (f ab.2)) ivs)
  \/ exists pre a b post xs fxs,
       ivs = pre ++ (a, b) :: post
       /\ Forall (fun ab => sign zero ltb (f ab.1) = sign zero ltb (f ab.2)) pre
       /\ sign zero ltb (f a) <> sign zero ltb (f b)
       /\ bisect_method_with_plot zero add sub half abs ltb a b 100 tol tol f
          = Return (Seqs xs fxs)
       /\ fxs = map f xs
       /\ 1 <= length xs <= 100
       /\ search f ivs = Ok (Some (Seqs xs fxs, (a, b))).
Proof.
  induction ivs as [|[a b] ivs IH].
  - left. split; [reflexivity | constructor].
  - cbn [bisect_search].
    destruct (bisect_plot_shape zero add sub half abs ltb f tol tol a b 100)
      as [[Hs Hr] | (Hs & xs & fxs & Hr & Hmap & Hlen)].
    + rewrite Hr. cbn [of_result isinstance_str negb].
      destruct IH as [[Hn Hall] | (pre & a' & b' & post & xs & fxs & IH)].
      * left. split; [exact Hn | constructor; [exact Hs | exact Hall]].
      * right. exists ((a, b) :: pre), a', b', post, xs, fxs.
        destruct IH as (-> & Hpre & IH).
        split; [reflexivity|]. split; [constructor; [exact Hs | exact Hpre]|].
        exact IH.
    + right. exists [], a, b, ivs, xs, fxs. rewrite Hr.
      cbn [of_result isinstance_str negb].
      change (Z.to_nat 100) with 100 in Hlen. cbn [Nat.min] in Hlen.
      refine (conj eq_refl (conj (Forall_nil_2 _)
                (conj Hs (conj eq_refl (conj Hmap (conj Hlen eq_refl)))))).
Qed.

(** X13. The bisection block of [main] reports "failed for all intervals"
    exactly when no interval of the list has a sign change at its ends;
    otherwise it uses the first interval that has one, reports between 1
    and 100 midpoints with the last one as the root and its function value
    beside it, and it can only fail inside the rate estimate ([math.log] or
    a division), never on a subscript or on unpacking the result. *)
Theorem main_bisection_first_bracket (f : R -> R) (intervals : list (R * R)) :
  (main_bisection zero one add sub half div abs ltb eqb log of_nat small tol
     f intervals = Ok NoBracket
   <-> Forall (fun ab => sign zero ltb (f ab.1) = sign zero ltb (f ab.2))
         intervals)
  /\ (forall used p n root froot,
        main_bisection zero one add sub half div abs ltb eqb log of_nat small
          tol f intervals = Ok (Report used p n root froot) ->
        exists pre a b post xs fxs,
          used = Some (a, b)
          /\ intervals = pre ++ (a, b) :: post
          /\ Forall (fun ab => sign zero ltb (f ab.1) = sign zero ltb (f ab.2))
               pre
          /\ sign zero ltb (f a) <> sign zero ltb (f b)
          /\ bisect_method_with_plot zero add sub half abs ltb a b 100 tol tol f
             = Return (Seqs xs fxs)
          /\ n = length xs /\ 1 <= n <= 100
          /\ last xs = Some root /\ froot = f root
          /\ calculate_convergence_rate zero one add sub div abs ltb eqb log
               of_nat small xs = Ok p)
  /\ (forall e,
        main_bisection zero one add sub half div abs ltb eqb log of_nat small
          tol f intervals = Raise e ->
        e = EValue \/ e = EZeroDivision).
Proof.
  clear mul. unfold main_bisection.
  destruct (search_cases f intervals)
    as [[Hn Hall] | (pre & a & b & post & xs & fxs & Hiv & Hpre & Hs & Hr
                      & Hmap & Hlen & Hsr)].
  - rewrite Hn. split; [tauto|]. split; intros; discriminate.
  - rewrite Hsr.
    destruct (read_back_cases (Some (a, b)) xs fxs) as [Hok Hraise];
      [lia | subst fxs; apply length_map|].
    split; [|split].
    + split.
      * intros Hb. apply Hok in Hb as (? & ? & ? & _ & _ & _ & ?). discriminate.
      * intros Hall. exfalso. subst intervals.
        apply Forall_app in Hall as [_ Hall]. inversion Hall; subst. auto.
    + intros used p n root froot Hb.
      apply Hok in Hb as (p' & root' & froot' & Hc & Hl & Hlf & [= -> -> -> -> ->]).
      exists pre, a, b, post, xs, fxs.
      repeat split; try assumption; try lia.
      subst fxs. rewrite (last_map_f f xs root' Hl) in Hlf.
      injection Hlf as <-. reflexivity.
    + exact Hraise.
Qed.

Lemma prefix_lookup_0 (x : R) (l xs : list R) :
  (x :: l) `prefix_of` xs -> xs !! 0 = Some x /\ S (length l) <= length xs.
Proof.
  intros [k ->]. split; [reflexivity|]. cbn. rewrite length_app. lia.
Qed.

(** X14. The Newton and secant blocks of [main]: a report they print is
    that of the plotting variant's sequence (its length, its last entry as
    the root, [f] of it beside it), and they can only fail in a division or
    in [math.log], never on a subscript or on unpacking a result. *)
Theorem main_newton_secant_reports (f fprime : R -> R) (x0 s0 s1 : R) :
  (forall rep,
     main_newton zero one add sub div abs ltb eqb log of_nat small tol
       f fprime x0 = Ok rep ->
     exists xs fxs p root,
       newton_method_with_plot sub div abs ltb f fprime x0 100 tol tol tol
       = Return (Seqs xs fxs)
       /\ xs !! 0 = Some x0 /\ last xs = Some root
       /\ calculate_convergence_rate zero one add sub div abs ltb eqb log
            of_nat small xs = Ok p
       /\ rep = Report None p (length xs) root (f root))
  /\ (forall rep,
        main_secant zero one add sub mul div abs ltb eqb log of_nat small tol
          f s0 s1 = Ok rep ->
        exists xs fxs p root,
          secant_method_with_plot sub mul div abs ltb f s0 s1 100 tol tol tol
          = Return (Seqs xs fxs)
          /\ xs !! 0 = Some s0 /\ xs !! 1 = Some s1 /\ last xs = Some root
          /\ calculate_convergence_rate zero one add sub div abs ltb eqb log
               of_nat small xs = Ok p
          /\ rep = Report None p (length xs) root (f root))
  /\ (forall e,
        main_newton zero one add sub div abs ltb eqb log of_nat small tol
          f fprime x0 = Raise e
        \/ main_secant zero one add sub mul div abs ltb eqb log of_nat small tol
             f s0 s1 = Raise e ->
        e = EValue \/ e = EZeroDivision).
Proof.
  clear half.
  assert (HN :
    (forall rep,
       main_newton zero one add sub div abs ltb eqb log of_nat small tol
         f fprime x0 = Ok rep ->
       exists xs fxs p root,
         newton_method_with_plot sub div abs ltb f fprime x0 100 tol tol tol
         = Return (Seqs xs fxs)
         /\ xs !! 0 = Some x0 /\ last xs = Some root
         /\ conv_rate xs = Ok p
         /\ rep = Report None p (length xs) root (f root))
    /\ (forall e,
          main_newton zero one add sub div abs ltb eqb log of_nat small tol
            f fprime x0 = Raise e -> e = EValue \/ e = EZeroDivision)).
  { unfold main_newton.
    destruct (newton_plot_shape sub div abs ltb f fprime tol tol tol x0 100)
      as [-> | (xs & fxs & -> & Hpre & Hmap)]; cbn [of_result].
    { split; [intros ?; discriminate | intros e [= <-]; auto]. }
    apply prefix_lookup_0 in Hpre as [H0 Hlen].
    destruct (animations_return_or_divide sub mul div abs ltb f fprime tol
                x0 100 x0 x0 0) as [Hni _].
    destruct (newton_animation sub div abs ltb f fprime x0 100 tol) as [v| |];
      cbn [of_result]; [| |contradiction].
    2:{ split; [intros ?; discriminate | intros e [= <-]; auto]. }
    destruct (read_back_cases None xs fxs) as [Hok Hraise];
      [lia | subst fxs; apply length_map|].
    split; [|exact Hraise].
    intros rep Hb.
    apply Hok in Hb as (p & root & froot & Hc & Hl & Hlf & ->).
    exists xs, fxs, p, root. subst fxs.
    rewrite (last_map_f f xs root Hl) in Hlf. injection Hlf as <-.
    auto. }
  assert (HS :
    (forall rep,
       main_secant zero one add sub mul div abs ltb eqb log of_nat small tol
         f s0 s1 = Ok rep ->
       exists xs fxs p root,
         secant_method_with_plot sub mul div abs ltb f s0 s1 100 tol tol tol
         = Return (Seqs xs fxs)
         /\ xs !! 0 = Some s0 /\ xs !! 1 = Some s1 /\ last xs = Some root
         /\ conv_rate xs = Ok p
         /\ rep = Report None p (length xs) root (f root))
    /\ (forall e,
          main_secant zero one add sub mul div abs ltb eqb log of_nat small tol
            f s0 s1 = Raise e -> e = EValue \/ e = EZeroDivision)).
  { unfold main_secant.
    destruct (secant_plot_shape sub mul div abs ltb f tol tol tol s0 s1 100)
      as [-> | (xs & fxs & -> & Hpre & Hmap)]; cbn [of_result].
    { split; [intros ?; discriminate | intros e [= <-]; auto]. }
    assert (H1 : xs !! 1 = Some s1) by (destruct Hpre as [k ->]; reflexivity).
    apply prefix_lookup_0 in Hpre as [H0 Hlen]. cbn in Hlen.
    destruct (animations_return_or_divide sub mul div abs ltb f f tol
                s0 0 s0 s1 100) as [_ Hsi].
    destruct (secant_animation sub mul div abs ltb f s0 s1 100 tol) as [v| |];
      cbn [of_result]; [| |contradiction].
    2:{ split; [intros ?; discriminate | intros e [= <-]; auto]. }
    destruct (read_back_cases None xs fxs) as [Hok Hraise];
      [lia | subst fxs; apply length_map|].
    split; [|exact Hraise].
    intros rep Hb.
    apply Hok in Hb as (p & root & froot & Hc & Hl & Hlf & ->).
    exists xs, fxs, p, root. subst fxs.
    rewrite (last_map_f f xs root Hl) in Hlf. injection Hlf as <-.
    auto 10. }
  destruct HN as [HN1 HN2], HS as [HS1 HS2].
  split; [exact HN1 | split; [exact HS1|]].
  intros e [He|He]; [exact (HN2 e He) | exact (HS2 e He)].
Qed.

End DriverProperties.

(** * The animation manager *)

Section ManagerProperties.
Context {R : Type}.
Variable zero : R.
Variables add sub mul : R -> R -> R.
Variable half : R -> R.
Variable div : R -> R -> option R.
Variable abs : R -> R.
Variable ltb : R -> R -> bool.

Lemma lookup_map {A B} (h : A -> B) (l : list A) (i : nat) :
  map h l !! i = h <$> l !! i.
Proof.
  revert i. induction l as [|x l IH]; intros [|i]; cbn; auto.
Qed.

(** X15. In [animate_bisection] the unpacking at the head of the [try]
    fails exactly when the endpoints have equal signs, the string
    "Same Sign" not being a triple; so such a call ends in the
    "Animation error" message.  With a sign change it yields the engine's
    three lists, and on them [update] fails for no frame number: frame [i]
    below [len(x_vals)] sets the bracket of pass [i] and the point
    [(x_i, f(x_i))], and every later frame changes nothing. *)
Theorem bisect_update_frames (f : R -> R) (a b : R) (M : Z) (epsilon : R) :
  (sign zero ltb (f a) = sign zero ltb (f b) ->
   unpack3 (bisect_animation zero add sub half abs ltb a b M epsilon f)
   = Raise EUnpack)
  /\ (sign zero ltb (f a) <> sign zero ltb (f b) ->
      exists xs fxs ivs,
        unpack3 (bisect_animation zero add sub half abs ltb a b M epsilon f)
        = Ok (xs, fxs, ivs)
        /\ (forall i x, xs !! i = Some x ->
              exists ai bi,
                ivs !! i = Some [ai; bi]
                /\ bisect_update xs fxs ivs i
                   = Ok (Some (BisectMarks (Some (ai, bi)) (x, f x))))
        /\ (forall i, length xs <= i -> bisect_update xs fxs ivs i = Ok None)).
Proof.
  destruct (bisect_animation_shape zero add sub half abs ltb f epsilon a b M)
    as [[Hs ->] | (Hs & xs & fxs & ivs & -> & Hfx & Hlen & Hall)].
  - split; [reflexivity | contradiction].
  - split; [contradiction|]. intros _.
    exists xs, fxs, ivs. split; [reflexivity|]. split.
    + intros i x Hx.
      pose proof (lookup_lt_Some _ _ _ Hx) as Hi.
      destruct (lookup_lt_is_Some_2 ivs i) as [iv Hiv]; [lia|].
      pose proof (proj1 (Forall_lookup _ _) Hall i iv Hiv) as (ai & bi & ->).
      exists ai, bi. split; [exact Hiv|].
      unfold bisect_update.
      destruct (Nat.ltb_spec i (length xs)) as [_|]; [|lia].
      destruct (Nat.ltb_spec i (length ivs)) as [_|]; [|lia].
      rewrite Hiv, Hx. subst fxs. rewrite lookup_map, Hx. reflexivity.
    + intros i Hi. unfold bisect_update.
      destruct (Nat.ltb_spec i (length xs)) as [|_]; [lia | reflexivity].
Qed.

(** X16. In [animate_newton] the unpacking at the head of the [try] can
    only fail with the engine's own [ZeroDivisionError].  On the lists it
    yields, [update] fails for no frame number, its division
    [fx_i / fp_i] repeating one that the engine made: there is a tangent
    for every iterate but the last, frame [i] below [len(tangents)] sets
    the point [(x_i, f(x_i))] and, as next approximation, exactly the next
    iterate [x_{i+1}] on the axis, and every later frame changes
    nothing. *)
Theorem newton_update_frames (f fprime : R -> R) (x0 : R) (nmax : Z)
    (epsilon : R) :
  (forall e,
     unpack3 (newton_animation sub div abs ltb f fprime x0 nmax epsilon)
     = Raise e ->
     e = EZeroDivision
     /\ newton_animation sub div abs ltb f fprime x0 nmax epsilon
        = ZeroDivisionError)
  /\ (forall xs fxs tg,
        unpack3 (newton_animation sub div abs ltb f fprime x0 nmax epsilon)
        = Ok (xs, fxs, tg) ->
        length xs = S (length tg)
        /\ (forall i, i < length tg ->
              exists x x',
                xs !! i = Some x /\ xs !! S i = Some x'
                /\ newton_update zero sub div tg i
                   = Ok (Some (NewtonMarks (x, f x) (x', zero))))
        /\ (forall i, length tg <= i ->
              newton_update zero sub div tg i = Ok None)).
Proof.
  destruct (newton_animation_shape sub div abs ltb f fprime epsilon x0 nmax)
    as [-> | (xs & fxs & tg & -> & Hfx & Hlen & Ht & Hc)]; cbn [unpack3].
  - split; [intros e [= <-]; auto | intros; discriminate].
  - split; [intros; discriminate|].
    intros xs' fxs' tg' [= <- <- <-]. split; [exact Hlen|]. split.
    + intros i Hi.
      destruct (lookup_lt_is_Some_2 tg i) as [t Htg]; [exact Hi|].
      destruct (Ht i t Htg) as (x & Hx & ->).
      destruct (lookup_lt_is_Some_2 xs (S i)) as [x' Hx']; [lia|].
      destruct (Hc i x x' Hx Hx') as (_ & d & Hd & ->).
      exists x, (sub x d). split; [exact Hx|]. split; [exact Hx'|].
      unfold newton_update.
      destruct (Nat.ltb_spec i (length tg)) as [_|]; [|lia].
      rewrite Htg, Hd. reflexivity.
    + intros i Hi. unfold newton_update.
      destruct (Nat.ltb_spec i (length tg)) as [|_]; [lia | reflexivity].
Qed.

End ManagerProperties.

(** * The driver's test case and concrete runs *)

Lemma rational_ltb_total (x y : Q) :
  Rational.ltb x y = false -> Rational.leb y x = true.
Proof. unfold Rational.ltb, Rational.leb. apply negb_false_iff. Qed.

(** Over the rationals a positive [epsilon] keeps zero denominators out,
    so the plotting Newton and secant runs never raise. *)
Lemma rational_guard_excludes_zero (eps nu de : Q) :
  (0 < eps)%Q ->
  Rational.ltb (Rational.abs de) eps = false -> Rational.div nu de <> None.
Proof.
  intros He H. unfold Rational.ltb, Rational.abs in H.
  apply negb_false_iff in H. apply Qle_bool_iff in H.
  unfold Rational.div. destruct (Qeq_bool de 0) eqn:E; [|discriminate].
  apply Qeq_bool_iff in E. rewrite E in H. cbn in H.
  exfalso. apply (Qlt_not_le _ _ He). exact H.
Qed.

Lemma rational_runs_do_not_raise (f fprime : Q -> Q) (err1 err2 eps : Q)
    (x0 : Q) (nmax : Z) (s0 s1 : Q) (smax : Z) :
  (0 < eps)%Q ->
  exit_by (Rational.newton_plot_run f fprime err1 err2 eps x0 nmax).2 <> Raised
  /\ exit_by (Rational.secant_plot_run f err1 err2 eps s0 s1 smax).2 <> Raised.
Proof.
  intros He.
  apply (guarded_division_no_fault Rational.sub Rational.mul Rational.div
           Rational.abs Rational.ltb f fprime err1 err2 eps x0 nmax s0 s1 smax).
  intros nu de. apply rational_guard_excludes_zero. exact He.
Qed.

(** Over the rationals the point [a + e] that the bisection loop takes is
    the midpoint of the bracket in force: [e] is half its width. *)
Lemma rational_bisect_loop_midpoints (err1 eps : Q) (f : Q -> Q) (n : nat) :
  forall a b fa fb e x_vals fx_vals g,
    e == b - a ->
    Forall2 (fun c br => c == (br.1 + br.2) / 2) x_vals (brackets g) ->
    exists xs fxs g',
      bisect_plot_loop Rational.zero Rational.add Rational.half Rational.abs
        Rational.ltb err1 eps f n a b fa fb e x_vals fx_vals g
        = (Return (Seqs xs fxs), g')
      /\ Forall2 (fun c br => c == (br.1 + br.2) / 2) xs (brackets g').
Proof.
  induction n as [|n IH]; intros a b fa fb e x_vals fx_vals g He HF.
  - eexists _, _, _. split; [reflexivity | exact HF].
  - cbn [bisect_plot_loop].
    set (e' := Rational.half e). set (c := Rational.add a e').
    assert (He' : e' == e / 2) by apply Qred_correct.
    assert (Hc : c == a + e / 2).
    { unfold c, Rational.add. rewrite Qred_correct, He'. reflexivity. }
    set (g1 := log_step e' (log_bracket a b (enter_pass g))).
    assert (HF1 : Forall2 (fun c br => c == (br.1 + br.2) / 2)
                    (x_vals ++ [c]) (brackets g1)).
    { cbn. apply Forall2_app; [exact HF|]. constructor; [|constructor].
      cbn. rewrite Hc, He. field. }
    destruct (Rational.ltb (Rational.abs e') err1
              || Rational.ltb (Rational.abs (f c)) eps).
    + eexists _, _, _. split; [reflexivity | exact HF1].
    + destruct (negb (sign Rational.zero Rational.ltb (f c)
                      =? sign Rational.zero Rational.ltb (f a))%Z).
      * apply IH; [|exact HF1]. rewrite He', Hc. field.
      * apply IH; [|exact HF1]. rewrite He', Hc, He. field.
Qed.

Lemma rational_bisect_midpoints (err1 eps : Q) (f : Q -> Q) (a b : Q) (M : Z)
    (xs fxs : list Q) (g : ghost Q) :
  Rational.bisect_plot_run err1 eps f a b M = (Return (Seqs xs fxs), g) ->
  Forall2 (fun c br => c == (br.1 + br.2) / 2) xs (brackets g).
Proof.
  unfold Rational.bisect_plot_run, bisect_plot_run.
  destruct (sign Rational.zero Rational.ltb (f a)
            =? sign Rational.zero Rational.ltb (f b))%Z; [discriminate|].
  destruct (rational_bisect_loop_midpoints err1 eps f (range_len 1 (M + 1))
              a b (f a) (f b) (Rational.sub b a) [] [] ghost0)
    as (xs' & fxs' & g' & Hrun & HF).
  - apply Qred_correct.
  - constructor.
  - rewrite Hrun. intros [= <- <- <-]. exact HF.
Qed.

(** C7. On [f2(x) = x^2 - 1] over [[0, 2]] with [epsilon = 1e-12], any
    half-width tolerance and any cap of at least 50, the very first
    midpoint is [1] with [f2(1) = 0]: the run converges in one pass (so
    within 50) and returns [([1], [0])], in exact arithmetic and in
    binary64 alike; in binary64 for every [**] that squares [0], [1] and
    [2] exactly, the only arguments at which the run evaluates [f2]. *)
Theorem bisect_f2_converges (M : Z) (err1 : Q) (err1' : float) :
  (50 <= M)%Z ->
  Rational.bisect_plot_run err1 Rational.tol Rational.f2 0 2 M
    = (Return (Seqs [1%Q] [0%Q]), Ghost Converged 1 [1%Q] [] [(0%Q, 2%Q)])
  /\ Rational.bisect_method_with_plot 0 2 M err1 Rational.tol Rational.f2
    = Return (Seqs [1%Q] [0%Q])
  /\ Rational.ltb (Rational.abs (Rational.f2 1)) Rational.tol = true
  /\ passes (Rational.bisect_plot_run err1 Rational.tol Rational.f2 0 2 M).2 <= 50
  /\ (forall sq : float -> float,
        sq 0%float = 0%float -> sq 1%float = 1%float -> sq 2%float = 4%float ->
        Binary64.bisect_plot_run err1' Binary64.tol (Binary64.f2 sq) 0 2 M
        = (Return (Seqs [1%float] [0%float]),
           Ghost Converged 1 [1%float] [] [(0%float, 2%float)])
        /\ Binary64.ltb (Binary64.abs (Binary64.f2 sq 1)) Binary64.tol = true).
Proof.
  intros HM.
  assert (HQ : Rational.bisect_plot_run err1 Rational.tol Rational.f2 0 2 M
    = (Return (Seqs [1%Q] [0%Q]), Ghost Converged 1 [1%Q] [] [(0%Q, 2%Q)])).
  { unfold Rational.bisect_plot_run, bisect_plot_run.
    rewrite range_len_succ by lia.
    replace (sign Rational.zero Rational.ltb (Rational.f2 0)
             =? sign Rational.zero Rational.ltb (Rational.f2 2))%Z
      with false by (vm_compute; reflexivity).
    cbn [bisect_plot_loop].
    replace (Rational.ltb
               (Rational.abs
                  (Rational.f2 (Rational.add 0 (Rational.half (Rational.sub 2 0)))))
               Rational.tol) with true by (vm_compute; reflexivity).
    rewrite orb_true_r. vm_compute. reflexivity. }
  split; [exact HQ|].
  split; [unfold Rational.bisect_method_with_plot, bisect_method_with_plot;
          fold Rational.bisect_plot_run; rewrite HQ; reflexivity|].
  split; [vm_compute; reflexivity|].
  split; [rewrite HQ; cbn; lia|].
  intros sq H0 H1 H2.
  assert (Hmid : Binary64.add 0 (Binary64.half (Binary64.sub 2 0)) = 1%float)
    by (vm_compute; reflexivity).
  assert (Hf0 : Binary64.f2 sq 0 = (-1)%float)
    by (unfold Binary64.f2; rewrite H0; vm_compute; reflexivity).
  assert (Hf1 : Binary64.f2 sq 1 = 0%float)
    by (unfold Binary64.f2; rewrite H1; vm_compute; reflexivity).
  assert (Hf2 : Binary64.f2 sq 2 = 3%float)
    by (unfold Binary64.f2; rewrite H2; vm_compute; reflexivity).
  split; [|rewrite Hf1; vm_compute; reflexivity].
  unfold Binary64.bisect_plot_run, bisect_plot_run.
  rewrite range_len_succ by lia.
  rewrite Hf0, Hf2.
  replace (sign Binary64.zero Binary64.ltb (-1)%float
           =? sign Binary64.zero Binary64.ltb 3%float)%Z
    with false by (vm_compute; reflexivity).
  cbn [bisect_plot_loop]. rewrite Hmid, Hf1.
  replace (Binary64.ltb (Binary64.abs 0%float) Binary64.tol) with true
    by (vm_compute; reflexivity).
  rewrite orb_true_r. vm_compute. reflexivity.
Qed.

Lemma bisect_f2_converges_witness :
  Rational.bisect_method_with_plot 0 2 100 Rational.tol Rational.tol Rational.f2
  = Return (Seqs [1%Q] [0%Q])
  /\ Binary64.bisect_plot_run Binary64.tol Binary64.tol
       (Binary64.f2 (fun x => Binary64.mul x x)) 0 2 100
     = (Return (Seqs [1%float] [0%float]),
        Ghost Converged 1 [1%float] [] [(0%float, 2%float)]).
Proof.
  destruct (bisect_f2_converges 100 Rational.tol Binary64.tol)
    as (_ & HQ & _ & _ & HF); [lia|].
  split; [exact HQ|].
  apply (HF (fun x => Binary64.mul x x)); vm_compute; reflexivity.
Defined.

Lemma bisect_bracket_invariant_witness :
  exists xs fxs g,
    Rational.bisect_plot_run Rational.tol Rational.tol Rational.f2 0 3 5
      = (Return (Seqs xs fxs), g)
    /\ length xs = passes g
    /\ Forall (fun br => Rational.sign (Rational.f2 br.1)
                         <> Rational.sign (Rational.f2 br.2)) (brackets g).
Proof.
  destruct (bisect_bracket_invariant Rational.zero Rational.add Rational.sub
              Rational.half Rational.abs Rational.ltb Rational.f2
              Rational.tol Rational.tol 0%Q 3%Q 5%Z)
    as (xs & fxs & g & Hrun & Hlen & _ & HF & _).
  - vm_compute. discriminate.
  - exists xs, fxs, g. split; [exact Hrun|]. split; [exact Hlen | exact HF].
Defined.

Lemma bisect_same_sign_fails_witness :
  Rational.bisect_method_with_plot 2 3 100 Rational.tol Rational.tol Rational.f2
    = Return SameSign
  /\ Rational.bisect_method 2 3 100 Rational.tol Rational.tol Rational.f2
    = Return SameSign.
Proof.
  destruct (bisect_same_sign_fails Rational.zero Rational.add Rational.sub
              Rational.half Rational.abs Rational.ltb Rational.f2
              Rational.tol Rational.tol 2%Q 3%Q 100%Z)
    as (_ & _ & Hplot & Hmethod & _).
  - vm_compute. reflexivity.
  - split; [exact Hplot | exact Hmethod].
Defined.

(** C6, as stated, at a cap of zero: the signs differ at the endpoints of
    [[0, 2]] for [f2], yet [bisect_method_with_plot] takes no midpoint and
    returns two empty sequences. *)
Lemma bisect_no_midpoint_at_zero_cap :
  Rational.sign (Rational.f2 0) <> Rational.sign (Rational.f2 2)
  /\ Rational.bisect_plot_run Rational.tol Rational.tol Rational.f2 0 2 0
     = (Return (Seqs [] []), Ghost Exhausted 0 [] [] [])
  /\ Rational.bisect_method_with_plot 0 2 0 Rational.tol Rational.tol Rational.f2
     = Return (Seqs [] []).
Proof.
  split; [vm_compute; discriminate|].
  split; vm_compute; reflexivity.
Qed.

(** The bracket [[1, 0]] of [f2] has a root for its first endpoint; the
    midpoint [1/2] is taken all the same. *)
Lemma bisect_first_midpoint_witness :
  Rational.ltb (Rational.abs (Rational.f2 1)) Rational.tol = true
  /\ exists xs fxs g,
       Rational.bisect_plot_run Rational.tol Rational.tol Rational.f2 1 0 100
         = (Return (Seqs ((1 # 2) :: xs) ((-3 # 4) :: fxs)), g)
       /\ 1 <= passes g.
Proof.
  split; [vm_compute; reflexivity|].
  destruct (bisect_first_midpoint Rational.zero Rational.add Rational.sub
              Rational.half Rational.abs Rational.ltb Rational.f2
              Rational.tol Rational.tol 1%Q 0%Q 100%Z) as [Hplot _].
  - vm_compute. discriminate.
  - destruct Hplot as (xs & fxs & g & Hrun & _ & Hp & _); [lia|].
    exists xs, fxs, g. split; [exact Hrun | exact Hp].
Defined.

(** C1, amended, over the rationals, whose order is total. *)
Lemma slope_guard_before_division_witness :
  Forall (fun nd : Q * Q => Rational.leb Rational.tol (Rational.abs nd.2) = true)
    (divs (Rational.newton_plot_run Rational.f2 Rational.f2_prime
             Rational.tol Rational.tol Rational.tol (3 # 2) 100).2).
Proof.
  destruct (slope_guard_before_division Rational.sub Rational.mul Rational.div
              Rational.abs Rational.ltb Rational.f2 Rational.f2_prime
              Rational.tol Rational.tol Rational.tol)
    as (_ & _ & _ & _ & Htotal).
  destruct (Htotal Rational.leb rational_ltb_total) as (Hnewton & _).
  exact (proj1 (Hnewton (3 # 2) 100%Z)).
Defined.

(** C1, as stated, in binary64 on a slope that is not a number: Newton's
    method for [x*x - 1] with derivative [2*x], from the seed [nan] with
    the driver's tolerances and one pass.  The slope is [nan]; the guard
    [abs(fp) < epsilon] is false on it, so the division [f(x)/fp] is made
    and the run returns [([nan, nan], [nan, nan])], yet
    [epsilon <= abs(fp)] is false too. *)
Lemma newton_divides_at_nan_slope :
  let f := fun x => Binary64.sub (Binary64.mul x x) 1 in
  let fprime := fun x => Binary64.mul 2 x in
  let run :=
    newton_plot_run Binary64.sub Binary64.div Binary64.abs Binary64.ltb
      f fprime Binary64.tol Binary64.tol Binary64.tol PrimFloat.nan 1 in
  run.1 = Return (Seqs [PrimFloat.nan; PrimFloat.nan] [PrimFloat.nan; PrimFloat.nan])
  /\ divs run.2 = [(PrimFloat.nan, PrimFloat.nan)]
  /\ Binary64.ltb (Binary64.abs PrimFloat.nan) Binary64.tol = false
  /\ Binary64.leb Binary64.tol (Binary64.abs PrimFloat.nan) = false.
Proof. vm_compute. repeat split; reflexivity. Qed.

(** C4, as stated, on Newton's method for [g1(x) = x^2 + 1] from [x0 = 1]
    with the driver's tolerances and a cap of 100: the first step lands on
    [0], where the derivative vanishes, and the guard ends the run on the
    second pass, with [|g1(0)| = 1] and a last step of [1], neither below
    [1e-12], and a pass count of 2, not 100. *)
Lemma newton_guard_stop_not_as_claimed :
  Rational.newton_plot_run Rational.g1 Rational.g1_prime
    Rational.tol Rational.tol Rational.tol 1 100
    = (Return (Seqs [1%Q; 0%Q] [2%Q; 1%Q]),
       Ghost SlopeGuard 2 [1%Q] [(2%Q, 2%Q)] [])
  /\ ~ stop_as_claimed Rational.abs Rational.ltb Rational.g1
         Rational.tol Rational.tol 100
         (Rational.newton_plot_run Rational.g1 Rational.g1_prime
            Rational.tol Rational.tol Rational.tol 1 100).
Proof.
  assert (Hrun :
    Rational.newton_plot_run Rational.g1 Rational.g1_prime
      Rational.tol Rational.tol Rational.tol 1 100
    = (Return (Seqs [1%Q; 0%Q] [2%Q; 1%Q]),
       Ghost SlopeGuard 2 [1%Q] [(2%Q, 2%Q)] [])) by (vm_compute; reflexivity).
  split; [exact Hrun|]. rewrite Hrun.
  intros [_ [Hv|[Hs|Hn]]].
  - destruct Hv as (xs & fxs & x & Hr & Hl & Ht). cbn in Hr.
    injection Hr as <- <-. cbn in Hl. injection Hl as <-.
    vm_compute in Ht. discriminate.
  - destruct Hs as (d & Hl & Ht). cbn in Hl. injection Hl as <-.
    vm_compute in Ht. discriminate.
  - cbn in Hn. discriminate.
Qed.


(** ** Bisection over the rationals: widths and distances *)

Lemma pow2_pos (k : nat) : (0 < pow2 k)%Q.
Proof.
  unfold pow2. replace 0%Q with (inject_Z 0) by reflexivity.
  rewrite <- Zlt_Qlt. apply Z.pow_pos_nonneg; lia.
Qed.

Lemma pow2_succ (k : nat) : pow2 (S k) == 2 * pow2 k.
Proof.
  unfold pow2. rewrite Nat2Z.inj_succ, Z.pow_succ_r by lia.
  rewrite inject_Z_mult. reflexivity.
Qed.

Lemma rational_iter_half (k : nat) (e : Q) :
  Nat.iter k Rational.half e == e / pow2 k.
Proof.
  induction k as [|k IH].
  - change (e == e / 1). field.
  - change (Nat.iter (S k) Rational.half e)
      with (Rational.half (Nat.iter k Rational.half e)).
    unfold Rational.half. rewrite Qred_correct, IH, pow2_succ.
    pose proof (pow2_pos k). field. lra.
Qed.

Lemma Qabs_either (x y : Q) : (0 <= y)%Q -> x == y \/ x == - y -> Qabs x == y.
Proof.
  intros Hy [H|H]; rewrite H.
  - apply Qabs_pos. exact Hy.
  - rewrite Qabs_opp. apply Qabs_pos. exact Hy.
Qed.

Lemma pow2_half (w : Q) (k : nat) : w / pow2 (S k) == w / pow2 k * (1 # 2).
Proof. rewrite pow2_succ. pose proof (pow2_pos k). field. lra. Qed.

Lemma rational_bisect_loop_geometry (err1 eps : Q) (f : Q -> Q) (a0 b0 : Q)
    (n : nat) :
  forall a b fa fb e x_vals fx_vals g xs fxs g',
    e == (b0 - a0) / pow2 (length x_vals) ->
    e == b - a ->
    (a0 <= a)%Q -> (a <= b)%Q -> (b <= b0)%Q ->
    (forall cp, last x_vals = Some cp -> a == cp - e \/ a == cp) ->
    within a0 b0 x_vals ->
    halving_distances a0 b0 x_vals ->
    bisect_plot_loop Rational.zero Rational.add Rational.half Rational.abs
      Rational.ltb err1 eps f n a b fa fb e x_vals fx_vals g
      = (Return (Seqs xs fxs), g') ->
    within a0 b0 xs /\ halving_distances a0 b0 xs.
Proof.
  induction n as [|n IH];
    intros a b fa fb e x_vals fx_vals g xs fxs g' Hw He Ha Hab Hb Hlast Hin Hd.
  - cbn. intros [= <- <- <-]. split; assumption.
  - cbn [bisect_plot_loop].
    set (e' := Rational.half e). set (c := Rational.add a e').
    assert (He' : e' == e * (1 # 2)).
    { unfold e', Rational.half. rewrite Qred_correct. field. }
    assert (Hc : c == a + e * (1 # 2)).
    { unfold c, Rational.add. rewrite Qred_correct, He'. reflexivity. }
    assert (Hw1 : e' == (b0 - a0) / pow2 (length (x_vals ++ [c]))).
    { rewrite length_app. cbn [length]. rewrite Nat.add_1_r.
      rewrite pow2_half, <- Hw. exact He'. }
    assert (Hin1 : within a0 b0 (x_vals ++ [c])).
    { intros i z Hz. apply lookup_snoc_Some in Hz as [[_ Hz]|[_ <-]].
      - exact (Hin i z Hz).
      - rewrite Hc. split; lra. }
    assert (Hd1 : halving_distances a0 b0 (x_vals ++ [c])).
    { intros i z z' Hz Hz'.
      apply lookup_snoc_Some in Hz' as [[Hlt Hz']|[Heq <-]].
      - rewrite lookup_app_l in Hz by lia. exact (Hd i z z' Hz Hz').
      - rewrite lookup_app_l in Hz by lia.
        assert (Hl : last x_vals = Some z).
        { rewrite last_lookup, <- Heq. exact Hz. }
        rewrite Heq, pow2_half, <- Hw.
        apply Qabs_either; [lra|].
        destruct (Hlast z Hl) as [H|H]; rewrite Hc, H; [right | left]; lra. }
    destruct (Rational.ltb (Rational.abs e') err1
              || Rational.ltb (Rational.abs (f c)) eps).
    + intros [= <- <- <-]. split; assumption.
    + assert (Hlast1 : forall z, last (x_vals ++ [c]) = Some z -> z = c).
      { intros z Hz. rewrite last_snoc in Hz. congruence. }
      destruct (negb (sign Rational.zero Rational.ltb (f c)
                      =? sign Rational.zero Rational.ltb (f a))%Z); intros Hrun.
      * eapply (IH a c) in Hrun; try eassumption; try lra.
        intros z Hz. apply Hlast1 in Hz as ->. left. lra.
      * eapply (IH c b) in Hrun; try eassumption; try lra.
        intros z Hz. apply Hlast1 in Hz as ->. right. reflexivity.
Qed.

(** X10. Over the rationals, for a bracket given left end first
    ([a <= b]): every midpoint that [bisect_method_with_plot] returns lies
    in [[a, b]], and two successive midpoints, the [i]-th and the next, are
    exactly [(b - a)/2^(i+2)] apart. *)
Theorem rational_bisect_geometry (err1 eps : Q) (f : Q -> Q) (a b : Q) (M : Z)
    (xs fxs : list Q) :
  (a <= b)%Q ->
  Rational.bisect_method_with_plot a b M err1 eps f = Return (Seqs xs fxs) ->
  within a b xs /\ halving_distances a b xs.
Proof.
  intros Hab.
  unfold Rational.bisect_method_with_plot, bisect_method_with_plot, bisect_plot_run.
  destruct (sign Rational.zero Rational.ltb (f a)
            =? sign Rational.zero Rational.ltb (f b))%Z; [discriminate|].
  destruct (bisect_plot_loop _ _ _ _ _ _ _ _ _ _ _ _ _ _ _ _) as [r g] eqn:Hrun.
  cbn [fst]. intros ->.
  eapply (rational_bisect_loop_geometry err1 eps f a b) in Hrun;
    [exact Hrun | ..].
  - cbn [length]. unfold Rational.sub. rewrite Qred_correct.
    change (pow2 0) with 1%Q. field.
  - apply Qred_correct.
  - lra.
  - exact Hab.
  - lra.
  - discriminate.
  - intros i c Hc. destruct i; discriminate.
  - intros i c c' Hc. destruct i; discriminate.
Qed.

Lemma rational_sign_neg (x : Q) :
  (Rational.sign x = (-1)%Z <-> (x < 0)%Q)
  /\ (Rational.sign x = 1%Z <-> (0 <= x)%Q).
Proof.
  unfold Rational.sign, sign, Rational.ltb, Rational.zero.
  destruct (Qle_bool 0 x) eqn:E; cbn.
  - apply Qle_bool_iff in E. split; split; intros H; try discriminate;
      try reflexivity; try exact E. lra.
  - assert (Hn : ~ (0 <= x)%Q) by (intros H; apply Qle_bool_iff in H; congruence).
    split; split; intros H; try discriminate; try reflexivity; lra.
Qed.

(** X11. Over the rationals both bisection functions answer "Same Sign"
    exactly when [f(a)] and [f(b)] are both negative or both non-negative:
    zero counts as positive.  So a bracket with an exact root for one
    endpoint is refused when the value at the other endpoint is positive
    (or zero), and searched when it is negative. *)
Theorem rational_same_sign (err1 eps : Q) (f : Q -> Q) (a b : Q) (M : Z) :
  (Rational.bisect_method_with_plot a b M err1 eps f = Return SameSign
   <-> ((f a < 0)%Q <-> (f b < 0)%Q))
  /\ (Rational.bisect_method a b M err1 eps f = Return SameSign
      <-> ((f a < 0)%Q <-> (f b < 0)%Q))
  /\ (f a == 0 -> (0 <= f b)%Q ->
      Rational.bisect_method_with_plot a b M err1 eps f = Return SameSign)
  /\ (f a == 0 -> (f b < 0)%Q ->
      exists xs fxs,
        Rational.bisect_method_with_plot a b M err1 eps f = Return (Seqs xs fxs)).
Proof.
  assert (Hsign : Rational.sign (f a) = Rational.sign (f b)
                  <-> ((f a < 0)%Q <-> (f b < 0)%Q)).
  { destruct (rational_sign_neg (f a)) as [Ha1 Ha2].
    destruct (rational_sign_neg (f b)) as [Hb1 Hb2].
    destruct (Qlt_le_dec (f a) 0) as [La|La], (Qlt_le_dec (f b) 0) as [Lb|Lb].
    - rewrite (proj2 Ha1 La), (proj2 Hb1 Lb). tauto.
    - rewrite (proj2 Ha1 La), (proj2 Hb2 Lb). split; [discriminate|].
      intros H. apply H in La. lra.
    - rewrite (proj2 Ha2 La), (proj2 Hb1 Lb). split; [discriminate|].
      intros H. apply H in Lb. lra.
    - rewrite (proj2 Ha2 La), (proj2 Hb2 Lb). split; [|reflexivity].
      intros _. split; intros H; lra. }
  assert (Hplot : Rational.bisect_method_with_plot a b M err1 eps f
                  = Return SameSign
                  <-> Rational.sign (f a) = Rational.sign (f b)).
  { unfold Rational.bisect_method_with_plot, bisect_method_with_plot,
      bisect_plot_run. fold Rational.sign.
    destruct (Z.eqb_spec (Rational.sign (f a)) (Rational.sign (f b))) as [E|E].
    - split; [intros _; exact E | reflexivity].
    - destruct (bplot_loop_inv Rational.zero Rational.add Rational.half
                  Rational.abs Rational.ltb f err1 eps (range_len 1 (M + 1))
                  a b (f a) (f b) (Rational.sub b a) [] [] ghost0 E
                  (plot_inv_ghost0 Rational.zero Rational.add Rational.ltb f))
        as (xs & fxs & g & Hrun & _).
      rewrite Hrun. cbn. split; [discriminate | contradiction]. }
  assert (Hplain : Rational.bisect_method a b M err1 eps f = Return SameSign
                   <-> Rational.sign (f a) = Rational.sign (f b)).
  { unfold Rational.bisect_method, bisect_method, bisect_method_run.
    fold Rational.sign.
    destruct (Z.eqb_spec (Rational.sign (f a)) (Rational.sign (f b))) as [E|E].
    - split; [intros _; exact E | reflexivity].
    - pose proof (bloop_value Rational.zero Rational.add Rational.half
                    Rational.abs Rational.ltb f err1 eps (range_len 1 M)
                    a b (f a) (f b) (Rational.sub b a) ghost0) as Hv.
      split; [|contradiction]. intros Hr. rewrite Hr in Hv. contradiction. }
  split; [rewrite Hplot; exact Hsign|].
  split; [rewrite Hplain; exact Hsign|].
  split.
  - intros Ha Hb. apply Hplot, Hsign. split; intros H; lra.
  - intros Ha Hb.
    assert (E : Rational.sign (f a) <> Rational.sign (f b)).
    { intros E. apply Hsign in E. apply E in Hb. lra. }
    unfold Rational.bisect_method_with_plot, bisect_method_with_plot,
      bisect_plot_run. fold Rational.sign.
    destruct (Z.eqb_spec (Rational.sign (f a)) (Rational.sign (f b))) as [E'|_];
      [contradiction|].
    destruct (bplot_loop_inv Rational.zero Rational.add Rational.half
                Rational.abs Rational.ltb f err1 eps (range_len 1 (M + 1))
                a b (f a) (f b) (Rational.sub b a) [] [] ghost0 E
                (plot_inv_ghost0 Rational.zero Rational.add Rational.ltb f))
      as (xs & fxs & g & Hrun & _).
    exists xs, fxs. rewrite Hrun. reflexivity.
Qed.

(** ** The secant animation over the rationals *)

Lemma rational_div_Some (x y q : Q) :
  Rational.div x y = Some q -> ~ y == 0 /\ q == x / y.
Proof.
  unfold Rational.div. destruct (Qeq_bool y 0) eqn:Hy; [discriminate|].
  intros [= <-]. split; [|apply Qred_correct].
  intros H. apply Qeq_bool_iff in H. congruence.
Qed.

Lemma rational_div_defined (x y : Q) :
  ~ y == 0 -> Rational.div x y = Some (Qred (x / y)).
Proof.
  intros Hy. unfold Rational.div. destruct (Qeq_bool y 0) eqn:E; [|reflexivity].
  apply Qeq_bool_iff in E. contradiction.
Qed.

Lemma rational_ltb_lt (x y : Q) : Rational.ltb x y = true <-> (x < y)%Q.
Proof.
  unfold Rational.ltb. rewrite negb_true_iff.
  destruct (Qle_bool y x) eqn:E.
  - apply Qle_bool_iff in E. split; [discriminate | intros H; lra].
  - split; [intros _ | reflexivity].
    apply Qnot_le_lt. intros H. apply Qle_bool_iff in H. congruence.
Qed.


(** ** The further properties at concrete rational inputs *)

Lemma newton_plot_iterates_witness :
  exists xs fxs,
    Rational.newton_method_with_plot Rational.f2 Rational.f2_prime (3 # 2) 2
      Rational.tol Rational.tol Rational.tol = Return (Seqs xs fxs)
    /\ xs !! 0 = Some (3 # 2)
    /\ 1 <= length xs <= 3
    /\ chain (newton_link Rational.sub Rational.div Rational.abs Rational.ltb
                Rational.f2 Rational.f2_prime Rational.tol) xs.
Proof.
  assert (Hrun : exists xs fxs,
             Rational.newton_method_with_plot Rational.f2 Rational.f2_prime
               (3 # 2) 2 Rational.tol Rational.tol Rational.tol
             = Return (Seqs xs fxs))
    by (eexists _, _; vm_compute; reflexivity).
  destruct Hrun as (xs & fxs & Hrun). exists xs, fxs. split; [exact Hrun|].
  exact (newton_plot_iterates Rational.sub Rational.div Rational.abs
           Rational.ltb Rational.f2 Rational.f2_prime Rational.tol Rational.tol
           Rational.tol (3 # 2) 2%Z xs fxs Hrun).
Defined.

Lemma secant_plot_iterates_witness :
  exists xs fxs,
    Rational.secant_method_with_plot Rational.f2 0 2 2
      Rational.tol Rational.tol Rational.tol = Return (Seqs xs fxs)
    /\ xs !! 0 = Some 0%Q /\ xs !! 1 = Some 2%Q
    /\ 2 <= length xs <= 4
    /\ chain3 (secant_link Rational.sub Rational.mul Rational.div Rational.abs
                 Rational.ltb Rational.f2 Rational.tol) xs.
Proof.
  assert (Hrun : exists xs fxs,
             Rational.secant_method_with_plot Rational.f2 0 2 2
               Rational.tol Rational.tol Rational.tol = Return (Seqs xs fxs))
    by (eexists _, _; vm_compute; reflexivity).
  destruct Hrun as (xs & fxs & Hrun). exists xs, fxs. split; [exact Hrun|].
  exact (secant_plot_iterates Rational.sub Rational.mul Rational.div
           Rational.abs Rational.ltb Rational.f2 Rational.tol Rational.tol
           Rational.tol 0%Q 2%Q 2%Z xs fxs Hrun).
Defined.

Lemma bisect_animation_brackets_witness :
  exists xs fxs ivs,
    bisect_animation Rational.zero Rational.add Rational.sub Rational.half
      Rational.abs Rational.ltb 0%Q 3%Q 3 Rational.tol Rational.f2
    = Return (SeqsWith xs fxs ivs)
    /\ length xs = length ivs
    /\ bisect_links Rational.zero Rational.add Rational.sub Rational.half
         Rational.ltb Rational.f2 0%Q 3%Q xs ivs.
Proof.
  assert (Hrun : exists xs fxs ivs,
             bisect_animation Rational.zero Rational.add Rational.sub
               Rational.half Rational.abs Rational.ltb 0%Q 3%Q 3 Rational.tol
               Rational.f2 = Return (SeqsWith xs fxs ivs))
    by (eexists _, _, _; vm_compute; reflexivity).
  destruct Hrun as (xs & fxs & ivs & Hrun).
  destruct (bisect_animation_brackets Rational.zero Rational.add Rational.sub
              Rational.half Rational.abs Rational.ltb Rational.f2 Rational.tol
              0%Q 3%Q 3%Z xs fxs ivs Hrun)
    as (Hlen & _ & _ & Hlinks).
  exists xs, fxs, ivs. split; [exact Hrun | split; [exact Hlen | exact Hlinks]].
Defined.

Lemma newton_animation_tangents_witness :
  exists xs fxs tg,
    newton_animation Rational.sub Rational.div Rational.abs Rational.ltb
      Rational.f2 Rational.f2_prime (3 # 2) 2 Rational.tol
    = Return (SeqsWith xs fxs tg)
    /\ length xs = S (length tg)
    /\ tangents_of Rational.f2 Rational.f2_prime xs tg.
Proof.
  assert (Hrun : exists xs fxs tg,
             newton_animation Rational.sub Rational.div Rational.abs
               Rational.ltb Rational.f2 Rational.f2_prime (3 # 2) 2 Rational.tol
             = Return (SeqsWith xs fxs tg))
    by (eexists _, _, _; vm_compute; reflexivity).
  destruct Hrun as (xs & fxs & tg & Hrun).
  destruct (newton_animation_tangents Rational.sub Rational.div Rational.abs
              Rational.ltb Rational.f2 Rational.f2_prime Rational.tol
              (3 # 2) 2%Z xs fxs tg Hrun)
    as (_ & _ & Hlen & _ & Ht & _).
  exists xs, fxs, tg. split; [exact Hrun | split; [exact Hlen | exact Ht]].
Defined.

Lemma bisect_converges_by_half_width_witness :
  exists xs fxs g,
    Rational.bisect_plot_run (1 # 2) Rational.tol Rational.f2 0 3 5
    = (Return (Seqs xs fxs), g)
    /\ exit_by g = Converged /\ passes g <= 3 /\ 1 <= length xs <= 3.
Proof.
  apply (bisect_converges_by_half_width Rational.zero Rational.add Rational.sub
           Rational.half Rational.abs Rational.ltb Rational.f2 (1 # 2)
           Rational.tol 0%Q 3%Q 5%Z 3).
  - vm_compute. discriminate.
  - simpl. lia.
  - vm_compute. reflexivity.
Defined.

Lemma rational_bisect_geometry_witness :
  exists xs fxs,
    Rational.bisect_method_with_plot 0 3 5 Rational.tol Rational.tol Rational.f2
    = Return (Seqs xs fxs)
    /\ within 0 3 xs /\ halving_distances 0 3 xs.
Proof.
  assert (Hrun : exists xs fxs,
             Rational.bisect_method_with_plot 0 3 5 Rational.tol Rational.tol
               Rational.f2 = Return (Seqs xs fxs))
    by (eexists _, _; vm_compute; reflexivity).
  destruct Hrun as (xs & fxs & Hrun). exists xs, fxs. split; [exact Hrun|].
  apply (rational_bisect_geometry Rational.tol Rational.tol Rational.f2
           0 3 5%Z xs fxs); [|exact Hrun].
  vm_compute. discriminate.
Defined.

Lemma rational_f2_proper : Proper (Qeq ==> Qeq) Rational.f2.
Proof.
  intros x y H. unfold Rational.f2, Rational.sub, Rational.mul.
  rewrite !Qred_correct, H. reflexivity.
Defined.

